(** * sjtu::vector (src/vector.hpp): a shallow embedding and its properties

    The container is modelled over an explicit store: a heap of raw buffers
    (what [::operator new] hands out) and a table of vector objects (the
    three fields [data_], [size_], [capacity_] of each live [vector<T>]).
    Member functions become programs of a small state-and-exception monad;
    reading raw memory, touching a freed buffer or leaving a buffer is
    undefined behaviour and is tracked as such.

    What the model takes for granted:
    - the element type [T] is a type of values: copy construction and copy
      assignment copy the value and do not fail, destruction has no effect
      of its own;
    - memory is measured in slots of one [T]; [::operator new] succeeds and
      returns a buffer of the number of slots asked for;
    - [size_t] is 64 bits wide, [int] 32 bits.

    The parameters that [insert], [erase] and [push_back] take by reference
    are references in the model too: the object an argument designates may
    be an element of the container the call works on, and is read when the
    source reads it.

    The file has three parts: the embedding of the source; the properties
    of the embedding for an arbitrary element type, first lemmas on the
    steps and on the member functions one by one, then the properties the
    specification states, then further ones that the code shows; and
    instances of these properties on concrete stores of integer
    elements. *)

From stdpp Require Import base numbers option list gmap.

Local Open Scope Z_scope.

(** ** Machine integers *)

(** [size_t] is an unsigned 64-bit integer, [int] a signed 32-bit one. Both
  are carried as [Z]; every operation of the source that can wrap is
  written with its reduction. *)
Definition SIZE_MAX : Z := 2 ^ 64 - 1.
Definition INT_MAX : Z := 2 ^ 31 - 1.
Definition INT_MIN : Z := - 2 ^ 31.

Definition is_size_t (z : Z) : Prop := 0 <= z <= SIZE_MAX.

Definition to_size_t (z : Z) : Z := z mod 2 ^ 64.

(** Conversion of a [ptrdiff_t] to [int] keeps the low 32 bits. *)
Definition to_int (z : Z) : Z := (z + 2 ^ 31) mod 2 ^ 32 - 2 ^ 31.

(** ** Pointers *)

Abbreviation block := positive.
Abbreviation loc := positive.

(** A [T*] is null or designates a slot of a buffer. *)
Inductive ptr : Type :=
  | Null
  | Ptr (b : block) (off : Z).

Global Instance ptr_eq_dec : EqDecision ptr.
Proof. solve_decision. Defined.

(** [p + n]; the only arithmetic the container does on [nullptr] is
  [nullptr + 0]. *)
Definition ptr_add (p : ptr) (n : Z) : ptr :=
  match p with
  | Null => Null
  | Ptr b o => Ptr b (o + n)
  end.

(** [p - q] is defined for two pointers into one buffer only. *)
Definition ptr_diff (p q : ptr) : option Z :=
  match p, q with
  | Null, Null => Some 0
  | Ptr b o, Ptr b' o' => if decide (b = b') then Some (o - o') else None
  | _, _ => None
  end.

(** exceptions.hpp *)
Inductive exn : Type :=
  | index_out_of_bound
  | container_is_empty
  | invalid_iterator.

(** Outcome of a member function of the cursors, which touch no memory. *)
Inductive result (A : Type) : Type :=
  | Ok (a : A)
  | Raise (e : exn)
  | UB.
Global Arguments Ok {A} a.
Global Arguments Raise {A} e.
Global Arguments UB {A}.

(** ** Cursors *)

Record iterator : Type := Iter { ptr_ : ptr; vec_ : option loc }.
Record const_iterator : Type := CIter { cptr_ : ptr; cvec_ : option loc }.

Module iterator_ops.

(** [iterator operator+(const int &n) const] *)
Definition add (it : iterator) (n : Z) : iterator :=
  Iter (ptr_add (ptr_ it) n) (vec_ it).

(** [iterator operator-(const int &n) const] *)
Definition sub_n (it : iterator) (n : Z) : iterator :=
  Iter (ptr_add (ptr_ it) (- n)) (vec_ it).

(** [int operator-(const iterator &rhs) const] *)
Definition sub (it rhs : iterator) : result Z :=
  if decide (vec_ it = vec_ rhs) then
    match ptr_diff (ptr_ it) (ptr_ rhs) with
    | Some d => Ok (to_int d)
    | None => UB
    end
  else Raise invalid_iterator.

(** [bool operator==(const iterator &rhs) const] *)
Definition eqb (it rhs : iterator) : bool :=
  bool_decide (ptr_ it = ptr_ rhs).

(** [bool operator!=(const iterator &rhs) const] *)
Definition neqb (it rhs : iterator) : bool :=
  negb (bool_decide (ptr_ it = ptr_ rhs)).

(** [iterator& operator+=(const int &n)]: the value of [*this] after the
    call, which the returned reference designates. *)
Definition add_assign (it : iterator) (n : Z) : iterator :=
  Iter (ptr_add (ptr_ it) n) (vec_ it).

(** [iterator& operator-=(const int &n)] *)
Definition sub_assign (it : iterator) (n : Z) : iterator :=
  Iter (ptr_add (ptr_ it) (- n)) (vec_ it).

(** [iterator operator++(int)]: the cursor returned (a copy of [*this] as
    it was) and the value of [*this] after the call. *)
Definition post_inc (it : iterator) : iterator * iterator :=
  (it, Iter (ptr_add (ptr_ it) 1) (vec_ it)).

(** [iterator& operator++()] *)
Definition pre_inc (it : iterator) : iterator :=
  Iter (ptr_add (ptr_ it) 1) (vec_ it).

(** [iterator operator--(int)] *)
Definition post_dec (it : iterator) : iterator * iterator :=
  (it, Iter (ptr_add (ptr_ it) (- 1)) (vec_ it)).

(** [iterator& operator--()] *)
Definition pre_dec (it : iterator) : iterator :=
  Iter (ptr_add (ptr_ it) (- 1)) (vec_ it).

(** [T& operator*() const]: the slot the returned reference designates. *)
Definition operator_star (it : iterator) : ptr := ptr_ it.

(** [bool operator==(const const_iterator &rhs) const] *)
Definition eqb_const (it : iterator) (rhs : const_iterator) : bool :=
  bool_decide (ptr_ it = cptr_ rhs).

(** [bool operator!=(const const_iterator &rhs) const] *)
Definition neqb_const (it : iterator) (rhs : const_iterator) : bool :=
  negb (bool_decide (ptr_ it = cptr_ rhs)).

End iterator_ops.

Module const_iterator_ops.

(** [const_iterator(const iterator& other)] *)
Definition of_iterator (other : iterator) : const_iterator :=
  CIter (ptr_ other) (vec_ other).

(** [const_iterator operator+(const int &n) const] *)
Definition add (it : const_iterator) (n : Z) : const_iterator :=
  CIter (ptr_add (cptr_ it) n) (cvec_ it).

(** [const_iterator operator-(const int &n) const] *)
Definition sub_n (it : const_iterator) (n : Z) : const_iterator :=
  CIter (ptr_add (cptr_ it) (- n)) (cvec_ it).

(** [int operator-(const const_iterator &rhs) const] *)
Definition sub (it rhs : const_iterator) : result Z :=
  if decide (cvec_ it = cvec_ rhs) then
    match ptr_diff (cptr_ it) (cptr_ rhs) with
    | Some d => Ok (to_int d)
    | None => UB
    end
  else Raise invalid_iterator.

(** [bool operator==(const const_iterator &rhs) const] *)
Definition eqb (it rhs : const_iterator) : bool :=
  bool_decide (cptr_ it = cptr_ rhs).

(** [bool operator!=(const const_iterator &rhs) const] *)
Definition neqb (it rhs : const_iterator) : bool :=
  negb (bool_decide (cptr_ it = cptr_ rhs)).

(** [bool operator==(const iterator &rhs) const] *)
Definition eqb_iter (it : const_iterator) (rhs : iterator) : bool :=
  bool_decide (cptr_ it = ptr_ rhs).

(** [bool operator!=(const iterator &rhs) const] *)
Definition neqb_iter (it : const_iterator) (rhs : iterator) : bool :=
  negb (bool_decide (cptr_ it = ptr_ rhs)).

(** [const_iterator& operator+=(const int &n)] *)
Definition add_assign (it : const_iterator) (n : Z) : const_iterator :=
  CIter (ptr_add (cptr_ it) n) (cvec_ it).

(** [const_iterator& operator-=(const int &n)] *)
Definition sub_assign (it : const_iterator) (n : Z) : const_iterator :=
  CIter (ptr_add (cptr_ it) (- n)) (cvec_ it).

(** [const_iterator operator++(int)] *)
Definition post_inc (it : const_iterator) : const_iterator * const_iterator :=
  (it, CIter (ptr_add (cptr_ it) 1) (cvec_ it)).

(** [const_iterator& operator++()] *)
Definition pre_inc (it : const_iterator) : const_iterator :=
  CIter (ptr_add (cptr_ it) 1) (cvec_ it).

(** [const_iterator operator--(int)] *)
Definition post_dec (it : const_iterator) : const_iterator * const_iterator :=
  (it, CIter (ptr_add (cptr_ it) (- 1)) (cvec_ it)).

(** [const_iterator& operator--()] *)
Definition pre_dec (it : const_iterator) : const_iterator :=
  CIter (ptr_add (cptr_ it) (- 1)) (cvec_ it).

(** [const T& operator*() const] *)
Definition operator_star (it : const_iterator) : ptr := cptr_ it.

End const_iterator_ops.


(** ** The store *)

(** The three private fields of a [vector<T>]. *)
Record vec : Type := Vec { data_ : ptr; size_ : Z; capacity_ : Z }.

(** A buffer is a row of slots; a slot holds a constructed object or is raw
    memory. [objs] maps the address of every live vector object to its
    fields. *)
Record world (T : Type) : Type := World {
  heap : gmap block (list (option T));
  objs : gmap loc vec
}.
Global Arguments World {T} heap objs.
Global Arguments heap {T} w.
Global Arguments objs {T} w.

Inductive outcome (T A : Type) : Type :=
  | Ret (a : A) (w : world T)
  | Throw (e : exn) (w : world T)
  | Undef.
Global Arguments Ret {T A} a w.
Global Arguments Throw {T A} e w.
Global Arguments Undef {T A}.

Definition M (T A : Type) : Type := world T → outcome T A.

Definition ret {T A} (a : A) : M T A := λ w, Ret a w.

Definition bind {T A B} (m : M T A) (k : A → M T B) : M T B :=
  λ w, match m w with
       | Ret a w' => k a w'
       | Throw e w' => Throw e w'
       | Undef => Undef
       end.

Definition throw {T A} (e : exn) : M T A := λ w, Throw e w.

Definition undef {T A} : M T A := λ _, Undef.

Notation "x <- m ;; k" := (bind m (λ x, k))
  (at level 100, m at next level, right associativity).
Notation "m ;;; k" := (bind m (λ _, k))
  (at level 100, right associativity).

(** A [const T &] parameter: the caller's object is either outside every
    buffer of the heap (a local or a temporary holding [v]) or an element
    slot, as in [v.push_back(v[0])]. *)
Inductive cref (T : Type) : Type :=
  | Temp (v : T)
  | Elem (p : ptr).
Global Arguments Temp {T} v.
Global Arguments Elem {T} p.

(** A [const size_t &] parameter: the caller's [size_t] object is either
    outside every buffer of the heap (a local or a temporary holding [n]) or
    lies in an element slot, as in [v.erase(v[1])] on a [vector<size_t>].
    [field] gives its value in terms of the element's: the identity when
    [T] is [size_t], a member access when the elements are structures. *)
Inductive iref (T : Type) : Type :=
  | ITemp (n : Z)
  | IElem (p : ptr) (field : T → Z).
Global Arguments ITemp {T} n.
Global Arguments IElem {T} p field.

Section memory.
Context {T : Type}.

(** Fields of [*this]. *)
Definition get_obj (this : loc) : M T vec :=
  λ w, match objs w !! this with
       | Some v => Ret v w
       | None => Undef
       end.

Definition set_obj (this : loc) (v : vec) : M T unit :=
  λ w, Ret tt (World (heap w) (<[this := v]> (objs w))).

Definition set_data (this : loc) (p : ptr) : M T unit :=
  v <- get_obj this ;; set_obj this (Vec p (size_ v) (capacity_ v)).

Definition set_size (this : loc) (n : Z) : M T unit :=
  v <- get_obj this ;; set_obj this (Vec (data_ v) n (capacity_ v)).

Definition set_capacity (this : loc) (n : Z) : M T unit :=
  v <- get_obj this ;; set_obj this (Vec (data_ v) (size_ v) n).

(** [reinterpret_cast<T*>(::operator new(n * sizeof(T)))]: a fresh buffer of
    [n] raw slots. The byte count is taken to be representable and the
    allocation to succeed. *)
Definition operator_new (n : Z) : M T ptr :=
  λ w, let b := fresh (dom (heap w)) in
       Ret (Ptr b 0) (World (<[b := replicate (Z.to_nat n) None]> (heap w)) (objs w)).

(** [::operator delete(p)]: no effect on [nullptr]; otherwise [p] must be
    what [operator new] returned for a buffer still allocated. *)
Definition operator_delete (p : ptr) : M T unit :=
  λ w, match p with
       | Null => Ret tt w
       | Ptr b o =>
           if decide (o = 0) then
             match heap w !! b with
             | Some _ => Ret tt (World (delete b (heap w)) (objs w))
             | None => Undef
             end
           else Undef
       end.

(** The slot a pointer designates, if it lies inside an allocated buffer. *)
Definition slot_at (h : gmap block (list (option T))) (p : ptr) : option (option T) :=
  match p with
  | Null => None
  | Ptr b o => if decide (0 <= o) then h !! b ≫= (λ l, l !! Z.to_nat o) else None
  end.

Definition slot_set (h : gmap block (list (option T))) (p : ptr) (s : option T)
  : gmap block (list (option T)) :=
  match p with
  | Null => h
  | Ptr b o => alter (λ l, <[Z.to_nat o := s]> l) b h
  end.

(** [new (p) T(x)]: placement construction into a slot of a buffer. *)
Definition construct (p : ptr) (x : T) : M T unit :=
  λ w, match slot_at (heap w) p with
       | Some _ => Ret tt (World (slot_set (heap w) p (Some x)) (objs w))
       | None => Undef
       end.

(** [p->~T()]: the slot must hold an object and becomes raw memory. *)
Definition destroy (p : ptr) : M T unit :=
  λ w, match slot_at (heap w) p with
       | Some (Some _) => Ret tt (World (slot_set (heap w) p None) (objs w))
       | _ => Undef
       end.

(** Reading [*p]: the slot must hold an object. *)
Definition read (p : ptr) : M T T :=
  λ w, match slot_at (heap w) p with
       | Some (Some x) => Ret x w
       | _ => Undef
       end.

(** [*p = x]: copy assignment to the object in the slot. *)
Definition assign (p : ptr) (x : T) : M T unit :=
  λ w, match slot_at (heap w) p with
       | Some (Some _) => Ret tt (World (slot_set (heap w) p (Some x)) (objs w))
       | _ => Undef
       end.

(** The value of a [const T &] argument at the moment it is read. *)
Definition deref (r : cref T) : M T T :=
  match r with
  | Temp v => ret v
  | Elem p => read p
  end.

(** The value of a [const size_t &] argument at the moment it is read. *)
Definition read_index (r : iref T) : M T Z :=
  match r with
  | ITemp n => ret n
  | IElem p field => x <- read p ;; ret (field x)
  end.

(** [for (size_t i = lo; i < hi; ++i) body(i)], unrolled [n = hi - lo]
    times; [i] stays below [hi], so [++i] does not wrap. *)
Fixpoint for_up (n : nat) (i : Z) (body : Z → M T unit) : M T unit :=
  match n with
  | O => ret tt
  | S n' => body i ;;; for_up n' (i + 1) body
  end.

Definition for_range (lo hi : Z) (body : Z → M T unit) : M T unit :=
  for_up (Z.to_nat (hi - lo)) lo body.

(** [for (size_t i = hi; i > lo; --i) body(i)] where the bound [lo] is an
    object that the body may change: it is read at every test. [n] is the
    value of [i] as a natural number; at [i = 0] the bound is read and the
    test fails, no [size_t] being below 0. *)
Fixpoint for_down_to (n : nat) (i : Z) (lo : M T Z) (body : Z → M T unit)
  : M T unit :=
  match n with
  | O => lo ;;; ret tt
  | S n' =>
      l <- lo ;;
      if l <? i then body i ;;; for_down_to n' (i - 1) lo body else ret tt
  end.

(** What [for_down_to] comes to when every test reads the same bound: [n]
    iterations counted down from [i] (lemma [for_down_to_ret]). *)
Fixpoint for_down (n : nat) (i : Z) (body : Z → M T unit) : M T unit :=
  match n with
  | O => ret tt
  | S n' => body i ;;; for_down n' (i - 1) body
  end.

End memory.

(** ** Member functions of [vector<T>] *)

(** Each member function takes the address [this] of its object. The
    reference parameters of [insert], [erase] and [push_back] are taken as
    references, an element ([const T &]) as a [cref] and an index
    ([const size_t &]) as an [iref], and are read at the points where the
    source reads them. A field or a reference parameter that the source
    reads several times with no write to an object in between is read once
    (a placement [new] into raw memory writes to no object: what the
    caller's reference designates was an object when the call began). The
    index parameters of [at] and of [operator[]], which write nothing, are
    taken by value. *)

Module vector.
Section members.
Context {T : Type}.

(** [void reallocate(size_t new_capacity)] *)
Definition reallocate (this : loc) (new_capacity : Z) : M T unit :=
  new_data <- operator_new new_capacity ;;
  v <- get_obj this ;;
  for_range 0 (size_ v)
    (λ i, x <- read (ptr_add (data_ v) i) ;; construct (ptr_add new_data i) x) ;;;
  for_range 0 (size_ v) (λ i, destroy (ptr_add (data_ v) i)) ;;;
  operator_delete (data_ v) ;;;
  set_data this new_data ;;;
  set_capacity this new_capacity.

(** [vector()] *)
Definition vector_default (this : loc) : M T unit :=
  set_obj this (Vec Null 0 0).

(** The body shared, textually, by the copy constructor and by copy
    assignment: [if (other.size_ > 0) { ... }]. *)
Definition copy_from (this other : loc) : M T unit :=
  o <- get_obj other ;;
  if 0 <? size_ o then
    d <- operator_new (size_ o) ;;
    set_data this d ;;;
    set_capacity this (size_ o) ;;;
    for_range 0 (size_ o)
      (λ i, x <- read (ptr_add (data_ o) i) ;; construct (ptr_add d i) x) ;;;
    set_size this (size_ o)
  else ret tt.

(** [vector(const vector &other)] *)
Definition vector_copy (this other : loc) : M T unit :=
  set_obj this (Vec Null 0 0) ;;;
  copy_from this other.

(** [~vector()] *)
Definition vector_destroy (this : loc) : M T unit :=
  v <- get_obj this ;;
  for_range 0 (size_ v) (λ i, destroy (ptr_add (data_ v) i)) ;;;
  operator_delete (data_ v) ;;;
  (λ w, Ret tt (World (heap w) (delete this (objs w)))).

(** [vector &operator=(const vector &other)] *)
Definition operator_assign (this other : loc) : M T loc :=
  if decide (this = other) then ret this
  else
    v <- get_obj this ;;
    for_range 0 (size_ v) (λ i, destroy (ptr_add (data_ v) i)) ;;;
    operator_delete (data_ v) ;;;
    set_data this Null ;;;
    set_size this 0 ;;;
    set_capacity this 0 ;;;
    copy_from this other ;;;
    ret this.

(** [T & at(const size_t &pos)] *)
Definition at_ (this : loc) (pos : Z) : M T ptr :=
  v <- get_obj this ;;
  if size_ v <=? pos then throw index_out_of_bound
  else ret (ptr_add (data_ v) pos).

(** [const T & at(const size_t &pos) const] *)
Definition at_const (this : loc) (pos : Z) : M T ptr :=
  v <- get_obj this ;;
  if size_ v <=? pos then throw index_out_of_bound
  else ret (ptr_add (data_ v) pos).

(** [T & operator[](const size_t &pos)] *)
Definition operator_index (this : loc) (pos : Z) : M T ptr :=
  v <- get_obj this ;;
  if size_ v <=? pos then throw index_out_of_bound
  else ret (ptr_add (data_ v) pos).

(** [const T & operator[](const size_t &pos) const] *)
Definition operator_index_const (this : loc) (pos : Z) : M T ptr :=
  v <- get_obj this ;;
  if size_ v <=? pos then throw index_out_of_bound
  else ret (ptr_add (data_ v) pos).

(** [const T & front() const] *)
Definition front (this : loc) : M T ptr :=
  v <- get_obj this ;;
  if size_ v =? 0 then throw container_is_empty
  else ret (ptr_add (data_ v) 0).

(** [const T & back() const] *)
Definition back (this : loc) : M T ptr :=
  v <- get_obj this ;;
  if size_ v =? 0 then throw container_is_empty
  else ret (ptr_add (data_ v) (to_size_t (size_ v - 1))).

(** [iterator begin()] *)
Definition begin_ (this : loc) : M T iterator :=
  v <- get_obj this ;; ret (Iter (data_ v) (Some this)).

(** [const_iterator begin() const] and [const_iterator cbegin() const] *)
Definition cbegin (this : loc) : M T const_iterator :=
  v <- get_obj this ;; ret (CIter (data_ v) (Some this)).

(** [iterator end()] *)
Definition end_ (this : loc) : M T iterator :=
  v <- get_obj this ;; ret (Iter (ptr_add (data_ v) (size_ v)) (Some this)).

(** [const_iterator end() const] and [const_iterator cend() const] *)
Definition cend (this : loc) : M T const_iterator :=
  v <- get_obj this ;; ret (CIter (ptr_add (data_ v) (size_ v)) (Some this)).

(** [bool empty() const] *)
Definition empty (this : loc) : M T bool :=
  v <- get_obj this ;; ret (size_ v =? 0).

(** [size_t size() const] *)
Definition size (this : loc) : M T Z :=
  v <- get_obj this ;; ret (size_ v).

(** [void clear()] *)
Definition clear (this : loc) : M T unit :=
  v <- get_obj this ;;
  for_range 0 (size_ v) (λ i, destroy (ptr_add (data_ v) i)) ;;;
  set_size this 0.

(** [iterator insert(const size_t &ind, const T &value)]. On the growing
    path [ind] is read at the entry test and, nothing but the new buffer
    being written until the old elements are destroyed, that value serves
    up to there (lemma [index_read_once]); on the path that works in place
    it is read at every test of the shifting loop and for
    [data_[ind] = value]. Both paths read it once more for the cursor
    returned. *)
Definition insert (this : loc) (ind : iref T) (value : cref T) : M T iterator :=
  v <- get_obj this ;;
  i0 <- read_index ind ;;
  if size_ v <? i0 then throw index_out_of_bound
  else
    (if capacity_ v <=? size_ v then
       let new_capacity :=
         if capacity_ v =? 0 then 1 else to_size_t (capacity_ v * 2) in
       new_data <- operator_new new_capacity ;;
       for_range 0 i0
         (λ i, x <- read (ptr_add (data_ v) i) ;;
               construct (ptr_add new_data i) x) ;;;
       x <- deref value ;;
       construct (ptr_add new_data i0) x ;;;
       for_range i0 (size_ v)
         (λ i, x <- read (ptr_add (data_ v) i) ;;
               construct (ptr_add (ptr_add new_data i) 1) x) ;;;
       for_range 0 (size_ v) (λ i, destroy (ptr_add (data_ v) i)) ;;;
       operator_delete (data_ v) ;;;
       set_data this new_data ;;;
       set_capacity this new_capacity ;;;
       set_size this (to_size_t (size_ v + 1))
     else
       x <- deref value ;;
       construct (ptr_add (data_ v) (size_ v)) x ;;;
       for_down_to (Z.to_nat (size_ v)) (size_ v) (read_index ind)
         (λ i, x <- read (ptr_add (data_ v) (i - 1)) ;;
               assign (ptr_add (data_ v) i) x) ;;;
       i1 <- read_index ind ;;
       x <- deref value ;;
       assign (ptr_add (data_ v) i1) x ;;;
       set_size this (to_size_t (size_ v + 1))) ;;;
    v' <- get_obj this ;;
    i2 <- read_index ind ;;
    ret (Iter (ptr_add (data_ v') i2) (Some this)).

(** [iterator erase(const size_t &ind)]: [ind] is read at the entry test,
    which is also the value the loop variable starts from, and once more,
    after the shift, for the cursor returned. *)
Definition erase (this : loc) (ind : iref T) : M T iterator :=
  v <- get_obj this ;;
  i0 <- read_index ind ;;
  if size_ v <=? i0 then throw index_out_of_bound
  else
    for_range i0 (to_size_t (size_ v - 1))
      (λ i, x <- read (ptr_add (data_ v) (i + 1)) ;;
            assign (ptr_add (data_ v) i) x) ;;;
    destroy (ptr_add (data_ v) (to_size_t (size_ v - 1))) ;;;
    set_size this (to_size_t (size_ v - 1)) ;;;
    v' <- get_obj this ;;
    i1 <- read_index ind ;;
    ret (Iter (ptr_add (data_ v') i1) (Some this)).

(** [size_t index = pos.ptr_ - data_] of the cursor overloads *)
Definition index_of (this : loc) (pos : iterator) : M T Z :=
  v <- get_obj this ;;
  match ptr_diff (ptr_ pos) (data_ v) with
  | Some d => ret (to_size_t d)
  | None => undef
  end.

(** [iterator insert(iterator pos, const T &value)]: the index overload
    is called on the local variable [index]. *)
Definition insert_at (this : loc) (pos : iterator) (value : cref T) : M T iterator :=
  index <- index_of this pos ;; insert this (ITemp index) value.

(** [iterator erase(iterator pos)] *)
Definition erase_at (this : loc) (pos : iterator) : M T iterator :=
  index <- index_of this pos ;; erase this (ITemp index).

(** [void push_back(const T &value)] *)
Definition push_back (this : loc) (value : cref T) : M T unit :=
  v <- get_obj this ;;
  (if capacity_ v <=? size_ v then
     let new_capacity :=
       if capacity_ v =? 0 then 1 else to_size_t (capacity_ v * 2) in
     reallocate this new_capacity
   else ret tt) ;;;
  v <- get_obj this ;;
  x <- deref value ;;
  construct (ptr_add (data_ v) (size_ v)) x ;;;
  set_size this (to_size_t (size_ v + 1)).

(** [void pop_back()] *)
Definition pop_back (this : loc) : M T unit :=
  v <- get_obj this ;;
  if size_ v =? 0 then throw container_is_empty
  else
    destroy (ptr_add (data_ v) (to_size_t (size_ v - 1))) ;;;
    set_size this (to_size_t (size_ v - 1)).

End members.
End vector.

(** ** Abstraction: the element sequence held by a container *)

Section model.
Context {T : Type}.

(** A buffer whose first slots hold the objects [xs] and whose last [k]
    slots are raw memory. *)
Definition cells (xs : list T) (k : nat) : list (option T) :=
  (Some <$> xs) ++ replicate k None.

(** [buffer h d xs cap]: [d] is the start of an allocated buffer of [cap]
    slots of which exactly the first [length xs] hold objects, the elements
    [xs] in index order; or no buffer is allocated at all. *)
Definition buffer (h : gmap block (list (option T))) (d : ptr)
    (xs : list T) (cap : Z) : Prop :=
  match d with
  | Null => xs = [] ∧ cap = 0
  | Ptr b o =>
      o = 0 ∧ h !! b = Some (cells xs (Z.to_nat cap - length xs))
  end.

(** [repr_at w this d xs cap]: in store [w], the vector object at address
    [this] has buffer pointer [d], element sequence [xs] and capacity
    [cap]. *)
Definition repr_at (w : world T) (this : loc) (d : ptr) (xs : list T) (cap : Z)
  : Prop :=
  objs w !! this = Some (Vec d (Z.of_nat (length xs)) cap)
  ∧ Z.of_nat (length xs) <= cap <= SIZE_MAX
  ∧ buffer (heap w) d xs cap.

(** [repr w this xs cap]: in store [w], the vector object at address [this]
    has element sequence [xs] and capacity [cap]. *)
Definition repr (w : world T) (this : loc) (xs : list T) (cap : Z) : Prop :=
  ∃ d, repr_at w this d xs cap.

(** Every vector object of the store is well formed and no two of them
    share a buffer. *)
Definition wf_world (w : world T) : Prop :=
  (∀ o v, objs w !! o = Some v →
     ∃ xs, size_ v = Z.of_nat (length xs)
           ∧ Z.of_nat (length xs) <= capacity_ v <= SIZE_MAX
           ∧ buffer (heap w) (data_ v) xs (capacity_ v))
  ∧ (∀ o1 o2 v1 v2 b off1 off2,
       objs w !! o1 = Some v1 → objs w !! o2 = Some v2 →
       data_ v1 = Ptr b off1 → data_ v2 = Ptr b off2 → o1 = o2).

(** The store after the contents of one buffer are replaced. *)
Definition upd_block (w : world T) (b : block) (l : list (option T)) : world T :=
  World (<[b := l]> (heap w)) (objs w).

(** The heap after [::operator delete(d)]. *)
Definition free_buf (d : ptr) (h : gmap block (list (option T)))
  : gmap block (list (option T)) :=
  match d with
  | Null => h
  | Ptr b _ => delete b h
  end.

(** [outside w this r v]: the argument [r] designates an object of value
    [v] that is not an element of the container at [this]. *)
Definition outside (w : world T) (this : loc) (r : cref T) (v : T) : Prop :=
  match r with
  | Temp x => x = v
  | Elem p =>
      slot_at (heap w) p = Some (Some v)
      ∧ ∀ u b o o', objs w !! this = Some u → data_ u = Ptr b o → p ≠ Ptr b o'
  end.

(** [index_outside w this r n]: the index argument [r] designates a
    [size_t] object of value [n] that is not part of an element of the
    container at [this]. *)
Definition index_outside (w : world T) (this : loc) (r : iref T) (n : Z)
  : Prop :=
  match r with
  | ITemp m => m = n
  | IElem p field =>
      (∃ x, slot_at (heap w) p = Some (Some x) ∧ field x = n)
      ∧ ∀ u b o o', objs w !! this = Some u → data_ u = Ptr b o → p ≠ Ptr b o'
  end.

(** The capacity adopted when the buffer is full:
    [capacity_ == 0 ? 1 : capacity_ * 2]. *)
Definition grown (cap : Z) : Z :=
  if cap =? 0 then 1 else to_size_t (cap * 2).

(** [push_back] called once for each value of [vs], in order. *)
Fixpoint push_all (this : loc) (vs : list T) : M T unit :=
  match vs with
  | [] => ret tt
  | v :: vs' => vector.push_back this (Temp v) ;;; push_all this vs'
  end.

(** The mutating operations of the public interface, called with
    arguments, indices and values, that are temporaries or locals of the
    caller and no elements of a container. [MWrite i x] is [v[i] = x]. *)
Inductive mutation : Type :=
  | MPush (x : T)
  | MPop
  | MInsert (ind : Z) (x : T)
  | MErase (ind : Z)
  | MClear
  | MWrite (pos : Z) (x : T).

Definition mutate (this : loc) (m : mutation) : M T unit :=
  match m with
  | MPush x => vector.push_back this (Temp x)
  | MPop => vector.pop_back this
  | MInsert ind x => vector.insert this (ITemp ind) (Temp x) ;;; ret tt
  | MErase ind => vector.erase this (ITemp ind) ;;; ret tt
  | MClear => vector.clear this
  | MWrite pos x => p <- vector.operator_index this pos ;; assign p x
  end.

(** What [for (i = hi; i > lo; --i) data_[i] = data_[i - 1];] computes on
    the element sequence ([n] iterations starting at [i]). *)
Fixpoint shift_right (n i : nat) (ys : list T) : list T :=
  match n with
  | O => ys
  | S n' =>
      match ys !! (i - 1)%nat with
      | Some x => shift_right n' (i - 1) (<[i := x]> ys)
      | None => ys
      end
  end.

(** What [for (i = lo; i < hi; ++i) data_[i] = data_[i + 1];] computes on
    the element sequence ([n] iterations starting at [i]). *)
Fixpoint shift_left (n i : nat) (ys : list T) : list T :=
  match n with
  | O => ys
  | S n' =>
      match ys !! (i + 1)%nat with
      | Some x => shift_left n' (i + 1) (<[i := x]> ys)
      | None => ys
      end
  end.

(** [frame w w' this]: a step from [w] to [w'] touched no vector object but
    the one at [this], no buffer but the one that object had, and if the
    object has another buffer now, that buffer was not allocated before. *)
Definition frame (w w' : world T) (this : loc) : Prop :=
  (∀ o, o ≠ this → objs w' !! o = objs w !! o)
  ∧ (∀ b l, heap w !! b = Some l →
       (∀ u o, objs w !! this = Some u → data_ u ≠ Ptr b o) →
       heap w' !! b = Some l)
  ∧ (∀ u' b o, objs w' !! this = Some u' → data_ u' = Ptr b o →
       (∃ u o', objs w !! this = Some u ∧ data_ u = Ptr b o')
       ∨ heap w !! b = None).

(** The store an outcome leaves behind, if the call was defined. *)
Definition outcome_world {A} (o : outcome T A) : option (world T) :=
  match o with
  | Ret _ w => Some w
  | Throw _ w => Some w
  | Undef => None
  end.

(** The index arguments of a mutation are of type [size_t]. *)
Definition mutation_ok (m : mutation) : Prop :=
  match m with
  | MInsert ind _ => is_size_t ind
  | MErase ind => is_size_t ind
  | MWrite pos _ => is_size_t pos
  | _ => True
  end.

(** A sequence of mutations of one container, each in a [try] block of
    its own: an exception ends the call that raised it and the sequence
    goes on. [None] if one of the calls has undefined behaviour. *)
Fixpoint mutate_all (this : loc) (ms : list mutation) (w : world T)
  : option (world T) :=
  match ms with
  | [] => Some w
  | m :: ms' =>
      match outcome_world (mutate this m w) with
      | Some w' => mutate_all this ms' w'
      | None => None
      end
  end.


(** [only_buffer p w w']: the step from [w] to [w'] changed no vector
    object and nothing of the heap but, possibly, the buffer [p] points
    into. *)
Definition only_buffer (p : ptr) (w w' : world T) : Prop :=
  objs w' = objs w ∧ free_buf p (heap w') = free_buf p (heap w).

(** A computation that, when it returns, has stayed within the buffer of
    [p]. *)
Definition quiet {A} (p : ptr) (m : M T A) : Prop :=
  ∀ w a w', m w = Ret a w' → only_buffer p w w'.

(** [footprint this w w']: from [w] to [w'] the vector object at [this]
    may have changed, and so may its buffer; every other object is as it
    was, and so is the heap apart from the buffer the object had before and
    the one it has now. *)
Definition footprint (this : loc) (w w' : world T) : Prop :=
  ∀ u, objs w !! this = Some u →
    ∃ u', objs w' = <[this := u']> (objs w)
          ∧ free_buf (data_ u') (heap w') = free_buf (data_ u) (heap w).

(** Every allocated buffer is the buffer of a live vector object. *)
Definition no_garbage (w : world T) : Prop :=
  ∀ b, is_Some (heap w !! b) →
    ∃ o v off, objs w !! o = Some v ∧ data_ v = Ptr b off.

(** A computation that throws no exception. *)
Definition nothrow {A} (m : M T A) : Prop :=
  ∀ w e w', m w ≠ Throw e w'.


(** [one_buffer xs h h']: the heap [h'] is the heap [h] with one more
    buffer, which was not allocated in [h] and consists of exactly
    [length xs] slots holding the objects [xs]; for the empty sequence it
    is [h] itself. *)
Definition one_buffer (xs : list T) (h h' : gmap block (list (option T)))
  : Prop :=
  match xs with
  | [] => h' = h
  | _ => ∃ bn, h !! bn = None ∧ h' = <[bn := Some <$> xs]> h
  end.

End model.

(** ** Concrete stores *)

(** The store with no object and no buffer. *)
Definition ex_empty : world Z := World ∅ ∅.

(** [vector<int> v; v.push_back(10); v.push_back(20); v.push_back(30);]
    with [v] at address 1. *)
Definition fill_one : M Z unit :=
  vector.vector_default 1%positive ;;; push_all 1%positive [10; 20; 30].

(** The store [fill_one] leaves: one container, elements 10, 20, 30 in a
    buffer of 4 slots. *)
Definition ex_one : world Z :=
  World {[3%positive := [Some 10; Some 20; Some 30; None]]}
        {[1%positive := Vec (Ptr 3 0) 3 4]}.

(** [fill_one] followed by [vector<int> u; u.push_back(7);] with [u] at
    address 2. *)
Definition fill_two : M Z unit :=
  fill_one ;;;
  vector.vector_default 2%positive ;;; push_all 2%positive [7].

(** The store [fill_two] leaves: the container of [ex_one] and a second
    one holding the single element 7 in a buffer of 1 slot. *)
Definition ex_two : world Z :=
  World (<[4%positive := [Some 7]]>
           {[3%positive := [Some 10; Some 20; Some 30; None]]})
        (<[2%positive := Vec (Ptr 4 0) 1 1]>
           {[1%positive := Vec (Ptr 3 0) 3 4]}).

(** [fill_one] followed by [vector<size_t> u; u.push_back(1);] with [u] at
    address 2. *)
Definition fill_pair : M Z unit :=
  fill_one ;;;
  vector.vector_default 2%positive ;;; push_all 2%positive [1].

(** The store [fill_pair] leaves: the container of [ex_one] and a second
    one holding the single element 1 in a buffer of 1 slot. *)
Definition ex_pair : world Z :=
  World (<[4%positive := [Some 1]]>
           {[3%positive := [Some 10; Some 20; Some 30; None]]})
        (<[2%positive := Vec (Ptr 4 0) 1 1]>
           {[1%positive := Vec (Ptr 3 0) 3 4]}).

(** [vector<size_t> v; v.push_back(7); v.push_back(0); v.push_back(1);]
    with [v] at address 1. *)
Definition fill_three : M Z unit :=
  vector.vector_default 1%positive ;;; push_all 1%positive [7; 0; 1].

(** The store [fill_three] leaves: one container, elements 7, 0, 1 in a
    buffer of 4 slots. *)
Definition ex_three : world Z :=
  World {[3%positive := [Some 7; Some 0; Some 1; None]]}
        {[1%positive := Vec (Ptr 3 0) 3 4]}.

(** [v.erase(v[1])] on a [vector<size_t>]: the index argument is the
    element [v[1]] itself. *)
Definition erase_own_index : M Z iterator :=
  p <- vector.operator_index 1%positive 1 ;;
  vector.erase 1%positive (IElem p (λ x, x)).

(** [v.insert(v[2], 42)] on a [vector<size_t>]. *)
Definition insert_own_index : M Z iterator :=
  p <- vector.operator_index 1%positive 2 ;;
  vector.insert 1%positive (IElem p (λ x, x)) (Temp 42).

(** [v.erase(v[2])] on a [vector<size_t>] of three elements: the index
    argument is the last element. *)
Definition erase_last_own_index : M Z iterator :=
  p <- vector.operator_index 1%positive 2 ;;
  vector.erase 1%positive (IElem p (λ x, x)).

(** [vector<size_t> v; v.push_back(5); v.push_back(6); v.push_back(1);
    v.insert(v[2], 42);] *)
Definition insert_own_index_beyond : M Z iterator :=
  vector.vector_default 1%positive ;;;
  push_all 1%positive [5; 6; 1] ;;;
  p <- vector.operator_index 1%positive 2 ;;
  vector.insert 1%positive (IElem p (λ x, x)) (Temp 42).

(** [vector<size_t> v; v.push_back(0); v.insert(v[0], 42);]: the buffer is
    full when [insert] is called. *)
Definition insert_own_index_full : M Z iterator :=
  vector.vector_default 1%positive ;;;
  vector.push_back 1%positive (Temp 0) ;;;
  p <- vector.operator_index 1%positive 0 ;;
  vector.insert 1%positive (IElem p (λ x, x)) (Temp 42).

(** [2^31] calls [v.push_back(0)] on a fresh container [v]. *)
Definition fill_big : M Z unit :=
  vector.vector_default 1%positive ;;;
  push_all 1%positive (replicate (Z.to_nat (2 ^ 31)) 0).

(** The scenario of the specification: three calls of [push_back], then
    [insert(1, 15)], [erase(0)], a read through the cursor [erase] returned,
    and three calls of [pop_back]. *)
Definition scenario : M Z Z :=
  fill_one ;;;
  vector.insert 1%positive (ITemp 1) (Temp 15) ;;;
  it <- vector.erase 1%positive (ITemp 0) ;;
  x <- read (ptr_ it) ;;
  vector.pop_back 1%positive ;;;
  vector.pop_back 1%positive ;;;
  vector.pop_back 1%positive ;;;
  ret x.

(** [v.push_back(10); v.push_back(v[0]);] on a fresh container [v]. *)
Definition push_back_own_element : M Z unit :=
  vector.vector_default 1%positive ;;;
  vector.push_back 1%positive (Temp 10) ;;;
  p <- vector.operator_index 1%positive 0 ;;
  vector.push_back 1%positive (Elem p).

(** [v.insert(0, v[2])]. *)
Definition insert_own_element : M Z iterator :=
  p <- vector.operator_index 1%positive 2 ;;
  vector.insert 1%positive (ITemp 0) (Elem p).

(** * Properties *)

Section proofs.
Context {T : Type}.
Implicit Types (w : world T) (h : gmap block (list (option T))).
Implicit Types (xs ys : list T) (l : list (option T)) (b : block).

(** ** The monad *)

Lemma bind_Ret {A B} (m : M T A) (k : A → M T B) w a w' :
  m w = Ret a w' → bind m k w = k a w'.
Proof. unfold bind. by intros ->. Qed.

Lemma bind_Throw {A B} (m : M T A) (k : A → M T B) w e w' :
  m w = Throw e w' → bind m k w = Throw e w'.
Proof. unfold bind. by intros ->. Qed.

Lemma bind_Undef {A B} (m : M T A) (k : A → M T B) w :
  m w = Undef → bind m k w = Undef.
Proof. unfold bind. by intros ->. Qed.

Lemma bind_assoc {A B C} (m : M T A) (k1 : A → M T B) (k2 : B → M T C) w :
  bind (bind m k1) k2 w = bind m (λ a, bind (k1 a) k2) w.
Proof. unfold bind. by destruct (m w). Qed.

Lemma bind_ext_run {A B} (m : M T A) (k1 k2 : A → M T B) w :
  (∀ a w1, m w = Ret a w1 → k1 a w1 = k2 a w1) → bind m k1 w = bind m k2 w.
Proof. unfold bind. destruct (m w); eauto. Qed.

Lemma bind_cong_l {A B} (m1 m2 : M T A) (k : A → M T B) w :
  m1 w = m2 w → bind m1 k w = bind m2 k w.
Proof. unfold bind. by intros ->. Qed.

Lemma bind_ret {A B} (a : A) (k : A → M T B) w : bind (ret a) k w = k a w.
Proof. done. Qed.

Lemma bind_read_temp {B} n (k : Z → M T B) w :
  bind (read_index (ITemp n)) k w = k n w.
Proof. done. Qed.

(** ** Machine integers *)

Lemma to_size_t_small z : is_size_t z → to_size_t z = z.
Proof. unfold is_size_t, to_size_t, SIZE_MAX. intros. apply Z.mod_small. lia. Qed.

Lemma to_int_small z : INT_MIN <= z <= INT_MAX → to_int z = z.
Proof.
  unfold INT_MIN, INT_MAX, to_int. intros H.
  rewrite Z.mod_small by lia. lia.
Qed.

Lemma grown_spec cap :
  0 <= cap → 2 * cap <= SIZE_MAX → grown cap = Z.max 1 (2 * cap).
Proof.
  intros H0 H1. unfold grown. destruct (Z.eqb_spec cap 0) as [->|Hne]; [done|].
  rewrite to_size_t_small by (unfold is_size_t; lia). lia.
Qed.

Lemma grown_ge cap : 0 <= cap → 2 * cap <= SIZE_MAX → cap <= grown cap.
Proof. intros H0 H1. rewrite grown_spec by done. lia. Qed.

(** Beyond [2^63 - 1] the doubled capacity is not a [size_t]: it wraps. *)
Lemma grown_wraps : grown (2 ^ 63) = 0 ∧ grown (2 ^ 63 + 1) = 2.
Proof. by vm_compute. Qed.

(** ** Buffers *)

Lemma length_cells xs k : length (cells xs k) = (length xs + k)%nat.
Proof. unfold cells. by rewrite length_app, length_fmap, length_replicate. Qed.

Lemma cells_lookup_live xs k i x :
  xs !! i = Some x → cells xs k !! i = Some (Some x).
Proof.
  intros Hi. unfold cells. apply lookup_app_l_Some.
  by rewrite list_lookup_fmap, Hi.
Qed.

Lemma cells_lookup_raw xs k i :
  (length xs <= i < length xs + k)%nat → cells xs k !! i = Some None.
Proof.
  intros Hi. unfold cells. rewrite lookup_app_r by (rewrite length_fmap; lia).
  rewrite length_fmap. apply lookup_replicate_2. lia.
Qed.

Lemma cells_snoc xs k x :
  <[length xs := Some x]> (cells xs (S k)) = cells (xs ++ [x]) k.
Proof.
  unfold cells. rewrite fmap_app, <- app_assoc. simpl.
  replace (length xs) with (length (Some <$> xs) + 0)%nat
    by (rewrite length_fmap; lia).
  by rewrite insert_app_r.
Qed.

Lemma cells_insert xs k i x :
  (i < length xs)%nat → <[i := Some x]> (cells xs k) = cells (<[i := x]> xs) k.
Proof.
  intros Hi. unfold cells.
  rewrite insert_app_l by (rewrite length_fmap; lia).
  by rewrite list_fmap_insert.
Qed.

Lemma cells_unsnoc xs k x :
  <[length xs := None]> (cells (xs ++ [x]) k) = cells xs (S k).
Proof.
  unfold cells. rewrite fmap_app, <- app_assoc. simpl.
  replace (length xs) with (length (Some <$> xs) + 0)%nat
    by (rewrite length_fmap; lia).
  by rewrite insert_app_r.
Qed.

Lemma cells_inj xs ys k k' : cells xs k = cells ys k' → xs = ys ∧ k = k'.
Proof.
  unfold cells. revert ys. induction xs as [|x xs IH]; intros [|y ys]; simpl.
  - intros H. split; [done|].
    apply (f_equal length) in H. by rewrite !length_replicate in H.
  - destruct k; discriminate.
  - destruct k'; discriminate.
  - intros H. injection H as -> H.
    destruct (IH ys H) as [-> ->]. done.
Qed.

(** ** Primitive steps *)

Lemma world_eta w : World (heap w) (objs w) = w.
Proof. by destruct w. Qed.

Lemma upd_block_id w b l : heap w !! b = Some l → upd_block w b l = w.
Proof.
  intros H. unfold upd_block. rewrite insert_id by done. apply world_eta.
Qed.

Lemma upd_block_twice w b l l' :
  upd_block (upd_block w b l) b l' = upd_block w b l'.
Proof. unfold upd_block. simpl. by rewrite insert_insert_eq. Qed.

Lemma heap_upd_block_eq w b l : heap (upd_block w b l) !! b = Some l.
Proof. apply lookup_insert_eq. Qed.

Lemma heap_upd_block_ne w b b' l :
  b ≠ b' → heap (upd_block w b l) !! b' = heap w !! b'.
Proof. intros. by apply lookup_insert_ne. Qed.

Lemma alter_as_insert h b l (f : list (option T) → list (option T)) :
  h !! b = Some l → alter f b h = <[b := f l]> h.
Proof.
  intros H. apply map_eq. intros b'. destruct (decide (b = b')) as [<-|Hne].
  - by rewrite lookup_alter_eq, lookup_insert_eq, H.
  - by rewrite lookup_alter_ne, lookup_insert_ne.
Qed.

Lemma get_obj_Ret w this v : objs w !! this = Some v → get_obj this w = Ret v w.
Proof. unfold get_obj. by intros ->. Qed.

Lemma set_data_Ret w this v p :
  objs w !! this = Some v →
  set_data this p w
  = Ret tt (World (heap w) (<[this := Vec p (size_ v) (capacity_ v)]> (objs w))).
Proof. intros H. unfold set_data. by rewrite (bind_Ret _ _ _ _ _ (get_obj_Ret _ _ _ H)). Qed.

Lemma set_size_Ret w this v n :
  objs w !! this = Some v →
  set_size this n w
  = Ret tt (World (heap w) (<[this := Vec (data_ v) n (capacity_ v)]> (objs w))).
Proof. intros H. unfold set_size. by rewrite (bind_Ret _ _ _ _ _ (get_obj_Ret _ _ _ H)). Qed.

Lemma set_capacity_Ret w this v n :
  objs w !! this = Some v →
  set_capacity this n w
  = Ret tt (World (heap w) (<[this := Vec (data_ v) (size_ v) n]> (objs w))).
Proof. intros H. unfold set_capacity. by rewrite (bind_Ret _ _ _ _ _ (get_obj_Ret _ _ _ H)). Qed.

Lemma slot_at_block h b o l i :
  h !! b = Some l → o = Z.of_nat i → slot_at h (Ptr b o) = l !! i.
Proof.
  intros Hb ->. unfold slot_at. rewrite decide_True by lia.
  rewrite Hb. simpl. by rewrite Nat2Z.id.
Qed.

Lemma read_live w b o l i x :
  heap w !! b = Some l → l !! i = Some (Some x) → o = Z.of_nat i →
  read (Ptr b o) w = Ret x w.
Proof.
  intros Hb Hi Ho. unfold read. by rewrite (slot_at_block _ _ _ _ _ Hb Ho), Hi.
Qed.

Lemma slot_set_block h b o l i s :
  h !! b = Some l → o = Z.of_nat i →
  slot_set h (Ptr b o) s = <[b := <[i := s]> l]> h.
Proof.
  intros Hb ->. unfold slot_set. rewrite (alter_as_insert _ _ _ _ Hb).
  by rewrite Nat2Z.id.
Qed.

Lemma construct_at w b o l i x :
  heap w !! b = Some l → (i < length l)%nat → o = Z.of_nat i →
  construct (Ptr b o) x w = Ret tt (upd_block w b (<[i := Some x]> l)).
Proof.
  intros Hb Hi Ho. unfold construct.
  rewrite (slot_at_block _ _ _ _ _ Hb Ho).
  destruct (lookup_lt_is_Some_2 l i Hi) as [s ->].
  by rewrite (slot_set_block _ _ _ _ _ _ Hb Ho).
Qed.

Lemma assign_live w b o l i x y :
  heap w !! b = Some l → l !! i = Some (Some y) → o = Z.of_nat i →
  assign (Ptr b o) x w = Ret tt (upd_block w b (<[i := Some x]> l)).
Proof.
  intros Hb Hi Ho. unfold assign.
  rewrite (slot_at_block _ _ _ _ _ Hb Ho), Hi.
  by rewrite (slot_set_block _ _ _ _ _ _ Hb Ho).
Qed.

Lemma destroy_live w b o l i y :
  heap w !! b = Some l → l !! i = Some (Some y) → o = Z.of_nat i →
  destroy (Ptr b o) w = Ret tt (upd_block w b (<[i := None]> l)).
Proof.
  intros Hb Hi Ho. unfold destroy.
  rewrite (slot_at_block _ _ _ _ _ Hb Ho), Hi.
  by rewrite (slot_set_block _ _ _ _ _ _ Hb Ho).
Qed.

(** The same steps on a buffer described by its element sequence. *)

Lemma read_cells w b o xs k i x :
  heap w !! b = Some (cells xs k) → xs !! i = Some x → o = Z.of_nat i →
  read (Ptr b o) w = Ret x w.
Proof.
  intros Hb Hi Ho. eapply read_live; [done| |done].
  by apply cells_lookup_live.
Qed.

Lemma construct_cells w b o xs k x :
  heap w !! b = Some (cells xs (S k)) → o = Z.of_nat (length xs) →
  construct (Ptr b o) x w = Ret tt (upd_block w b (cells (xs ++ [x]) k)).
Proof.
  intros Hb Ho. rewrite <- cells_snoc. eapply construct_at; [done| |done].
  rewrite length_cells. lia.
Qed.

Lemma assign_cells w b o xs k i x :
  heap w !! b = Some (cells xs k) → (i < length xs)%nat → o = Z.of_nat i →
  assign (Ptr b o) x w = Ret tt (upd_block w b (cells (<[i := x]> xs) k)).
Proof.
  intros Hb Hi Ho. rewrite <- cells_insert by done.
  destruct (lookup_lt_is_Some_2 xs i Hi) as [y Hy].
  eapply assign_live; [done| |done]. by apply cells_lookup_live.
Qed.

Lemma destroy_cells w b o xs k x :
  heap w !! b = Some (cells (xs ++ [x]) k) → o = Z.of_nat (length xs) →
  destroy (Ptr b o) w = Ret tt (upd_block w b (cells xs (S k))).
Proof.
  intros Hb Ho. rewrite <- (cells_unsnoc xs k x).
  eapply destroy_live; [done| |done].
  apply cells_lookup_live. by rewrite lookup_app_r, Nat.sub_diag by lia.
Qed.

Lemma operator_new_Ret w n :
  ∃ bn, heap w !! bn = None
        ∧ operator_new n w
          = Ret (Ptr bn 0) (World (<[bn := cells [] (Z.to_nat n)]> (heap w)) (objs w)).
Proof.
  exists (fresh (dom (heap w))). split; [|done].
  apply not_elem_of_dom. apply is_fresh.
Qed.

(** ** Loops *)

Lemma for_up_ext n (f g : Z → M T unit) :
  (∀ j w, f j w = g j w) → ∀ i w, for_up n i f w = for_up n i g w.
Proof.
  intros Hfg. induction n as [|n IH]; intros i w; simpl; [done|].
  unfold bind. rewrite Hfg. destruct (g i w); auto.
Qed.

Lemma for_range_empty (lo hi : Z) (body : Z → M T unit) w :
  hi <= lo → for_range lo hi body w = Ret tt w.
Proof.
  intros H. unfold for_range. by replace (Z.to_nat (hi - lo)) with O by lia.
Qed.

(** Copy construction of [n] source elements, from slot [i] on, into the
    raw slots that follow the objects [ys] of another buffer. *)
Lemma copy_loop bs bd xs ks δ (body : Z → M T unit) :
  bs ≠ bd →
  (∀ j w, body j w
          = bind (read (Ptr bs j)) (λ x, construct (Ptr bd (j + δ)) x) w) →
  ∀ n (i : nat) w ys kd,
    heap w !! bs = Some (cells xs ks) →
    heap w !! bd = Some (cells ys kd) →
    (i + n <= length xs)%nat → (n <= kd)%nat →
    Z.of_nat i + δ = Z.of_nat (length ys) →
    for_up n (Z.of_nat i) body w
    = Ret tt (upd_block w bd (cells (ys ++ take n (drop i xs)) (kd - n))).
Proof.
  intros Hne Hbody. induction n as [|n IH]; intros i w ys kd Hs Hd Hi Hk Hoff.
  - simpl. rewrite app_nil_r, Nat.sub_0_r. by rewrite upd_block_id.
  - destruct (lookup_lt_is_Some_2 xs i) as [x Hx]; [lia|].
    destruct kd as [|kd]; [lia|].
    simpl. unfold bind at 1. rewrite Hbody.
    rewrite (bind_Ret _ _ _ _ _ (read_cells _ _ _ _ _ _ _ Hs Hx eq_refl)).
    rewrite (construct_cells _ _ _ _ _ _ Hd Hoff).
    replace (Z.of_nat i + 1) with (Z.of_nat (S i)) by lia.
    rewrite (IH (S i) _ (ys ++ [x]) kd).
    + rewrite upd_block_twice. rewrite (drop_S _ _ _ Hx). simpl.
      by rewrite <- app_assoc.
    + by rewrite heap_upd_block_ne.
    + apply heap_upd_block_eq.
    + lia.
    + lia.
    + rewrite length_app. simpl. lia.
Qed.

(** Destruction of a run of objects. *)
Lemma destroy_loop b (body : Z → M T unit) :
  (∀ j w, body j w = destroy (Ptr b j) w) →
  ∀ ys (i : nat) w pre suf,
    heap w !! b = Some (pre ++ (Some <$> ys) ++ suf) →
    length pre = i →
    for_up (length ys) (Z.of_nat i) body w
    = Ret tt (upd_block w b (pre ++ replicate (length ys) None ++ suf)).
Proof.
  intros Hbody. induction ys as [|y ys IH]; intros i w pre suf Hb Hi.
  - simpl. by rewrite upd_block_id.
  - simpl. unfold bind. rewrite Hbody.
    rewrite (destroy_live _ _ _ _ i y Hb); [|
      by rewrite lookup_app_r, Hi, Nat.sub_diag by lia | done].
    replace (Z.of_nat i + 1) with (Z.of_nat (S i)) by lia.
    rewrite (IH (S i) _ (pre ++ [None]) suf).
    + rewrite upd_block_twice. by rewrite <- app_assoc.
    + rewrite heap_upd_block_eq. f_equal. rewrite <- Hi.
      rewrite <- app_assoc. simpl.
      replace (length pre) with (length pre + 0)%nat at 1 by lia.
      by rewrite insert_app_r.
    + rewrite length_app. simpl. lia.
Qed.

Lemma destroy_all w b xs k (body : Z → M T unit) :
  (∀ j w, body j w = destroy (Ptr b j) w) →
  heap w !! b = Some (cells xs k) →
  for_range 0 (Z.of_nat (length xs)) body w
  = Ret tt (upd_block w b (cells [] (length xs + k))).
Proof.
  intros Hbody Hb. unfold for_range.
  replace (Z.to_nat (Z.of_nat (length xs) - 0)) with (length xs) by lia.
  change 0 with (Z.of_nat 0).
  rewrite (destroy_loop b body Hbody xs 0 w [] (replicate k None)); [|done|done].
  simpl. unfold cells. simpl. by rewrite replicate_add.
Qed.

(** The right shift of [insert]. *)
(** With a bound that every test reads as the same value, the loop is the
    counted one. *)
Lemma for_down_to_ret (body : Z → M T unit) lo n : ∀ w,
  0 <= lo →
  for_down_to n (Z.of_nat n) (ret lo) body w
  = for_down (Z.to_nat (Z.of_nat n - lo)) (Z.of_nat n) body w.
Proof.
  induction n as [|n IH]; intros w Hlo.
  - by replace (Z.to_nat (Z.of_nat 0 - lo)) with 0%nat by lia.
  - rewrite Nat2Z.inj_succ. simpl for_down_to. unfold bind at 1, ret at 1.
    destruct (Z.ltb_spec lo (Z.succ (Z.of_nat n))) as [Hlt|Hge].
    + replace (Z.to_nat (Z.succ (Z.of_nat n) - lo))
        with (S (Z.to_nat (Z.of_nat n - lo))) by lia.
      simpl for_down. unfold bind.
      destruct (body (Z.succ (Z.of_nat n)) w) as [a w1|e w1|]; [|done|done].
      replace (Z.succ (Z.of_nat n) - 1) with (Z.of_nat n) by lia.
      by apply IH.
    + by replace (Z.to_nat (Z.succ (Z.of_nat n) - lo)) with 0%nat by lia.
Qed.

Lemma shift_right_loop b k (body : Z → M T unit) :
  (∀ j w, body j w
          = bind (read (Ptr b (j - 1))) (λ x, assign (Ptr b j) x) w) →
  ∀ n (i : nat) w ys,
    heap w !! b = Some (cells ys k) →
    (n <= i)%nat → (i < length ys)%nat →
    for_down n (Z.of_nat i) body w
    = Ret tt (upd_block w b (cells (shift_right n i ys) k)).
Proof.
  intros Hbody. induction n as [|n IH]; intros i w ys Hb Hn Hi.
  - simpl. by rewrite upd_block_id.
  - destruct (lookup_lt_is_Some_2 ys (i - 1)) as [x Hx]; [lia|].
    simpl. rewrite Hx. unfold bind at 1. rewrite Hbody.
    erewrite bind_Ret; [|eapply read_cells; [exact Hb|exact Hx|lia]].
    rewrite (assign_cells _ _ _ _ _ i x Hb Hi eq_refl).
    replace (Z.of_nat i - 1) with (Z.of_nat (i - 1)) by lia.
    rewrite (IH (i - 1)%nat _ (<[i := x]> ys)).
    + by rewrite upd_block_twice.
    + apply heap_upd_block_eq.
    + lia.
    + rewrite length_insert. lia.
Qed.

(** The left shift of [erase]. *)
Lemma shift_left_loop b k (body : Z → M T unit) :
  (∀ j w, body j w
          = bind (read (Ptr b (j + 1))) (λ x, assign (Ptr b j) x) w) →
  ∀ n (i : nat) w ys,
    heap w !! b = Some (cells ys k) →
    (i + n < length ys)%nat →
    for_up n (Z.of_nat i) body w
    = Ret tt (upd_block w b (cells (shift_left n i ys) k)).
Proof.
  intros Hbody. induction n as [|n IH]; intros i w ys Hb Hi.
  - simpl. by rewrite upd_block_id.
  - destruct (lookup_lt_is_Some_2 ys (i + 1)) as [x Hx]; [lia|].
    simpl. rewrite Hx. unfold bind at 1. rewrite Hbody.
    erewrite bind_Ret; [|eapply read_cells; [exact Hb|exact Hx|lia]].
    rewrite (assign_cells _ _ _ _ _ i x Hb); [|lia|reflexivity].
    replace (Z.of_nat i + 1) with (Z.of_nat (i + 1)) by lia.
    rewrite (IH (i + 1)%nat _ (<[i := x]> ys)).
    + by rewrite upd_block_twice.
    + apply heap_upd_block_eq.
    + rewrite length_insert. lia.
Qed.

(** ** The shifts on element sequences *)

Lemma length_shift_right n : ∀ i ys, length (shift_right n i ys) = length ys.
Proof.
  induction n as [|n IH]; intros i ys; simpl; [done|].
  destruct (ys !! (i - 1)%nat); [|done]. by rewrite IH, length_insert.
Qed.

Lemma length_shift_left n : ∀ i ys, length (shift_left n i ys) = length ys.
Proof.
  induction n as [|n IH]; intros i ys; simpl; [done|].
  destruct (ys !! (i + 1)%nat); [|done]. by rewrite IH, length_insert.
Qed.

Lemma shift_right_lookup n : ∀ i ys j,
  (n <= i)%nat → (i < length ys)%nat →
  shift_right n i ys !! j
  = if decide (i - n < j <= i)%nat then ys !! (j - 1)%nat else ys !! j.
Proof.
  induction n as [|n IH]; intros i ys j Hn Hi; simpl.
  - rewrite decide_False by lia. done.
  - destruct (lookup_lt_is_Some_2 ys (i - 1)) as [x Hx]; [lia|]. rewrite Hx.
    rewrite IH by (rewrite ?length_insert; lia).
    destruct (decide (j = i)) as [->|Hji].
    + rewrite decide_False by lia. rewrite decide_True by lia.
      by rewrite list_lookup_insert_eq.
    + repeat case_decide; try lia; by rewrite list_lookup_insert_ne by lia.
Qed.

Lemma shift_left_lookup n : ∀ i ys j,
  (i + n < length ys)%nat →
  shift_left n i ys !! j
  = if decide (i <= j < i + n)%nat then ys !! (j + 1)%nat else ys !! j.
Proof.
  induction n as [|n IH]; intros i ys j Hi; simpl.
  - rewrite decide_False by lia. done.
  - destruct (lookup_lt_is_Some_2 ys (i + 1)) as [x Hx]; [lia|]. rewrite Hx.
    rewrite IH by (rewrite ?length_insert; lia).
    destruct (decide (j = i)) as [->|Hji].
    + rewrite decide_False by lia. rewrite decide_True by lia.
      rewrite list_lookup_insert_eq by lia. done.
    + repeat case_decide; try lia; by rewrite list_lookup_insert_ne by lia.
Qed.

Lemma insert_shift xs (ind : nat) v y :
  (ind <= length xs)%nat →
  <[ind := y]> (shift_right (length xs - ind) (length xs) (xs ++ [v]))
  = take ind xs ++ y :: drop ind xs.
Proof.
  intros Hind. apply list_eq. intros j.
  destruct (decide (j = ind)) as [->|Hj].
  - rewrite list_lookup_insert_eq
      by (rewrite length_shift_right, length_app; simpl; lia).
    rewrite lookup_app_r by (rewrite length_take; lia).
    rewrite length_take. by replace (ind - ind `min` length xs)%nat with O by lia.
  - rewrite list_lookup_insert_ne by done.
    rewrite shift_right_lookup by (rewrite ?length_app; simpl; lia).
    case_decide as Hr.
    + rewrite lookup_app_l by lia.
      rewrite lookup_app_r by (rewrite length_take; lia).
      rewrite length_take.
      replace (j - ind `min` length xs)%nat with (S (j - ind - 1)) by lia.
      simpl. rewrite lookup_drop. f_equal. lia.
    + destruct (decide (j < ind)%nat) as [Hlt|Hge].
      * rewrite !lookup_app_l by (rewrite ?length_take; lia).
        by rewrite lookup_take_lt by lia.
      * rewrite !lookup_ge_None_2; [done| |].
        -- rewrite length_app, length_take. simpl. rewrite length_drop. lia.
        -- rewrite length_app. simpl. lia.
Qed.

Lemma erase_shift xs (ind : nat) :
  (ind < length xs)%nat →
  ∃ z, shift_left (length xs - 1 - ind) ind xs
       = (take ind xs ++ drop (S ind) xs) ++ [z].
Proof.
  intros Hind.
  set (ys := shift_left (length xs - 1 - ind) ind xs).
  assert (Hlen : length ys = length xs) by apply length_shift_left.
  destruct (lookup_lt_is_Some_2 ys (length xs - 1)) as [z Hz]; [lia|].
  exists z.
  rewrite <- (take_drop (length xs - 1) ys) at 1.
  f_equal.
  - apply list_eq. intros j.
    destruct (decide (j < length xs - 1)%nat) as [Hlt|Hge].
    + rewrite lookup_take_lt by lia. unfold ys.
      rewrite shift_left_lookup by lia. case_decide.
      * rewrite lookup_app_r by (rewrite length_take; lia).
        rewrite length_take, lookup_drop. f_equal. lia.
      * rewrite lookup_app_l by (rewrite length_take; lia).
        by rewrite lookup_take_lt by lia.
    + rewrite lookup_take_ge by lia. symmetry. apply lookup_ge_None_2.
      rewrite length_app, length_take, length_drop. lia.
  - apply list_eq. intros j. rewrite lookup_drop. destruct j as [|j]; simpl.
    + rewrite <- Hz. f_equal. lia.
    + apply lookup_ge_None_2. lia.
Qed.

Lemma list_snoc_case {A} (zs : list A) : zs = [] ∨ ∃ zs' z, zs = zs' ++ [z].
Proof. induction zs using rev_ind; eauto. Qed.

Lemma inserted_length xs (i : nat) v :
  (i <= length xs)%nat →
  length (take i xs ++ v :: drop i xs) = S (length xs).
Proof.
  intros Hi. rewrite length_app, length_take. simpl. rewrite length_drop. lia.
Qed.

Lemma inserted_lookup xs (i : nat) v :
  (i <= length xs)%nat →
  (take i xs ++ v :: drop i xs) !! i = Some v
  ∧ (∀ j, (j < i)%nat → (take i xs ++ v :: drop i xs) !! j = xs !! j)
  ∧ (∀ j, (i <= j)%nat → (take i xs ++ v :: drop i xs) !! S j = xs !! j).
Proof.
  intros Hi. assert (length (take i xs) = i) as Hlen
    by (rewrite length_take; lia).
  split; [|split].
  - rewrite lookup_app_r by lia. by rewrite Hlen, Nat.sub_diag.
  - intros j Hj. rewrite lookup_app_l by lia. by rewrite lookup_take_lt.
  - intros j Hj. rewrite lookup_app_r by lia. rewrite Hlen.
    replace (S j - i)%nat with (S (j - i)) by lia. simpl.
    rewrite lookup_drop. f_equal. lia.
Qed.

Lemma erased_length xs (i : nat) :
  (i < length xs)%nat →
  length (take i xs ++ drop (S i) xs) = (length xs - 1)%nat.
Proof.
  intros Hi. rewrite length_app, length_take, length_drop. lia.
Qed.

Lemma erased_lookup xs (i : nat) :
  (i < length xs)%nat →
  (∀ j, (j < i)%nat → (take i xs ++ drop (S i) xs) !! j = xs !! j)
  ∧ (∀ j, (i <= j)%nat → (take i xs ++ drop (S i) xs) !! j = xs !! S j).
Proof.
  intros Hi. assert (length (take i xs) = i) as Hlen
    by (rewrite length_take; lia).
  split.
  - intros j Hj. rewrite lookup_app_l by lia. by rewrite lookup_take_lt.
  - intros j Hj. rewrite lookup_app_r by lia. rewrite Hlen, lookup_drop.
    f_equal. lia.
Qed.

Lemma insert_then_erase xs (i : nat) v :
  (i <= length xs)%nat →
  take i (take i xs ++ v :: drop i xs)
    ++ drop (S i) (take i xs ++ v :: drop i xs) = xs.
Proof.
  intros Hi. assert (length (take i xs) = i) as Hlen
    by (rewrite length_take; lia).
  rewrite take_app_length' by done.
  rewrite drop_app_ge by lia. rewrite Hlen.
  replace (S i - i)%nat with 1%nat by lia. simpl. rewrite drop_0.
  apply take_drop.
Qed.

(** ** Frames *)

Lemma frame_refl w this : frame w w this.
Proof.
  split; [done|]. split; [done|]. intros u b o Hu Hd. left. eauto.
Qed.

Lemma frame_in_place w this u b o l v' :
  objs w !! this = Some u → data_ u = Ptr b o → data_ v' = Ptr b o →
  frame w (World (<[b := l]> (heap w)) (<[this := v']> (objs w))) this.
Proof.
  intros Hobj Hd Hd'. split; [|split]; simpl.
  - intros o' Hne. by rewrite lookup_insert_ne.
  - intros b' l' Hl Hnot. rewrite lookup_insert_ne; [done|].
    intros ->. by eapply Hnot.
  - intros u' b' o' Hu' Hdu'. left. rewrite lookup_insert_eq in Hu'.
    injection Hu' as <-. rewrite Hd' in Hdu'. injection Hdu' as <- <-. eauto.
Qed.

Lemma frame_block_only w this u b o l :
  objs w !! this = Some u → data_ u = Ptr b o →
  frame w (upd_block w b l) this.
Proof.
  intros Hobj Hd. split; [|split]; simpl.
  - done.
  - intros b' l' Hl Hnot. rewrite lookup_insert_ne; [done|].
    intros ->. by eapply Hnot.
  - intros u' b' o' Hu' Hdu'. left. rewrite Hobj in Hu'.
    injection Hu' as <-. rewrite Hd in Hdu'. injection Hdu' as <- <-. eauto.
Qed.

Lemma frame_realloc w this u bn h' v' :
  objs w !! this = Some u → heap w !! bn = None → data_ v' = Ptr bn 0 →
  (∀ b l, heap w !! b = Some l → (∀ o, data_ u ≠ Ptr b o) → h' !! b = Some l) →
  frame w (World h' (<[this := v']> (objs w))) this.
Proof.
  intros Hobj Hbn Hd' Hfr. split; [|split]; simpl.
  - intros o' Hne. by rewrite lookup_insert_ne.
  - intros b l Hl Hnot. apply (Hfr b l Hl). intros o. by eapply Hnot.
  - intros u' b o Hu' Hdu'. right. rewrite lookup_insert_eq in Hu'.
    injection Hu' as <-. rewrite Hd' in Hdu'. by injection Hdu' as <- <-.
Qed.

Lemma frame_trans w w1 w2 this :
  frame w w1 this → frame w1 w2 this → frame w w2 this.
Proof.
  intros (Ho1 & Hh1 & Hn1) (Ho2 & Hh2 & Hn2). split; [|split].
  - intros o Hne. by rewrite Ho2, Ho1.
  - intros b l Hl Hnot. apply Hh2; [by apply Hh1|].
    intros u1 o Hu1 Hd1.
    destruct (Hn1 u1 b o Hu1 Hd1) as [(u & o' & Hu & Hd)|Hnone].
    + by eapply Hnot.
    + congruence.
  - intros u2 b o Hu2 Hd2.
    destruct (heap w !! b) as [l|] eqn:Hl; [|by right].
    destruct (objs w !! this) as [u|] eqn:Hu.
    + destruct (data_ u) as [|b0 o0] eqn:Hdu.
      * exfalso. assert (heap w1 !! b = Some l) as Hl1.
        { apply Hh1; [done|]. intros u' o' [= <-]. congruence. }
        destruct (Hn2 u2 b o Hu2 Hd2) as [(u1 & o1 & Hu1 & Hd1)|Hnone]; [|congruence].
        destruct (Hn1 u1 b o1 Hu1 Hd1) as [(u' & o' & Hu' & Hd')|Hnone]; congruence.
      * destruct (decide (b0 = b)) as [->|Hne]; [left; eauto|].
        exfalso. assert (heap w1 !! b = Some l) as Hl1.
        { apply Hh1; [done|]. intros u' o' [= <-]. congruence. }
        destruct (Hn2 u2 b o Hu2 Hd2) as [(u1 & o1 & Hu1 & Hd1)|Hnone]; [|congruence].
        destruct (Hn1 u1 b o1 Hu1 Hd1) as [(u' & o' & Hu' & Hd')|Hnone]; congruence.
    + exfalso. assert (heap w1 !! b = Some l) as Hl1.
      { apply Hh1; [done|]. intros u' o' [=]. }
      destruct (Hn2 u2 b o Hu2 Hd2) as [(u1 & o1 & Hu1 & Hd1)|Hnone]; [|congruence].
      destruct (Hn1 u1 b o1 Hu1 Hd1) as [(u' & o' & Hu' & Hd')|Hnone]; congruence.
Qed.

Lemma buffer_frame h h' d xs cap :
  buffer h d xs cap →
  (∀ b o l, d = Ptr b o → h !! b = Some l → h' !! b = Some l) →
  buffer h' d xs cap.
Proof.
  destruct d as [|b o]; simpl; [done|]. intros [-> Hb] Hfr. split; [done|].
  by eapply Hfr.
Qed.

Lemma free_buf_lookup_ne d h b :
  (∀ o, d ≠ Ptr b o) → free_buf d h !! b = h !! b.
Proof.
  intros Hne. destruct d as [|b' o]; simpl; [done|].
  apply lookup_delete_ne. intros ->. by eapply Hne.
Qed.

Lemma buffer_not_fresh h d xs cap bn : buffer h d xs cap → h !! bn = None → ∀ o, d ≠ Ptr bn o.
Proof.
  intros Hbuf Hbn o ->. simpl in Hbuf. destruct Hbuf as [_ Hb]. congruence.
Qed.

Lemma repr_at_frame w w' this other d xs cap :
  repr_at w other d xs cap → frame w w' this → other ≠ this →
  (∀ u b o o', objs w !! this = Some u → data_ u = Ptr b o → d ≠ Ptr b o') →
  repr_at w' other d xs cap.
Proof.
  intros (Hobj & Hcap & Hbuf) (Ho & Hh & _) Hne Hsep. split; [|split; [done|]].
  - by rewrite Ho.
  - eapply buffer_frame; [exact Hbuf|]. intros b o l -> Hl.
    apply Hh; [done|]. intros u o' Hu Hd. by eapply Hsep.
Qed.

Lemma repr_at_inj w this d d' xs ys cap cap' :
  repr_at w this d xs cap → repr_at w this d' ys cap' →
  d = d' ∧ xs = ys ∧ cap = cap'.
Proof.
  intros (Hobj & Hcap & Hbuf) (Hobj' & Hcap' & Hbuf').
  rewrite Hobj in Hobj'. injection Hobj' as <- Hlen <-.
  split; [done|]. split; [|done].
  destruct d as [|b o]; simpl in *.
  - destruct Hbuf as [-> _], Hbuf' as [-> _]. done.
  - destruct Hbuf as [_ Hb], Hbuf' as [_ Hb']. rewrite Hb in Hb'.
    injection Hb' as Hc. by apply cells_inj in Hc as [? _].
Qed.

(** ** Reference arguments *)

Lemma deref_outside w w' this u r v :
  outside w this r v → objs w !! this = Some u →
  (∀ b l, heap w !! b = Some l → (∀ o, data_ u ≠ Ptr b o) → heap w' !! b = Some l) →
  deref r w' = Ret v w'.
Proof.
  intros Hout Hobj Hfr. destruct r as [x|p]; simpl in *.
  - by subst.
  - destruct Hout as [Hslot Hne]. destruct p as [|bp op]; [done|].
    unfold read. simpl in *. case_decide; [|done].
    destruct (heap w !! bp) as [l|] eqn:Hl; [|done]. simpl in Hslot.
    rewrite (Hfr bp l Hl); [simpl; by rewrite Hslot|].
    intros o Hd. by eapply Hne.
Qed.

Lemma deref_outside_same w this r v :
  outside w this r v → deref r w = Ret v w.
Proof.
  intros Hout. destruct r as [x|p]; simpl in *.
  - by subst.
  - destruct Hout as [Hslot _]. unfold read. by rewrite Hslot.
Qed.

Lemma deref_frame w w' this d xs cap r v :
  outside w this r v → repr_at w this d xs cap → frame w w' this →
  deref r w' = Ret v w'.
Proof.
  intros Hout (Hobj & _ & _) (_ & Hh & _).
  eapply (deref_outside w); [done|done|].
  intros b l Hl Hne. apply Hh; [done|]. intros u o Hu. rewrite Hobj in Hu.
  injection Hu as <-. apply Hne.
Qed.

(** An argument that could be read before a step can still be read after
    it, when the step only rewrote one buffer, keeping at least as many
    objects in it; the value read is the same unless the argument is an
    element of that buffer. *)
Lemma deref_survives w w2 b xs k ys k2 r v :
  deref r w = Ret v w →
  heap w !! b = Some (cells xs k) →
  heap w2 = <[b := cells ys k2]> (heap w) →
  (length xs <= length ys)%nat →
  ∃ y, deref r w2 = Ret y w2
       ∧ (∀ this u o, objs w !! this = Some u → data_ u = Ptr b o →
                      outside w this r v → y = v).
Proof.
  intros Hread Hb Hh2 Hlen. destruct r as [x|p]; simpl in *.
  - injection Hread as <-. by exists x.
  - destruct p as [|bp op]; [done|]. unfold read in *. simpl in *.
    case_decide as Hop; [|done].
    destruct (heap w !! bp) as [l|] eqn:Hl; [|done]. simpl in Hread.
    destruct (l !! Z.to_nat op) as [[x|]|] eqn:Hx; try done.
    injection Hread as <-. rewrite Hh2.
    destruct (decide (bp = b)) as [->|Hne].
    + rewrite Hl in Hb. injection Hb as ->.
      assert (Z.to_nat op < length xs)%nat as Hlt.
      { destruct (decide (Z.to_nat op < length xs)%nat) as [|Hge]; [done|].
        destruct (decide (Z.to_nat op < length xs + k)%nat) as [Hraw|Hout].
        - rewrite cells_lookup_raw in Hx by lia. done.
        - rewrite lookup_ge_None_2 in Hx; [done|]. rewrite length_cells. lia. }
      destruct (lookup_lt_is_Some_2 ys (Z.to_nat op)) as [y Hy]; [lia|].
      exists y. rewrite lookup_insert_eq. simpl.
      rewrite (cells_lookup_live _ _ _ _ Hy). split; [done|].
      intros this u o Hu Hd [_ Hout]. by destruct (Hout u b o op Hu Hd).
    + exists x. rewrite lookup_insert_ne by done. rewrite Hl. simpl.
      by rewrite Hx.
Qed.

(** Allocating a buffer does not disturb the object an argument
    designates. *)
Lemma deref_fresh w w2 bn r v :
  deref r w = Ret v w → heap w !! bn = None →
  (∀ b, b ≠ bn → heap w2 !! b = heap w !! b) →
  deref r w2 = Ret v w2.
Proof.
  intros Hread Hbn Hh2. destruct r as [x|p]; simpl in *.
  - by injection Hread as <-.
  - destruct p as [|bp op]; [done|]. unfold read in *. simpl in *.
    case_decide as Hop; [|done].
    destruct (heap w !! bp) as [l|] eqn:Hl; [|done]. simpl in Hread.
    destruct (l !! Z.to_nat op) as [[x|]|] eqn:Hx; try done.
    injection Hread as <-. rewrite Hh2 by congruence. rewrite Hl. simpl.
    by rewrite Hx.
Qed.

(** ** Whole buffers *)

Lemma copy_from_buffer w d xs cap bd δ (body : Z → M T unit) n (i : nat) ys kd :
  buffer (heap w) d xs cap →
  (∀ j w, body j w
          = bind (read (ptr_add d j)) (λ x, construct (Ptr bd (j + δ)) x) w) →
  (∀ o, d ≠ Ptr bd o) →
  heap w !! bd = Some (cells ys kd) →
  (i + n <= length xs)%nat → (n <= kd)%nat →
  Z.of_nat i + δ = Z.of_nat (length ys) →
  for_up n (Z.of_nat i) body w
  = Ret tt (upd_block w bd (cells (ys ++ take n (drop i xs)) (kd - n))).
Proof.
  intros Hbuf Hbody Hne Hd Hi Hk Hoff. destruct d as [|b o]; simpl in Hbuf.
  - destruct Hbuf as [-> _]. simpl in Hi. assert (n = O) as -> by lia.
    simpl. rewrite app_nil_r, Nat.sub_0_r. by rewrite upd_block_id.
  - destruct Hbuf as [-> Hb].
    eapply (copy_loop b bd); try done.
    intros ->. by eapply Hne.
Qed.

Lemma release_buffer w d xs cap :
  buffer (heap w) d xs cap →
  ∃ w1, for_range 0 (Z.of_nat (length xs)) (λ i, destroy (ptr_add d i)) w
        = Ret tt w1
        ∧ operator_delete d w1
          = Ret tt (World (free_buf d (heap w)) (objs w)).
Proof.
  intros Hbuf. destruct d as [|b o]; simpl in Hbuf.
  - destruct Hbuf as [-> _]. exists w. simpl. split; [done|].
    by rewrite world_eta.
  - destruct Hbuf as [-> Hb]. eexists. split.
    + eapply (destroy_all _ b); [intros; reflexivity|exact Hb].
    + unfold operator_delete. rewrite decide_True by done.
      rewrite heap_upd_block_eq. simpl. by rewrite delete_insert_eq.
Qed.

(** ** Member functions, one by one *)

Lemma reallocate_ok w this d xs cap c' :
  repr_at w this d xs cap → Z.of_nat (length xs) <= c' <= SIZE_MAX →
  ∃ w' bn, heap w !! bn = None
    ∧ vector.reallocate this c' w = Ret tt w'
    ∧ repr_at w' this (Ptr bn 0) xs c'
    ∧ frame w w' this.
Proof.
  intros (Hobj & Hcap & Hbuf) Hc'.
  destruct (operator_new_Ret w c') as (bn & Hbn & Hnew).
  pose proof (buffer_not_fresh _ _ _ _ _ Hbuf Hbn) as Hdbn.
  unfold vector.reallocate.
  rewrite (bind_Ret _ _ _ _ _ Hnew).
  erewrite bind_Ret; [|eapply get_obj_Ret; exact Hobj]. simpl.
  unfold for_range at 1. change 0 with (Z.of_nat 0) at 1.
  erewrite bind_Ret.
  2:{ eapply (copy_from_buffer _ d xs cap bn 0 _ _ 0 [] (Z.to_nat c')).
      - eapply buffer_frame; [exact Hbuf|]. simpl. intros b o l -> Hl.
        rewrite lookup_insert_ne; [done|]. intros ->. congruence.
      - intros j w0. simpl. by rewrite Z.add_0_r.
      - done.
      - simpl. apply lookup_insert_eq.
      - lia.
      - lia.
      - simpl. lia. }
  rewrite Z.sub_0_r, Nat2Z.id, drop_0, firstn_all. simpl.
  match goal with
  | |- context [bind (for_range _ _ _) _ ?w0] =>
      destruct (release_buffer w0 d xs cap) as (w1 & Hloop & Hdel)
  end.
  { eapply buffer_frame; [exact Hbuf|]. intros b o l -> Hl.
    unfold upd_block. simpl.
    repeat (rewrite lookup_insert_ne; [|intros ->; congruence]). done. }
  erewrite bind_Ret; [|exact Hloop].
  erewrite bind_Ret; [|exact Hdel]. simpl.
  erewrite bind_Ret; [|eapply set_data_Ret; exact Hobj]. simpl.
  erewrite set_capacity_Ret; [|apply lookup_insert_eq]. simpl.
  rewrite !insert_insert_eq.
  eexists. exists bn. split; [done|]. split; [done|]. split.
  - split; [|split]; simpl.
    + by rewrite lookup_insert_eq.
    + lia.
    + split; [done|]. rewrite free_buf_lookup_ne by done.
      by rewrite lookup_insert_eq.
  - eapply frame_realloc; [done|done|done|].
    intros b l Hl Hnot. rewrite free_buf_lookup_ne by done.
    rewrite lookup_insert_ne; [done|]. intros ->. congruence.
Qed.

Lemma vector_default_ok w this :
  ∃ w', vector.vector_default this w = Ret tt w'
    ∧ repr_at w' this Null [] 0 ∧ frame w w' this.
Proof.
  eexists. split; [done|]. split.
  - split; [|split]; simpl; [by rewrite lookup_insert_eq|unfold SIZE_MAX; lia|done].
  - split; [|split]; simpl.
    + intros o Hne. by rewrite lookup_insert_ne.
    + done.
    + intros u' b o Hu'. rewrite lookup_insert_eq in Hu'. by injection Hu' as <-.
Qed.

Lemma copy_from_ok w this other d xs cap :
  repr_at w other d xs cap → objs w !! this = Some (Vec Null 0 0) →
  other ≠ this →
  ∃ w' d', vector.copy_from this other w = Ret tt w'
    ∧ repr_at w' this d' xs (Z.of_nat (length xs))
    ∧ repr_at w' other d xs cap
    ∧ frame w w' this.
Proof.
  intros Hrep Hthis Hne. pose proof Hrep as (Hobj & Hcap & Hbuf).
  unfold vector.copy_from.
  rewrite (bind_Ret _ _ _ _ _ (get_obj_Ret _ _ _ Hobj)). simpl.
  destruct (Z.ltb_spec 0 (Z.of_nat (length xs))) as [Hpos|Hzero].
  - destruct (operator_new_Ret w (Z.of_nat (length xs))) as (bn & Hbn & Hnew).
    pose proof (buffer_not_fresh _ _ _ _ _ Hbuf Hbn) as Hdbn.
    rewrite (bind_Ret _ _ _ _ _ Hnew).
    erewrite bind_Ret; [|eapply set_data_Ret; exact Hthis]. simpl.
    erewrite bind_Ret; [|eapply set_capacity_Ret; apply lookup_insert_eq]. simpl.
    rewrite insert_insert_eq.
    unfold for_range at 1. change 0 with (Z.of_nat 0) at 1.
    erewrite bind_Ret.
    2:{ eapply (copy_from_buffer _ d xs cap bn 0 _ _ 0 []
                  (Z.to_nat (Z.of_nat (length xs)))).
        - eapply buffer_frame; [exact Hbuf|]. simpl. intros b o l -> Hl.
          rewrite lookup_insert_ne; [done|]. intros ->. congruence.
        - intros j w0. simpl. by rewrite Z.add_0_r.
        - done.
        - simpl. apply lookup_insert_eq.
        - lia.
        - lia.
        - simpl. lia. }
    rewrite Z.sub_0_r, !Nat2Z.id, drop_0, firstn_all, Nat.sub_diag. simpl.
    erewrite set_size_Ret; [|apply lookup_insert_eq]. simpl.
    rewrite !insert_insert_eq.
    match goal with
    | |- ∃ w' d', Ret tt ?W = _ ∧ _ =>
        assert (frame w W this) as Hfr; [|exists W, (Ptr bn 0)]
    end.
    { eapply frame_realloc; [done|done|done|].
      intros b l Hl Hnot.
      repeat (rewrite lookup_insert_ne; [|intros ->; congruence]). done. }
    split; [done|]. split; [|split; [|done]].
    + split; [|split]; simpl.
      * by rewrite lookup_insert_eq.
      * unfold SIZE_MAX in *. lia.
      * split; [done|]. rewrite lookup_insert_eq. do 2 f_equal. lia.
    + eapply repr_at_frame; [exact Hrep|exact Hfr|done|].
      intros u b o o' Hu Hd. rewrite Hthis in Hu. by injection Hu as <-.
  - assert (xs = []) as -> by (destruct xs; [done|simpl in *; lia]).
    exists w, Null. split; [done|]. split; [|split; [done|apply frame_refl]].
    split; [|split]; simpl; [done|unfold SIZE_MAX; lia|done].
Qed.

Lemma index_ok (f : loc → Z → M T ptr) w this d xs cap pos :
  (∀ this pos, f this pos
     = (v <- get_obj this ;;
        if size_ v <=? pos then throw index_out_of_bound
        else ret (ptr_add (data_ v) pos))) →
  repr_at w this d xs cap →
  f this pos w
  = if Z.of_nat (length xs) <=? pos then Throw index_out_of_bound w
    else Ret (ptr_add d pos) w.
Proof.
  intros Hf (Hobj & _ & _). rewrite Hf.
  rewrite (bind_Ret _ _ _ _ _ (get_obj_Ret _ _ _ Hobj)). simpl.
  by destruct (Z.of_nat (length xs) <=? pos).
Qed.

Lemma read_elem w this d xs cap (i : nat) x :
  repr_at w this d xs cap → xs !! i = Some x →
  read (ptr_add d (Z.of_nat i)) w = Ret x w.
Proof.
  intros (Hobj & Hcap & Hbuf) Hx. destruct d as [|b o]; simpl in Hbuf.
  - destruct Hbuf as [-> _]. done.
  - destruct Hbuf as [-> Hb]. simpl. by eapply read_cells.
Qed.

Lemma write_elem w this d xs cap (i : nat) y :
  repr_at w this d xs cap → (i < length xs)%nat →
  ∃ w', assign (ptr_add d (Z.of_nat i)) y w = Ret tt w'
    ∧ repr_at w' this d (<[i := y]> xs) cap ∧ frame w w' this.
Proof.
  intros (Hobj & Hcap & Hbuf) Hi. destruct d as [|b o]; simpl in Hbuf.
  { destruct Hbuf as [-> _]. simpl in Hi. lia. }
  destruct Hbuf as [-> Hb]. simpl.
  erewrite assign_cells; [|exact Hb|exact Hi|done].
  eexists. split; [done|]. split.
  - split; [|split]; simpl.
    + by rewrite length_insert.
    + by rewrite length_insert.
    + split; [done|]. rewrite lookup_insert_eq. by rewrite length_insert.
  - by eapply frame_block_only.
Qed.

Lemma front_ok w this d xs cap :
  repr_at w this d xs cap →
  vector.front this w
  = if Z.of_nat (length xs) =? 0 then Throw container_is_empty w
    else Ret (ptr_add d 0) w.
Proof.
  intros (Hobj & _ & _). unfold vector.front.
  rewrite (bind_Ret _ _ _ _ _ (get_obj_Ret _ _ _ Hobj)). simpl.
  by destruct (Z.of_nat (length xs) =? 0).
Qed.

Lemma back_ok w this d xs cap :
  repr_at w this d xs cap →
  vector.back this w
  = if Z.of_nat (length xs) =? 0 then Throw container_is_empty w
    else Ret (ptr_add d (Z.of_nat (length xs) - 1)) w.
Proof.
  intros (Hobj & Hcap & _). unfold vector.back.
  rewrite (bind_Ret _ _ _ _ _ (get_obj_Ret _ _ _ Hobj)). simpl.
  destruct (Z.eqb_spec (Z.of_nat (length xs)) 0); [done|].
  rewrite to_size_t_small by (unfold is_size_t, SIZE_MAX in *; lia). done.
Qed.

Lemma size_ok w this d xs cap :
  repr_at w this d xs cap →
  vector.size this w = Ret (Z.of_nat (length xs)) w.
Proof.
  intros (Hobj & _ & _). unfold vector.size.
  by rewrite (bind_Ret _ _ _ _ _ (get_obj_Ret _ _ _ Hobj)).
Qed.

Lemma begin_ok w this d xs cap :
  repr_at w this d xs cap →
  vector.begin_ this w = Ret (Iter d (Some this)) w
  ∧ vector.cbegin this w = Ret (CIter d (Some this)) w.
Proof.
  intros (Hobj & _ & _). unfold vector.begin_, vector.cbegin.
  by rewrite !(bind_Ret _ _ _ _ _ (get_obj_Ret _ _ _ Hobj)).
Qed.

Lemma end_ok w this d xs cap :
  repr_at w this d xs cap →
  vector.end_ this w
  = Ret (Iter (ptr_add d (Z.of_nat (length xs))) (Some this)) w
  ∧ vector.cend this w
    = Ret (CIter (ptr_add d (Z.of_nat (length xs))) (Some this)) w.
Proof.
  intros (Hobj & _ & _). unfold vector.end_, vector.cend.
  by rewrite !(bind_Ret _ _ _ _ _ (get_obj_Ret _ _ _ Hobj)).
Qed.

Lemma clear_ok w this d xs cap :
  repr_at w this d xs cap →
  ∃ w', vector.clear this w = Ret tt w'
    ∧ repr_at w' this d [] cap ∧ frame w w' this.
Proof.
  intros (Hobj & Hcap & Hbuf).
  unfold vector.clear.
  rewrite (bind_Ret _ _ _ _ _ (get_obj_Ret _ _ _ Hobj)). simpl.
  destruct d as [|b o]; simpl in Hbuf.
  - destruct Hbuf as [-> ->]. simpl.
    rewrite (bind_Ret _ _ _ tt w) by done.
    erewrite set_size_Ret; [|exact Hobj]. simpl.
    eexists. split; [done|]. split.
    + split; [|split]; simpl; [by rewrite lookup_insert_eq|lia|done].
    + rewrite insert_id by done. rewrite world_eta. apply frame_refl.
  - destruct Hbuf as [-> Hb].
    erewrite bind_Ret;
      [|eapply (destroy_all _ b); [intros; reflexivity|exact Hb]].
    erewrite set_size_Ret; [|exact Hobj]. simpl.
    eexists. split; [done|]. split.
    + split; [|split]; simpl; [by rewrite lookup_insert_eq|lia|].
      split; [done|]. rewrite lookup_insert_eq. do 2 f_equal. lia.
    + by eapply frame_in_place.
Qed.

Lemma insert_throw w this d xs cap ind r :
  repr_at w this d xs cap → Z.of_nat (length xs) < ind →
  vector.insert this (ITemp ind) r w = Throw index_out_of_bound w.
Proof.
  intros (Hobj & _ & _) Hlt. unfold vector.insert.
  rewrite (bind_Ret _ _ _ _ _ (get_obj_Ret _ _ _ Hobj)), bind_read_temp. simpl.
  by destruct (Z.ltb_spec (Z.of_nat (length xs)) ind); [|lia].
Qed.

Lemma insert_in_place w this d xs cap (i : nat) r v :
  repr_at w this d xs cap → deref r w = Ret v w →
  (i <= length xs)%nat → Z.of_nat (length xs) < cap →
  ∃ w' y, vector.insert this (ITemp (Z.of_nat i)) r w
          = Ret (Iter (ptr_add d (Z.of_nat i)) (Some this)) w'
          ∧ repr_at w' this d (take i xs ++ y :: drop i xs) cap
          ∧ frame w w' this
          ∧ (outside w this r v → y = v).
Proof.
  intros (Hobj & Hcap & Hbuf) Hread Hi Hlt.
  destruct d as [|b o]; simpl in Hbuf.
  { destruct Hbuf as [_ ->]. lia. }
  destruct Hbuf as [-> Hb].
  unfold vector.insert.
  rewrite (bind_Ret _ _ _ _ _ (get_obj_Ret _ _ _ Hobj)), bind_read_temp. simpl.
  destruct (Z.ltb_spec (Z.of_nat (length xs)) (Z.of_nat i)) as [?|_]; [lia|].
  destruct (Z.leb_spec cap (Z.of_nat (length xs))) as [?|_]; [lia|].
  destruct (Z.to_nat cap - length xs)%nat as [|k] eqn:Hk; [lia|].
  rewrite !bind_assoc.
  erewrite bind_Ret; [|exact Hread].
  rewrite !bind_assoc.
  erewrite bind_Ret; [|eapply construct_cells; [exact Hb|lia]].
  rewrite Nat2Z.id.
  rewrite !bind_assoc.
  erewrite bind_Ret;
    [|rewrite for_down_to_ret by lia;
      replace (Z.to_nat (Z.of_nat (length xs) - Z.of_nat i))
        with (length xs - i)%nat by lia;
      eapply (shift_right_loop b);
      [intros; reflexivity|apply heap_upd_block_eq|lia
      |rewrite length_app; simpl; lia]].
  rewrite upd_block_twice.
  rewrite !bind_assoc, bind_ret, !bind_assoc.
  match goal with
  | |- context [bind (deref r) _ ?w0] =>
      destruct (deref_survives w w0 b xs (S k)
                  (shift_right (length xs - i) (length xs) (xs ++ [v])) k r v
                  Hread Hb eq_refl) as (y & Hread2 & Hy)
  end.
  { rewrite length_shift_right, length_app. lia. }
  erewrite bind_Ret; [|exact Hread2].
  rewrite !bind_assoc.
  erewrite bind_Ret;
    [|eapply (assign_cells _ _ _ _ _ i);
      [apply heap_upd_block_eq
      |rewrite length_shift_right, length_app; simpl; lia|lia]].
  rewrite upd_block_twice, insert_shift by done.
  erewrite bind_Ret; [|eapply set_size_Ret; exact Hobj].
  erewrite bind_Ret; [|eapply get_obj_Ret; apply lookup_insert_eq].
  rewrite bind_ret. simpl. eexists. exists y. split; [done|].
  assert (Hlen : length (take i xs ++ y :: drop i xs) = S (length xs)).
  { rewrite length_app, length_take. simpl. rewrite length_drop. lia. }
  rewrite to_size_t_small by (unfold is_size_t; lia).
  split; [|split].
  - split; [|split].
    + simpl. rewrite lookup_insert_eq. simpl. do 3 f_equal. lia.
    + lia.
    + simpl. split; [done|]. rewrite lookup_insert_eq. do 2 f_equal. lia.
  - by eapply frame_in_place.
  - intros Hout. by eapply (Hy this).
Qed.

Lemma insert_grow w this d xs cap (i : nat) r v :
  repr_at w this d xs cap → deref r w = Ret v w →
  (i <= length xs)%nat → cap <= Z.of_nat (length xs) → 2 * cap <= SIZE_MAX →
  ∃ w' bn, heap w !! bn = None
    ∧ vector.insert this (ITemp (Z.of_nat i)) r w
      = Ret (Iter (ptr_add (Ptr bn 0) (Z.of_nat i)) (Some this)) w'
    ∧ repr_at w' this (Ptr bn 0) (take i xs ++ v :: drop i xs) (grown cap)
    ∧ frame w w' this.
Proof.
  intros (Hobj & Hcap & Hbuf) Hread Hi Hfull Hdbl.
  pose proof (grown_spec cap ltac:(lia) Hdbl) as Hg.
  destruct (operator_new_Ret w (grown cap)) as (bn & Hbn & Hnew).
  pose proof (buffer_not_fresh _ _ _ _ _ Hbuf Hbn) as Hdbn.
  unfold vector.insert.
  rewrite (bind_Ret _ _ _ _ _ (get_obj_Ret _ _ _ Hobj)), bind_read_temp. simpl.
  destruct (Z.ltb_spec (Z.of_nat (length xs)) (Z.of_nat i)) as [?|_]; [lia|].
  destruct (Z.leb_spec cap (Z.of_nat (length xs))) as [_|?]; [|lia].
  change (if cap =? 0 then 1 else to_size_t (cap * 2)) with (grown cap).
  rewrite !bind_assoc. rewrite (bind_Ret _ _ _ _ _ Hnew).
  rewrite !bind_assoc.
  unfold for_range at 1. change 0 with (Z.of_nat 0) at 1.
  erewrite bind_Ret.
  2:{ eapply (copy_from_buffer _ d xs cap bn 0 _ _ 0 [] (Z.to_nat (grown cap))).
      - eapply buffer_frame; [exact Hbuf|]. simpl. intros b o l -> Hl.
        rewrite lookup_insert_ne; [done|]. intros ->. congruence.
      - intros j w0. simpl. by rewrite Z.add_0_r.
      - done.
      - simpl. apply lookup_insert_eq.
      - lia.
      - lia.
      - simpl. lia. }
  rewrite Z.sub_0_r, Nat2Z.id, drop_0. simpl.
  rewrite !bind_assoc.
  erewrite bind_Ret.
  2:{ eapply (deref_fresh w _ bn); [exact Hread|exact Hbn|].
      intros b' Hne. simpl. rewrite insert_insert_eq.
      by rewrite lookup_insert_ne. }
  assert (Hlt : length (take i xs) = i) by (rewrite length_take; lia).
  destruct (Z.to_nat (grown cap) - i)%nat as [|k] eqn:Hk; [lia|].
  rewrite !bind_assoc.
  erewrite bind_Ret;
    [|eapply construct_cells; [apply heap_upd_block_eq|rewrite Hlt; lia]].
  rewrite upd_block_twice.
  unfold for_range at 1.
  replace (Z.to_nat (Z.of_nat (length xs) - Z.of_nat i))
    with (length xs - i)%nat by lia.
  rewrite !bind_assoc.
  erewrite bind_Ret.
  2:{ eapply (copy_from_buffer _ d xs cap bn 1 _ (length xs - i) i
                (take i xs ++ [v]) k).
      - eapply buffer_frame; [exact Hbuf|]. simpl. intros b o l -> Hl.
        rewrite insert_insert_eq.
        rewrite lookup_insert_ne; [done|]. intros ->. congruence.
      - intros j w0. simpl. done.
      - done.
      - apply heap_upd_block_eq.
      - lia.
      - lia.
      - rewrite length_app, Hlt. simpl. lia. }
  rewrite upd_block_twice.
  rewrite (take_ge (drop i xs)) by (rewrite length_drop; lia).
  rewrite <- app_assoc. simpl.
  rewrite !bind_assoc.
  match goal with
  | |- context [bind (for_range _ _ _) _ ?w0] =>
      destruct (release_buffer w0 d xs cap) as (w1 & Hloop & Hdel)
  end.
  { eapply buffer_frame; [exact Hbuf|]. intros b o l -> Hl.
    unfold upd_block. simpl.
    repeat (rewrite lookup_insert_ne; [|intros ->; congruence]). done. }
  erewrite bind_Ret; [|exact Hloop].
  rewrite !bind_assoc.
  erewrite bind_Ret; [|exact Hdel]. simpl.
  rewrite !bind_assoc.
  erewrite bind_Ret; [|eapply set_data_Ret; exact Hobj]. simpl.
  rewrite !bind_assoc.
  erewrite bind_Ret; [|eapply set_capacity_Ret; apply lookup_insert_eq]. simpl.
  erewrite bind_Ret; [|eapply set_size_Ret; apply lookup_insert_eq]. simpl.
  rewrite !insert_insert_eq.
  erewrite bind_Ret; [|eapply get_obj_Ret; apply lookup_insert_eq].
  rewrite bind_ret. simpl.
  assert (Hlen : length (take i xs ++ v :: drop i xs) = S (length xs)).
  { rewrite length_app, length_take. simpl. rewrite length_drop. lia. }
  rewrite to_size_t_small by (unfold is_size_t, SIZE_MAX in *; lia).
  eexists. exists bn. split; [done|]. split; [done|]. split.
  - split; [|split]; simpl.
    + rewrite lookup_insert_eq. do 3 f_equal. lia.
    + unfold SIZE_MAX in *. lia.
    + split; [done|]. rewrite free_buf_lookup_ne by done.
      rewrite lookup_insert_eq. do 2 f_equal. lia.
  - eapply frame_realloc; [done|done|done|].
    intros b l Hl Hnot. rewrite free_buf_lookup_ne by done.
    rewrite lookup_insert_ne; [done|]. intros ->. congruence.
Qed.

Lemma insert_ok w this d xs cap (i : nat) r v :
  repr_at w this d xs cap → deref r w = Ret v w →
  (i <= length xs)%nat →
  (cap <= Z.of_nat (length xs) → 2 * cap <= SIZE_MAX) →
  ∃ w' d' y, vector.insert this (ITemp (Z.of_nat i)) r w
             = Ret (Iter (ptr_add d' (Z.of_nat i)) (Some this)) w'
    ∧ repr_at w' this d' (take i xs ++ y :: drop i xs)
        (if cap <=? Z.of_nat (length xs) then grown cap else cap)
    ∧ frame w w' this
    ∧ (outside w this r v → y = v).
Proof.
  intros Hrep Hread Hi Hdbl.
  destruct (Z.leb_spec cap (Z.of_nat (length xs))) as [Hfull|Hroom].
  - destruct (insert_grow w this d xs cap i r v Hrep Hread Hi Hfull (Hdbl Hfull))
      as (w' & bn & _ & Hins & Hrep' & Hfr).
    by exists w', (Ptr bn 0), v.
  - destruct (insert_in_place w this d xs cap i r v Hrep Hread Hi Hroom)
      as (w' & y & Hins & Hrep' & Hfr & Hy).
    by exists w', d, y.
Qed.

Lemma erase_throw w this d xs cap ind :
  repr_at w this d xs cap → Z.of_nat (length xs) <= ind →
  vector.erase this (ITemp ind) w = Throw index_out_of_bound w.
Proof.
  intros (Hobj & _ & _) Hlt. unfold vector.erase.
  rewrite (bind_Ret _ _ _ _ _ (get_obj_Ret _ _ _ Hobj)), bind_read_temp. simpl.
  by destruct (Z.leb_spec (Z.of_nat (length xs)) ind); [|lia].
Qed.

Lemma erase_ok w this d xs cap (i : nat) :
  repr_at w this d xs cap → (i < length xs)%nat →
  ∃ w', vector.erase this (ITemp (Z.of_nat i)) w
        = Ret (Iter (ptr_add d (Z.of_nat i)) (Some this)) w'
        ∧ repr_at w' this d (take i xs ++ drop (S i) xs) cap
        ∧ frame w w' this.
Proof.
  intros (Hobj & Hcap & Hbuf) Hi.
  destruct d as [|b o]; simpl in Hbuf.
  { destruct Hbuf as [-> _]. simpl in Hi. lia. }
  destruct Hbuf as [-> Hb].
  unfold vector.erase.
  rewrite (bind_Ret _ _ _ _ _ (get_obj_Ret _ _ _ Hobj)), bind_read_temp. simpl.
  destruct (Z.leb_spec (Z.of_nat (length xs)) (Z.of_nat i)) as [?|_]; [lia|].
  rewrite to_size_t_small by (unfold is_size_t; lia).
  unfold for_range.
  replace (Z.to_nat (Z.of_nat (length xs) - 1 - Z.of_nat i))
    with (length xs - 1 - i)%nat by lia.
  erewrite bind_Ret;
    [|eapply (shift_left_loop b); [intros; reflexivity|exact Hb|lia]].
  destruct (erase_shift xs i Hi) as [z Hz]. rewrite Hz.
  assert (Hlen : length (take i xs ++ drop (S i) xs) = (length xs - 1)%nat).
  { rewrite length_app, length_take, length_drop. lia. }
  erewrite bind_Ret;
    [|eapply destroy_cells; [apply heap_upd_block_eq|rewrite Hlen; lia]].
  rewrite upd_block_twice.
  erewrite bind_Ret; [|eapply set_size_Ret; exact Hobj].
  erewrite bind_Ret; [|eapply get_obj_Ret; apply lookup_insert_eq].
  rewrite bind_ret. simpl. eexists. split; [done|]. split.
  - split; [|split].
    + simpl. rewrite lookup_insert_eq. simpl. do 3 f_equal. lia.
    + lia.
    + simpl. split; [done|]. rewrite lookup_insert_eq. do 2 f_equal. lia.
  - by eapply frame_in_place.
Qed.

Lemma push_back_ok w this d xs cap r v :
  repr_at w this d xs cap → outside w this r v →
  (cap <= Z.of_nat (length xs) → 2 * cap <= SIZE_MAX) →
  ∃ w' d', vector.push_back this r w = Ret tt w'
    ∧ repr_at w' this d' (xs ++ [v])
        (if cap <=? Z.of_nat (length xs) then grown cap else cap)
    ∧ frame w w' this.
Proof.
  intros Hrep Hout Hdbl.
  assert (∃ w1 d1 c1, (if cap <=? Z.of_nat (length xs)
                       then vector.reallocate this (grown cap) else ret tt) w
                      = Ret tt w1
            ∧ c1 = (if cap <=? Z.of_nat (length xs) then grown cap else cap)
            ∧ repr_at w1 this d1 xs c1 ∧ Z.of_nat (length xs) < c1
            ∧ frame w w1 this) as (w1 & d1 & c1 & Hstep & Hc1 & Hrep1 & Hlt & Hfr1).
  { destruct (Z.leb_spec cap (Z.of_nat (length xs))) as [Hfull|Hroom].
    - pose proof Hrep as (_ & Hcap & _).
      pose proof (grown_spec cap ltac:(lia) (Hdbl Hfull)) as Hg.
      destruct (reallocate_ok w this d xs cap (grown cap) Hrep)
        as (w1 & bn & _ & Hre & Hrep1 & Hfr1).
      { unfold SIZE_MAX in *. lia. }
      exists w1, (Ptr bn 0), (grown cap).
      split; [done|]. split; [done|]. split; [done|]. split; [lia|done].
    - exists w, d, cap.
      split; [done|]. split; [done|]. split; [done|]. split; [lia|].
      apply frame_refl. }
  rewrite <- Hc1. clear Hc1.
  pose proof (deref_frame _ _ _ _ _ _ _ _ Hout Hrep Hfr1) as Hderef.
  destruct Hrep as (Hobj & Hcap & Hbuf).
  unfold vector.push_back.
  rewrite (bind_Ret _ _ _ _ _ (get_obj_Ret _ _ _ Hobj)). simpl.
  change (if cap =? 0 then 1 else to_size_t (cap * 2)) with (grown cap).
  rewrite (bind_Ret _ _ _ _ _ Hstep).
  destruct Hrep1 as (Hobj1 & Hcap1 & Hbuf1).
  rewrite (bind_Ret _ _ _ _ _ (get_obj_Ret _ _ _ Hobj1)). simpl.
  rewrite (bind_Ret _ _ _ _ _ Hderef).
  destruct d1 as [|b o]; simpl in Hbuf1.
  { destruct Hbuf1 as [_ ->]. lia. }
  destruct Hbuf1 as [-> Hb].
  destruct (Z.to_nat c1 - length xs)%nat as [|k] eqn:Hk; [lia|].
  erewrite bind_Ret; [|eapply construct_cells; [exact Hb|lia]].
  erewrite set_size_Ret; [|exact Hobj1]. simpl.
  rewrite to_size_t_small by (unfold is_size_t, SIZE_MAX in *; lia).
  eexists. exists (Ptr b 0). split; [done|]. split.
  - split; [|split]; simpl.
    + rewrite lookup_insert_eq. rewrite length_app. simpl. do 3 f_equal. lia.
    + rewrite length_app. simpl. lia.
    + split; [done|]. rewrite lookup_insert_eq. rewrite length_app. simpl.
      do 2 f_equal. lia.
  - eapply frame_trans; [exact Hfr1|]. by eapply frame_in_place.
Qed.

Lemma push_all_ok vs : ∀ w this d xs cap,
  repr_at w this d xs cap →
  Z.of_nat (length xs + length vs) <= 2 ^ 63 →
  ∃ w' d' cap', push_all this vs w = Ret tt w'
    ∧ repr_at w' this d' (xs ++ vs) cap' ∧ frame w w' this.
Proof.
  induction vs as [|v vs IH]; intros w this d xs cap Hrep Hlen; simpl.
  - exists w, d, cap. rewrite app_nil_r. split; [done|].
    split; [done|apply frame_refl].
  - simpl in Hlen.
    destruct (push_back_ok w this d xs cap (Temp v) v Hrep eq_refl)
      as (w1 & d1 & Hpush & Hrep1 & Hfr1).
    { intros Hfull. unfold SIZE_MAX. lia. }
    destruct (IH w1 this d1 (xs ++ [v]) _ Hrep1) as (w' & d' & cap' & Hall & Hrep' & Hfr').
    { rewrite length_app. simpl. lia. }
    exists w', d', cap'. rewrite (bind_Ret _ _ _ _ _ Hpush).
    split; [done|]. rewrite <- app_assoc in Hrep'. split; [done|].
    by eapply frame_trans.
Qed.

Lemma pop_back_empty w this d cap :
  repr_at w this d [] cap →
  vector.pop_back this w = Throw container_is_empty w.
Proof.
  intros (Hobj & _ & _). unfold vector.pop_back.
  by rewrite (bind_Ret _ _ _ _ _ (get_obj_Ret _ _ _ Hobj)).
Qed.

Lemma pop_back_ok w this d ys y cap :
  repr_at w this d (ys ++ [y]) cap →
  ∃ w', vector.pop_back this w = Ret tt w' ∧ repr_at w' this d ys cap ∧ frame w w' this.
Proof.
  intros (Hobj & Hcap & Hbuf).
  destruct d as [|b o]; simpl in Hbuf.
  { destruct Hbuf as [Hnil _]. by destruct ys. }
  destruct Hbuf as [-> Hb].
  rewrite length_app in *. simpl in *.
  unfold vector.pop_back.
  rewrite (bind_Ret _ _ _ _ _ (get_obj_Ret _ _ _ Hobj)). simpl.
  destruct (Z.eqb_spec (Z.of_nat (length ys + 1)) 0) as [?|_]; [lia|].
  rewrite to_size_t_small by (unfold is_size_t; lia).
  replace (Z.to_nat cap - (length ys + 1))%nat with (Z.to_nat cap - S (length ys))%nat in Hb by lia.
  erewrite bind_Ret; [|eapply destroy_cells; [exact Hb|lia]].
  erewrite set_size_Ret; [|exact Hobj].
  eexists. split; [done|]. split.
  - split; [|split].
    + simpl. rewrite lookup_insert_eq. simpl. do 3 f_equal. lia.
    + lia.
    + simpl. split; [done|]. rewrite lookup_insert_eq. do 2 f_equal. lia.
  - unfold upd_block; simpl. by eapply frame_in_place.
Qed.

(** A mutation on a well-formed container is defined (it returns or it
    throws), leaves a well-formed container at most one element longer, and
    stays within the container's own part of the store. *)
Lemma mutate_ok w a d xs cap m :
  repr_at w a d xs cap → mutation_ok m →
  (cap <= Z.of_nat (length xs) → 2 * cap <= SIZE_MAX) →
  ∃ w', outcome_world (mutate a m w) = Some w'
    ∧ frame w w' a
    ∧ ∃ d' xs' cap', repr_at w' a d' xs' cap'
                     ∧ (length xs' <= S (length xs))%nat.
Proof.
  intros Hrep Hm Hdbl.
  assert (∃ d' xs' cap', repr_at w a d' xs' cap'
                         ∧ (length xs' <= S (length xs))%nat) as Hsame.
  { exists d, xs, cap. split; [done|lia]. }
  destruct m as [x| |ind x|ind| |pos x]; simpl in *.
  - destruct (push_back_ok w a d xs cap (Temp x) x Hrep eq_refl Hdbl)
      as (w' & d' & -> & Hrep' & Hfr).
    exists w'. split; [done|]. split; [done|].
    eexists d', _, _. split; [exact Hrep'|]. rewrite length_app. simpl. lia.
  - destruct (list_snoc_case xs) as [->|(ys & y & ->)].
    + rewrite (pop_back_empty _ _ _ _ Hrep). exists w.
      split; [done|]. split; [apply frame_refl|done].
    + destruct (pop_back_ok w a d ys y cap Hrep) as (w' & -> & Hrep' & Hfr).
      exists w'. split; [done|]. split; [done|].
      exists d, ys, cap. split; [done|]. rewrite length_app. lia.
  - destruct (Z.lt_ge_cases (Z.of_nat (length xs)) ind) as [Hlt|Hge].
    + rewrite (bind_Throw _ _ _ _ _
                 (insert_throw _ _ _ _ _ _ _ Hrep Hlt)).
      exists w. split; [done|]. split; [apply frame_refl|done].
    + unfold is_size_t in Hm.
      destruct (insert_ok w a d xs cap (Z.to_nat ind) (Temp x) x Hrep eq_refl
                  ltac:(lia) Hdbl) as (w' & d' & y & Hins & Hrep' & Hfr & _).
      rewrite Z2Nat.id in Hins by lia.
      rewrite (bind_Ret _ _ _ _ _ Hins). exists w'.
      split; [done|]. split; [done|].
      eexists d', _, _. split; [exact Hrep'|].
      rewrite inserted_length by lia. lia.
  - destruct (Z.lt_ge_cases ind (Z.of_nat (length xs))) as [Hlt|Hge].
    + unfold is_size_t in Hm.
      destruct (erase_ok w a d xs cap (Z.to_nat ind) Hrep ltac:(lia))
        as (w' & Hins & Hrep' & Hfr).
      rewrite Z2Nat.id in Hins by lia.
      rewrite (bind_Ret _ _ _ _ _ Hins). exists w'.
      split; [done|]. split; [done|].
      eexists d, _, _. split; [exact Hrep'|].
      rewrite erased_length by lia. lia.
    + rewrite (bind_Throw _ _ _ _ _ (erase_throw _ _ _ _ _ _ Hrep Hge)).
      exists w. split; [done|]. split; [apply frame_refl|done].
  - destruct (clear_ok w a d xs cap Hrep) as (w' & -> & Hrep' & Hfr).
    exists w'. split; [done|]. split; [done|].
    exists d, [], cap. split; [done|]. simpl. lia.
  - unfold vector.operator_index. rewrite bind_assoc.
    pose proof Hrep as (Hobj & _ & _).
    rewrite (bind_Ret _ _ _ _ _ (get_obj_Ret _ _ _ Hobj)). simpl.
    destruct (Z.leb_spec (Z.of_nat (length xs)) pos) as [Hge|Hlt].
    + exists w. split; [done|]. split; [apply frame_refl|done].
    + unfold is_size_t in Hm.
      destruct (write_elem w a d xs cap (Z.to_nat pos) x Hrep ltac:(lia))
        as (w' & Hw & Hrep' & Hfr).
      rewrite Z2Nat.id in Hw by lia.
      rewrite (bind_Ret _ _ _ (ptr_add d pos) w) by done.
      rewrite Hw. exists w'. split; [done|]. split; [done|].
      eexists d, _, cap. split; [exact Hrep'|]. rewrite length_insert. lia.
Qed.

(** ** Well-formed stores *)

Lemma wf_world_sep w o1 o2 d1 d2 xs1 xs2 c1 c2 :
  wf_world w → repr_at w o1 d1 xs1 c1 → repr_at w o2 d2 xs2 c2 → o1 ≠ o2 →
  ∀ b o o', d1 = Ptr b o → d2 ≠ Ptr b o'.
Proof.
  intros [_ Hsh] (Ho1 & _) (Ho2 & _) Hne b o o' -> ->.
  apply Hne. by eapply (Hsh o1 o2).
Qed.

Lemma wf_world_repr w o v :
  wf_world w → objs w !! o = Some v →
  ∃ xs, repr_at w o (data_ v) xs (capacity_ v).
Proof.
  intros [Hwf _] Ho. destruct (Hwf o v Ho) as (xs & Hsz & Hcap & Hbuf).
  exists xs. split; [|by split]. rewrite Ho. f_equal. destruct v; simpl in *.
  by subst.
Qed.

Lemma repr_at_other w w' this other d xs cap :
  wf_world w → frame w w' this → other ≠ this →
  repr_at w other d xs cap → repr_at w' other d xs cap.
Proof.
  intros Hwf Hfr Hne Hrep. eapply repr_at_frame; [done|done|done|].
  intros u b o o' Hu Hd ->.
  destruct Hwf as [_ Hsh]. destruct Hrep as (Ho & _).
  apply Hne. by eapply (Hsh other this).
Qed.

Lemma wf_world_step w w' this d xs cap :
  wf_world w → frame w w' this → repr_at w' this d xs cap → wf_world w'.
Proof.
  intros Hwf Hfr Hrep. pose proof Hfr as (Ho & Hh & Hn). split.
  - intros o v Hv. destruct (decide (o = this)) as [->|Hne].
    + destruct Hrep as (Hobj & Hcap & Hbuf). rewrite Hobj in Hv.
      injection Hv as <-. simpl. eauto.
    + rewrite Ho in Hv by done.
      destruct (wf_world_repr _ _ _ Hwf Hv) as (ys & Hry).
      pose proof (repr_at_other _ _ _ _ _ _ _ Hwf Hfr Hne Hry)
        as (_ & Hcap & Hbuf).
      pose proof Hry as (Hov & _ & _). rewrite Hv in Hov.
      injection Hov as Heq. exists ys. split; [by rewrite Heq|by split].
  - intros o1 o2 v1 v2 b off1 off2 Hv1 Hv2 Hd1 Hd2.
    destruct (decide (o1 = o2)) as [|Hne12]; [done|exfalso].
    assert (∀ o v off, o ≠ this → objs w' !! o = Some v → data_ v = Ptr b off →
            (∃ l, heap w !! b = Some l)
            ∧ ∀ u o', objs w !! this = Some u → data_ u ≠ Ptr b o') as Hold.
    { intros o v off Hne Hv Hd. rewrite Ho in Hv by done.
      destruct (wf_world_repr _ _ _ Hwf Hv) as (ys & Hobj & _ & Hbuf).
      rewrite Hd in Hbuf. simpl in Hbuf. destruct Hbuf as [_ Hb].
      split; [eauto|]. intros u o' Hu Hdu. destruct Hwf as [_ Hsh].
      apply Hne. by eapply (Hsh o this). }
    assert (∀ v off, objs w' !! this = Some v → data_ v = Ptr b off →
            ∀ o v' off', o ≠ this → objs w' !! o = Some v' →
                         data_ v' = Ptr b off' → False) as Hthis.
    { intros v off Hv Hd o v' off' Hne Hv' Hd'.
      destruct (Hold o v' off' Hne Hv' Hd') as [[l Hl] Hnot].
      destruct (Hn v b off Hv Hd) as [(u & o' & Hu & Hdu)|Hnone].
      - by eapply Hnot.
      - congruence. }
    destruct (decide (o1 = this)) as [->|Hne1].
    + by eapply (Hthis v1 off1 Hv1 Hd1 o2 v2 off2).
    + destruct (decide (o2 = this)) as [->|Hne2].
      * by eapply (Hthis v2 off2 Hv2 Hd2 o1 v1 off1).
      * rewrite Ho in Hv1, Hv2 by done. destruct Hwf as [_ Hsh].
        apply Hne12. by eapply (Hsh o1 o2).
Qed.

Lemma vector_copy_ok w this other d xs cap :
  wf_world w → repr_at w other d xs cap → objs w !! this = None →
  ∃ w' d', vector.vector_copy this other w = Ret tt w'
    ∧ repr_at w' this d' xs (Z.of_nat (length xs))
    ∧ repr_at w' other d xs cap
    ∧ wf_world w' ∧ frame w w' this.
Proof.
  intros Hwf Hrep Hnone.
  assert (other ≠ this) as Hne.
  { intros ->. destruct Hrep as (Hobj & _). congruence. }
  destruct (vector_default_ok w this) as (w0 & Hdef & Hrep0 & Hfr0).
  unfold vector.vector_default in Hdef.
  pose proof (wf_world_step _ _ _ _ _ _ Hwf Hfr0 Hrep0) as Hwf0.
  pose proof (repr_at_other _ _ _ _ _ _ _ Hwf Hfr0 Hne Hrep) as Hother0.
  destruct (copy_from_ok w0 this other d xs cap Hother0 (proj1 Hrep0) Hne)
    as (w' & d' & Hcopy & Hrep' & Hother' & Hfr').
  exists w', d'. unfold vector.vector_copy.
  rewrite (bind_Ret _ _ _ _ _ Hdef). split; [done|]. split; [done|].
  split; [done|]. split.
  - by eapply wf_world_step.
  - by eapply frame_trans.
Qed.

Lemma operator_assign_ok w this other dt ys ct d xs cap :
  wf_world w → repr_at w this dt ys ct → repr_at w other d xs cap →
  this ≠ other →
  ∃ w' d', vector.operator_assign this other w = Ret this w'
    ∧ repr_at w' this d' xs (Z.of_nat (length xs))
    ∧ repr_at w' other d xs cap
    ∧ wf_world w' ∧ frame w w' this.
Proof.
  intros Hwf Hthis Hother Hne.
  pose proof Hthis as (Hobj & Hcap & Hbuf).
  destruct (release_buffer w dt ys ct Hbuf) as (w1 & Hloop & Hdel).
  set (w2 := World (free_buf dt (heap w))
                   (<[this := Vec Null 0 0]> (objs w))).
  assert (frame w w2 this) as Hfr2.
  { split; [|split]; simpl.
    - intros o Ho. by rewrite lookup_insert_ne.
    - intros b l Hl Hnot. rewrite free_buf_lookup_ne; [done|].
      intros o. by apply (Hnot _ o Hobj).
    - intros u' b o Hu'. rewrite lookup_insert_eq in Hu'. by injection Hu' as <-. }
  assert (repr_at w2 this Null [] 0) as Hrep2.
  { split; [|split]; simpl;
      [by rewrite lookup_insert_eq|unfold SIZE_MAX; lia|done]. }
  pose proof (wf_world_step _ _ _ _ _ _ Hwf Hfr2 Hrep2) as Hwf2.
  assert (other ≠ this) as Hne' by done.
  pose proof (repr_at_other _ _ _ _ _ _ _ Hwf Hfr2 Hne' Hother) as Hother2.
  destruct (copy_from_ok w2 this other d xs cap Hother2 (proj1 Hrep2) Hne')
    as (w' & d' & Hcopy & Hrep' & Hother' & Hfr').
  exists w', d'. unfold vector.operator_assign.
  rewrite decide_False by done.
  rewrite (bind_Ret _ _ _ _ _ (get_obj_Ret _ _ _ Hobj)). simpl.
  rewrite (bind_Ret _ _ _ _ _ Hloop).
  rewrite (bind_Ret _ _ _ _ _ Hdel).
  erewrite bind_Ret; [|eapply set_data_Ret; exact Hobj]. simpl.
  erewrite bind_Ret; [|eapply set_size_Ret; apply lookup_insert_eq]. simpl.
  erewrite bind_Ret; [|eapply set_capacity_Ret; apply lookup_insert_eq]. simpl.
  rewrite !insert_insert_eq. fold w2.
  rewrite (bind_Ret _ _ _ _ _ Hcopy).
  split; [done|]. split; [done|]. split; [done|]. split.
  - by eapply wf_world_step.
  - by eapply frame_trans.
Qed.

(** Mutating one container of a well-formed store, any number of times,
    keeps the store well formed and every other container as it was. *)
Lemma mutate_all_isolated ms : ∀ w a d xs cap,
  wf_world w → repr_at w a d xs cap → Forall mutation_ok ms →
  2 * (Z.of_nat (length xs) + Z.of_nat (length ms)) <= SIZE_MAX →
  ∃ w', mutate_all a ms w = Some w'
    ∧ wf_world w'
    ∧ ∀ other ys c, other ≠ a → repr w other ys c → repr w' other ys c.
Proof.
  induction ms as [|m ms IH]; intros w a d xs cap Hwf Hrep Hms Hlen; simpl.
  - exists w. done.
  - apply Forall_cons in Hms as [Hm Hms]. simpl in Hlen.
    pose proof Hrep as (_ & Hcap & _).
    destruct (mutate_ok w a d xs cap m Hrep Hm)
      as (w1 & Hrun & Hfr & d1 & xs1 & cap1 & Hrep1 & Hlen1).
    { intros Hfull. lia. }
    pose proof (wf_world_step _ _ _ _ _ _ Hwf Hfr Hrep1) as Hwf1.
    destruct (IH w1 a d1 xs1 cap1 Hwf1 Hrep1 Hms ltac:(lia))
      as (w' & Hall & Hwf' & Hiso).
    exists w'. rewrite Hrun. split; [done|]. split; [done|].
    intros other ys c Hne [dy Hother]. apply Hiso; [done|].
    exists dy. exact (repr_at_other _ _ _ _ _ _ _ Hwf Hfr Hne Hother).
Qed.

(** ** Runs read backwards *)

(** Much of this part is about what a call has not done. Such facts are
    read off a run that returned or threw, step by step, whatever the store
    it started from. *)

Lemma bind_Ret_inv {A B} (m : M T A) (k : A → M T B) w c w' :
  bind m k w = Ret c w' → ∃ a w1, m w = Ret a w1 ∧ k a w1 = Ret c w'.
Proof.
  unfold bind. destruct (m w) as [a w1| |]; [|done|done]. eauto.
Qed.

Lemma bind_Throw_inv {A B} (m : M T A) (k : A → M T B) w e w' :
  bind m k w = Throw e w' →
  m w = Throw e w' ∨ ∃ a w1, m w = Ret a w1 ∧ k a w1 = Throw e w'.
Proof.
  unfold bind. destruct (m w) as [a w1|e1 w1|]; [eauto| |done].
  intros [= -> ->]. by left.
Qed.

(** ** Steps that stay within one buffer *)

Lemma only_buffer_refl p w : only_buffer p w w.
Proof. done. Qed.

Lemma only_buffer_trans p w1 w2 w3 :
  only_buffer p w1 w2 → only_buffer p w2 w3 → only_buffer p w1 w3.
Proof. intros [Ho1 Hh1] [Ho2 Hh2]. split; congruence. Qed.

Lemma free_buf_comm p q h : free_buf p (free_buf q h) = free_buf q (free_buf p h).
Proof.
  destruct p as [|b o], q as [|b' o']; simpl; try done. apply delete_delete.
Qed.

Lemma quiet_ret {A} p (a : A) : quiet p (ret (T := T) a).
Proof. intros w a' w' [= <- <-]. done. Qed.

Lemma quiet_bind {A B} p (m : M T A) (k : A → M T B) :
  quiet p m → (∀ a, quiet p (k a)) → quiet p (bind m k).
Proof.
  intros Hm Hk w c w' H. apply bind_Ret_inv in H as (a & w1 & E & H).
  eapply only_buffer_trans; [by eapply Hm|by eapply Hk].
Qed.

Lemma quiet_get_obj p this : quiet p (get_obj (T := T) this).
Proof.
  intros w a w'. unfold get_obj. destruct (objs w !! this); [|done].
  by intros [= <- <-].
Qed.

Lemma quiet_read p q : quiet p (read (T := T) q).
Proof.
  intros w a w'. unfold read. destruct (slot_at (heap w) q) as [[x|]|]; try done.
  by intros [= <- <-].
Qed.

Lemma quiet_deref p (r : cref T) : quiet p (deref r).
Proof. destruct r; [apply quiet_ret|apply quiet_read]. Qed.

Lemma quiet_read_index p (r : iref T) : quiet p (read_index r).
Proof.
  destruct r; [apply quiet_ret|].
  apply quiet_bind; [apply quiet_read|]. intros x. apply quiet_ret.
Qed.

Lemma only_buffer_slot_set w p i s :
  only_buffer p w (World (slot_set (heap w) (ptr_add p i) s) (objs w)).
Proof.
  split; [done|]. destruct p as [|b o]; simpl; [done|].
  rewrite delete_alter. by rewrite decide_True.
Qed.

Lemma quiet_construct p i (x : T) : quiet p (construct (ptr_add p i) x).
Proof.
  intros w a w'. unfold construct.
  destruct (slot_at (heap w) (ptr_add p i)); [|done].
  intros [= <- <-]. apply only_buffer_slot_set.
Qed.

Lemma quiet_destroy p i : quiet p (destroy (T := T) (ptr_add p i)).
Proof.
  intros w a w'. unfold destroy.
  destruct (slot_at (heap w) (ptr_add p i)) as [[x|]|]; try done.
  intros [= <- <-]. apply only_buffer_slot_set.
Qed.

Lemma quiet_assign p i (x : T) : quiet p (assign (ptr_add p i) x).
Proof.
  intros w a w'. unfold assign.
  destruct (slot_at (heap w) (ptr_add p i)) as [[y|]|]; try done.
  intros [= <- <-]. apply only_buffer_slot_set.
Qed.

Lemma quiet_for_up p (body : Z → M T unit) n :
  (∀ i, quiet p (body i)) → ∀ i, quiet p (for_up n i body).
Proof.
  intros Hbody. induction n as [|n IH]; intros i; simpl.
  - apply quiet_ret.
  - apply quiet_bind; [apply Hbody|]. intros _. apply IH.
Qed.

Lemma quiet_for_down_to p (lo : M T Z) (body : Z → M T unit) n :
  quiet p lo → (∀ i, quiet p (body i)) → ∀ i, quiet p (for_down_to n i lo body).
Proof.
  intros Hlo Hbody. induction n as [|n IH]; intros i; simpl.
  - apply quiet_bind; [done|]. intros _. apply quiet_ret.
  - apply quiet_bind; [done|]. intros l. destruct (l <? i).
    + apply quiet_bind; [apply Hbody|]. intros _. apply IH.
    + apply quiet_ret.
Qed.

(** ** What a primitive step that returns has done *)

Lemma read_inv w p x w' :
  read p w = Ret x w' → w' = w ∧ slot_at (heap w) p = Some (Some x).
Proof.
  unfold read. destruct (slot_at (heap w) p) as [[y|]|]; try done.
  by intros [= <- <-].
Qed.

Lemma read_index_inv w (r : iref T) n w' : read_index r w = Ret n w' → w' = w.
Proof.
  destruct r as [m|p f]; simpl.
  - by intros [= _ <-].
  - intros H. apply bind_Ret_inv in H as (x & w1 & E & H).
    apply read_inv in E as [-> _]. by injection H as _ <-.
Qed.

Lemma get_obj_inv w this v w' :
  get_obj this w = Ret v w' → w' = w ∧ objs w !! this = Some v.
Proof.
  unfold get_obj. destruct (objs w !! this); [|done]. by intros [= <- <-].
Qed.

Lemma set_obj_inv w this v (a : unit) w' :
  set_obj this v w = Ret a w' → w' = World (heap w) (<[this := v]> (objs w)).
Proof. by intros [= _ <-]. Qed.

Lemma set_data_inv w this p (a : unit) w' :
  set_data this p w = Ret a w' →
  ∃ v, objs w !! this = Some v
       ∧ w' = World (heap w) (<[this := Vec p (size_ v) (capacity_ v)]> (objs w)).
Proof.
  intros H. apply bind_Ret_inv in H as (v & w1 & E & H).
  apply get_obj_inv in E as [-> E]. apply set_obj_inv in H. eauto.
Qed.

Lemma set_size_inv w this n (a : unit) w' :
  set_size this n w = Ret a w' →
  ∃ v, objs w !! this = Some v
       ∧ w' = World (heap w) (<[this := Vec (data_ v) n (capacity_ v)]> (objs w)).
Proof.
  intros H. apply bind_Ret_inv in H as (v & w1 & E & H).
  apply get_obj_inv in E as [-> E]. apply set_obj_inv in H. eauto.
Qed.

Lemma set_capacity_inv w this n (a : unit) w' :
  set_capacity this n w = Ret a w' →
  ∃ v, objs w !! this = Some v
       ∧ w' = World (heap w) (<[this := Vec (data_ v) (size_ v) n]> (objs w)).
Proof.
  intros H. apply bind_Ret_inv in H as (v & w1 & E & H).
  apply get_obj_inv in E as [-> E]. apply set_obj_inv in H. eauto.
Qed.

Lemma operator_new_inv w n p w' :
  operator_new n w = Ret p w' →
  ∃ bn, p = Ptr bn 0 ∧ heap w !! bn = None ∧ objs w' = objs w
        ∧ free_buf p (heap w') = heap w ∧ bn = fresh (dom (heap w)).
Proof.
  unfold operator_new. intros [= <- <-]. eexists. split; [done|].
  assert (heap w !! fresh (dom (heap w)) = None) as Hfresh.
  { apply not_elem_of_dom. apply is_fresh. }
  split; [done|]. split; [done|]. simpl. by rewrite delete_insert_id.
Qed.

(** The buffer [::operator new] hands out in a given heap. *)
Lemma fresh_block_unallocated h : h !! fresh (dom h) = None.
Proof. apply not_elem_of_dom. apply is_fresh. Qed.

Lemma operator_delete_inv w p (a : unit) w' :
  operator_delete p w = Ret a w' →
  w' = World (free_buf p (heap w)) (objs w).
Proof.
  unfold operator_delete. destruct p as [|b o]; simpl.
  - intros [= _ <-]. by rewrite world_eta.
  - case_decide; [|done]. destruct (heap w !! b); [|done]. by intros [= _ <-].
Qed.


(** ** Computations that throw nothing *)

Lemma nothrow_ret {A} (a : A) : nothrow (ret (T := T) a).
Proof. done. Qed.

Lemma nothrow_undef {A} : nothrow (undef (T := T) (A := A)).
Proof. done. Qed.

Lemma nothrow_bind {A B} (m : M T A) (k : A → M T B) :
  nothrow m → (∀ a, nothrow (k a)) → nothrow (bind m k).
Proof.
  intros Hm Hk w e w' H. apply bind_Throw_inv in H as [H|(a & w1 & _ & H)].
  - by eapply Hm.
  - by eapply Hk.
Qed.

Lemma nothrow_get_obj this : nothrow (get_obj (T := T) this).
Proof. intros w e w'. unfold get_obj. by destruct (objs w !! this). Qed.

Lemma nothrow_set_obj this v : nothrow (set_obj (T := T) this v).
Proof. done. Qed.

Lemma nothrow_set_data this p : nothrow (set_data (T := T) this p).
Proof.
  apply nothrow_bind; [apply nothrow_get_obj|]. intros v. apply nothrow_set_obj.
Qed.

Lemma nothrow_set_size this n : nothrow (set_size (T := T) this n).
Proof.
  apply nothrow_bind; [apply nothrow_get_obj|]. intros v. apply nothrow_set_obj.
Qed.

Lemma nothrow_set_capacity this n : nothrow (set_capacity (T := T) this n).
Proof.
  apply nothrow_bind; [apply nothrow_get_obj|]. intros v. apply nothrow_set_obj.
Qed.

Lemma nothrow_operator_new n : nothrow (operator_new (T := T) n).
Proof. done. Qed.

Lemma nothrow_operator_delete p : nothrow (operator_delete (T := T) p).
Proof.
  intros w e w'. unfold operator_delete. destruct p as [|b o]; [done|].
  case_decide; [|done]. by destruct (heap w !! b).
Qed.

Lemma nothrow_construct p (x : T) : nothrow (construct p x).
Proof. intros w e w'. unfold construct. by destruct (slot_at (heap w) p). Qed.

Lemma nothrow_destroy p : nothrow (destroy (T := T) p).
Proof.
  intros w e w'. unfold destroy. by destruct (slot_at (heap w) p) as [[x|]|].
Qed.

Lemma nothrow_read p : nothrow (read (T := T) p).
Proof.
  intros w e w'. unfold read. by destruct (slot_at (heap w) p) as [[x|]|].
Qed.

Lemma nothrow_assign p (x : T) : nothrow (assign p x).
Proof.
  intros w e w'. unfold assign. by destruct (slot_at (heap w) p) as [[y|]|].
Qed.

Lemma nothrow_deref (r : cref T) : nothrow (deref r).
Proof. destruct r; [apply nothrow_ret|apply nothrow_read]. Qed.

Lemma nothrow_read_index (r : iref T) : nothrow (read_index r).
Proof.
  destruct r; [apply nothrow_ret|].
  apply nothrow_bind; [apply nothrow_read|]. intros x. apply nothrow_ret.
Qed.

Lemma nothrow_for_down_to (lo : M T Z) (body : Z → M T unit) n :
  nothrow lo → (∀ i, nothrow (body i)) → ∀ i, nothrow (for_down_to n i lo body).
Proof.
  intros Hlo Hbody. induction n as [|n IH]; intros i; simpl.
  - apply nothrow_bind; [done|]. intros _. apply nothrow_ret.
  - apply nothrow_bind; [done|]. intros l. destruct (l <? i).
    + apply nothrow_bind; [apply Hbody|]. intros _. apply IH.
    + apply nothrow_ret.
Qed.

Lemma nothrow_for_up (body : Z → M T unit) n :
  (∀ i, nothrow (body i)) → ∀ i, nothrow (for_up n i body).
Proof.
  intros Hbody. induction n as [|n IH]; intros i; simpl.
  - apply nothrow_ret.
  - apply nothrow_bind; [apply Hbody|]. intros _. apply IH.
Qed.

Ltac nothrow_step :=
  first
    [ apply nothrow_ret | apply nothrow_undef
    | apply nothrow_get_obj | apply nothrow_set_obj
    | apply nothrow_set_data | apply nothrow_set_size
    | apply nothrow_set_capacity
    | apply nothrow_operator_new | apply nothrow_operator_delete
    | apply nothrow_construct | apply nothrow_destroy
    | apply nothrow_read | apply nothrow_assign | apply nothrow_deref
    | apply nothrow_read_index
    | apply nothrow_for_up | apply nothrow_for_down_to
    | apply nothrow_bind
    | match goal with
      | |- nothrow (if ?c then _ else _) => destruct c
      end
    | progress intros ].

Ltac nothrow_tac := unfold for_range; repeat nothrow_step.

Lemma nothrow_reallocate this c : nothrow (vector.reallocate (T := T) this c).
Proof. unfold vector.reallocate. nothrow_tac. Qed.

Lemma nothrow_copy_from this other : nothrow (vector.copy_from (T := T) this other).
Proof. unfold vector.copy_from. nothrow_tac. Qed.

Lemma nothrow_push_back this r : nothrow (vector.push_back (T := T) this r).
Proof. unfold vector.push_back. nothrow_tac. Qed.

Lemma nothrow_clear this : nothrow (vector.clear (T := T) this).
Proof. unfold vector.clear. nothrow_tac. Qed.

Lemma nothrow_vector_default this : nothrow (vector.vector_default (T := T) this).
Proof. unfold vector.vector_default. nothrow_tac. Qed.

Lemma nothrow_vector_copy this other :
  nothrow (vector.vector_copy (T := T) this other).
Proof. unfold vector.vector_copy. nothrow_tac. Qed.

Lemma nothrow_vector_destroy this : nothrow (vector.vector_destroy (T := T) this).
Proof. unfold vector.vector_destroy. nothrow_tac. done. Qed.

Lemma nothrow_operator_assign this other :
  nothrow (vector.operator_assign (T := T) this other).
Proof.
  unfold vector.operator_assign. nothrow_tac.
Qed.

Lemma nothrow_size this : nothrow (vector.size (T := T) this).
Proof. unfold vector.size. nothrow_tac. Qed.

Lemma nothrow_empty this : nothrow (vector.empty (T := T) this).
Proof. unfold vector.empty. nothrow_tac. Qed.

Lemma nothrow_begin this : nothrow (vector.begin_ (T := T) this).
Proof. unfold vector.begin_. nothrow_tac. Qed.

Lemma nothrow_end this : nothrow (vector.end_ (T := T) this).
Proof. unfold vector.end_. nothrow_tac. Qed.

Lemma nothrow_cbegin this : nothrow (vector.cbegin (T := T) this).
Proof. unfold vector.cbegin. nothrow_tac. Qed.

Lemma nothrow_cend this : nothrow (vector.cend (T := T) this).
Proof. unfold vector.cend. nothrow_tac. Qed.

(** A member function that opens with a check and throws nothing after
    it. *)
Lemma guarded_throw {A} this (c : vec → bool) (e0 : exn) (k : vec → M T A)
    w e w' :
  (∀ v, nothrow (k v)) →
  (v <- get_obj this ;; if c v then throw e0 else k v) w = Throw e w' →
  e = e0 ∧ w' = w ∧ ∃ v, objs w !! this = Some v ∧ c v = true.
Proof.
  intros Hk H. apply bind_Throw_inv in H as [H|(v & w1 & Hv & H)].
  - by apply nothrow_get_obj in H.
  - apply get_obj_inv in Hv as [-> Hv]. destruct (c v) eqn:Hc.
    + injection H as <- <-. eauto.
    + by apply Hk in H.
Qed.

Lemma index_throw (f : loc → Z → M T ptr) this pos w e w' :
  In f [vector.at_; vector.at_const;
        vector.operator_index; vector.operator_index_const] →
  f this pos w = Throw e w' →
  e = index_out_of_bound ∧ w' = w
  ∧ ∃ v, objs w !! this = Some v ∧ size_ v <= pos.
Proof.
  intros Hf H.
  assert (f this pos
          = (v <- get_obj this ;;
             if size_ v <=? pos then throw index_out_of_bound
             else ret (ptr_add (data_ v) pos))) as Hdef.
  { simpl in Hf. by destruct Hf as [<-|[<-|[<-|[<-|[]]]]]. }
  rewrite Hdef in H.
  apply (guarded_throw this (λ v, size_ v <=? pos)) in H
    as (-> & -> & v & Hv & Hc); [|intros v; apply nothrow_ret].
  split; [done|]. split; [done|]. exists v. split; [done|lia].
Qed.

Lemma front_throw this w e w' :
  vector.front this w = Throw e w' →
  e = container_is_empty ∧ w' = w
  ∧ ∃ v, objs w !! this = Some v ∧ size_ v = 0.
Proof.
  intros H. apply (guarded_throw this (λ v, size_ v =? 0)) in H
    as (-> & -> & v & Hv & Hc); [|intros v; apply nothrow_ret].
  split; [done|]. split; [done|]. exists v. split; [done|lia].
Qed.

Lemma back_throw this w e w' :
  vector.back this w = Throw e w' →
  e = container_is_empty ∧ w' = w
  ∧ ∃ v, objs w !! this = Some v ∧ size_ v = 0.
Proof.
  intros H. apply (guarded_throw this (λ v, size_ v =? 0)) in H
    as (-> & -> & v & Hv & Hc); [|intros v; apply nothrow_ret].
  split; [done|]. split; [done|]. exists v. split; [done|lia].
Qed.

Lemma pop_back_throw this w e w' :
  vector.pop_back this w = Throw e w' →
  e = container_is_empty ∧ w' = w
  ∧ ∃ v, objs w !! this = Some v ∧ size_ v = 0.
Proof.
  intros H. apply (guarded_throw this (λ v, size_ v =? 0)) in H
    as (-> & -> & v & Hv & Hc); [|intros v; nothrow_tac].
  split; [done|]. split; [done|]. exists v. split; [done|lia].
Qed.

(** The same for a check on an index passed by reference. *)
Lemma guarded_index_throw {A} this (ind : iref T) (c : vec → Z → bool)
    (e0 : exn) (k : vec → Z → M T A) w e w' :
  (∀ v i, nothrow (k v i)) →
  (v <- get_obj this ;; i <- read_index ind ;;
   if c v i then throw e0 else k v i) w = Throw e w' →
  e = e0 ∧ w' = w
  ∧ ∃ v i, objs w !! this = Some v ∧ read_index ind w = Ret i w
           ∧ c v i = true.
Proof.
  intros Hk H. apply bind_Throw_inv in H as [H|(v & w1 & Hv & H)].
  { by apply nothrow_get_obj in H. }
  apply get_obj_inv in Hv as [-> Hv].
  apply bind_Throw_inv in H as [H|(i & w1 & Hi & H)].
  { by apply nothrow_read_index in H. }
  pose proof (read_index_inv _ _ _ _ Hi) as ->.
  destruct (c v i) eqn:Hc.
  - injection H as <- <-. eauto 10.
  - by apply Hk in H.
Qed.

Lemma insert_throw_inv this ind r w e w' :
  vector.insert this ind r w = Throw e w' →
  e = index_out_of_bound ∧ w' = w
  ∧ ∃ v i, objs w !! this = Some v ∧ read_index ind w = Ret i w
           ∧ size_ v < i.
Proof.
  intros H. apply (guarded_index_throw this ind (λ v i, size_ v <? i)) in H
    as (-> & -> & v & i & Hv & Hi & Hc); [|intros v i; nothrow_tac].
  split; [done|]. split; [done|]. exists v, i. split; [done|]. split; [done|lia].
Qed.

Lemma erase_throw_inv this ind w e w' :
  vector.erase this ind w = Throw e w' →
  e = index_out_of_bound ∧ w' = w
  ∧ ∃ v i, objs w !! this = Some v ∧ read_index ind w = Ret i w
           ∧ size_ v <= i.
Proof.
  intros H. apply (guarded_index_throw this ind (λ v i, size_ v <=? i)) in H
    as (-> & -> & v & i & Hv & Hi & Hc); [|intros v i; nothrow_tac].
  split; [done|]. split; [done|]. exists v, i. split; [done|]. split; [done|lia].
Qed.


(** ** The footprint of the member functions *)

Lemma ptr_add_add p i j : ptr_add (ptr_add p i) j = ptr_add p (i + j).
Proof. destruct p as [|b o]; simpl; [done|]. f_equal. lia. Qed.

Lemma quiet_construct_next p i (x : T) :
  quiet p (construct (ptr_add (ptr_add p i) 1) x).
Proof. rewrite ptr_add_add. apply quiet_construct. Qed.

Ltac quiet_step :=
  first
    [ apply quiet_ret | apply quiet_get_obj | apply quiet_read
    | apply quiet_deref | apply quiet_read_index
    | apply quiet_construct_next | apply quiet_construct
    | apply quiet_destroy | apply quiet_assign
    | apply quiet_for_up | apply quiet_for_down_to
    | apply quiet_bind
    | progress intros ].

Ltac quiet_in E p :=
  match type of E with
  | ?m ?w = Ret ?a ?w' =>
      let Hq := fresh "Hq" in
      assert (quiet p m) as Hq
        by (unfold for_range; repeat quiet_step);
      apply Hq in E; clear Hq
  end.

Tactic Notation "inv_bind" hyp(H) "as" ident(a) ident(w1) ident(E) :=
  apply bind_Ret_inv in H as (a & w1 & E & H).

Lemma footprint_refl this w : footprint this w w.
Proof. intros u Hu. exists u. split; [by rewrite insert_id|done]. Qed.

Lemma footprint_trans this w w1 w2 :
  footprint this w w1 → footprint this w1 w2 → footprint this w w2.
Proof.
  intros H1 H2 u Hu. destruct (H1 u Hu) as (u1 & Ho1 & Hh1).
  destruct (H2 u1) as (u2 & Ho2 & Hh2).
  { rewrite Ho1. apply lookup_insert_eq. }
  exists u2. split; [|congruence]. rewrite Ho2, Ho1. apply insert_insert_eq.
Qed.

(** The pattern of the operations that work in place: steps within the
    buffer, then the new size. *)
Lemma footprint_in_place this w u w1 n (a : unit) w' :
  objs w !! this = Some u → only_buffer (data_ u) w w1 →
  set_size this n w1 = Ret a w' →
  objs w' = <[this := Vec (data_ u) n (capacity_ u)]> (objs w)
  ∧ heap w' = heap w1.
Proof.
  intros Hu [Ho Hh] H. apply set_size_inv in H as (v & Hv & ->).
  rewrite Ho, Hu in Hv. injection Hv as <-. simpl. by rewrite Ho.
Qed.

(** The pattern of the operations that move to a new buffer: allocation,
    steps within the new buffer, steps within the old one, deallocation of
    the old one. *)
Lemma footprint_moved w w1 w2 w3 nd d n :
  operator_new n w = Ret nd w1 → only_buffer nd w1 w2 → only_buffer d w2 w3 →
  objs w3 = objs w
  ∧ free_buf nd (free_buf d (heap w3)) = free_buf d (heap w)
  ∧ nd = Ptr (fresh (dom (heap w))) 0.
Proof.
  intros Hnew [Ho2 Hh2] [Ho3 Hh3].
  apply operator_new_inv in Hnew as (bn & -> & Hbn & Ho1 & Hh1 & ->).
  split; [congruence|]. split; [|done].
  rewrite Hh3, free_buf_comm, Hh2, Hh1. done.
Qed.

Lemma reallocate_footprint this c w (a : unit) w' u :
  vector.reallocate this c w = Ret a w' → objs w !! this = Some u →
  objs w' = <[this := Vec (Ptr (fresh (dom (heap w))) 0) (size_ u) c]> (objs w)
  ∧ free_buf (Ptr (fresh (dom (heap w))) 0) (heap w')
    = free_buf (data_ u) (heap w).
Proof.
  intros H Hu. unfold vector.reallocate in H.
  inv_bind H as nd w1 Hnew. inv_bind H as v w1' Hv.
  apply get_obj_inv in Hv as [-> Hv].
  assert (objs w1 = objs w) as Ho1.
  { by apply operator_new_inv in Hnew as (? & _ & _ & ? & _ & _). }
  rewrite Ho1, Hu in Hv. injection Hv as <-.
  inv_bind H as x2 w2 E2. quiet_in E2 nd.
  inv_bind H as x3 w3 E3. quiet_in E3 (data_ u).
  destruct (footprint_moved _ _ _ _ _ _ _ Hnew E2 E3) as (Ho & Hh & ->).
  inv_bind H as x4 w4 E4. apply operator_delete_inv in E4 as ->.
  inv_bind H as x5 w5 E5. apply set_data_inv in E5 as (v & Hv & ->).
  simpl in Hv. rewrite Ho, Hu in Hv. injection Hv as <-.
  apply set_capacity_inv in H as (v & Hv & ->). simpl in Hv.
  rewrite lookup_insert_eq in Hv. injection Hv as <-. simpl.
  split; [|done]. by rewrite Ho, insert_insert_eq.
Qed.

Lemma push_back_footprint this r w (a : unit) w' u :
  vector.push_back this r w = Ret a w' → objs w !! this = Some u →
  ∃ u', objs w' = <[this := u']> (objs w)
    ∧ free_buf (data_ u') (heap w') = free_buf (data_ u) (heap w)
    ∧ data_ u' = (if capacity_ u <=? size_ u
                  then Ptr (fresh (dom (heap w))) 0 else data_ u)
    ∧ capacity_ u' = (if capacity_ u <=? size_ u
                      then grown (capacity_ u) else capacity_ u).
Proof.
  intros H Hu. unfold vector.push_back in H.
  inv_bind H as v w0 Hv. apply get_obj_inv in Hv as [-> Hv]. rewrite Hu in Hv.
  injection Hv as <-. inv_bind H as x1 w1 E1.
  assert (∃ u1, objs w1 = <[this := u1]> (objs w)
            ∧ free_buf (data_ u1) (heap w1) = free_buf (data_ u) (heap w)
            ∧ data_ u1 = (if capacity_ u <=? size_ u
                          then Ptr (fresh (dom (heap w))) 0 else data_ u)
            ∧ capacity_ u1 = (if capacity_ u <=? size_ u
                              then grown (capacity_ u) else capacity_ u))
    as (u1 & Ho1 & Hh1 & Hd1 & Hc1).
  { destruct (capacity_ u <=? size_ u).
    - destruct (reallocate_footprint _ _ _ _ _ _ E1 Hu) as (Ho & Hh).
      eexists. split; [exact Ho|]. split; [exact Hh|]. done.
    - injection E1 as _ <-. exists u. split; [by rewrite insert_id|done]. }
  clear E1. inv_bind H as v w1' Hv. apply get_obj_inv in Hv as [-> Hv].
  rewrite Ho1, lookup_insert_eq in Hv. injection Hv as <-.
  inv_bind H as x2 w2 E2. quiet_in E2 (data_ u1).
  inv_bind H as x3 w3 E3. quiet_in E3 (data_ u1).
  pose proof (only_buffer_trans _ _ _ _ E2 E3) as Hq.
  assert (objs w1 !! this = Some u1) as Hu1
    by (by rewrite Ho1, lookup_insert_eq).
  destruct (footprint_in_place this w1 u1 w3 _ _ w' Hu1 Hq H) as [Ho Hh].
  eexists. split; [by rewrite Ho, Ho1, insert_insert_eq|]. simpl.
  split; [|done]. rewrite Hh. destruct Hq as [_ Hq]. congruence.
Qed.

Lemma insert_footprint this ind r w it w' u :
  vector.insert this ind r w = Ret it w' → objs w !! this = Some u →
  ∃ u', objs w' = <[this := u']> (objs w)
    ∧ free_buf (data_ u') (heap w') = free_buf (data_ u) (heap w)
    ∧ data_ u' = (if capacity_ u <=? size_ u
                  then Ptr (fresh (dom (heap w))) 0 else data_ u)
    ∧ capacity_ u' = (if capacity_ u <=? size_ u
                      then grown (capacity_ u) else capacity_ u).
Proof.
  intros H Hu. unfold vector.insert in H.
  inv_bind H as v w0 Hv. apply get_obj_inv in Hv as [-> Hv]. rewrite Hu in Hv.
  injection Hv as <-.
  inv_bind H as i0 w0 Hi0. apply read_index_inv in Hi0 as ->.
  destruct (size_ u <? i0); [done|].
  inv_bind H as x0 w0 E. inv_bind H as v' w0' Hv'.
  apply get_obj_inv in Hv' as [-> _].
  inv_bind H as i2 w2 Hi2. apply read_index_inv in Hi2 as ->.
  injection H as _ <-.
  destruct (capacity_ u <=? size_ u).
  - set (nc := if capacity_ u =? 0 then 1 else to_size_t (capacity_ u * 2)) in *.
    inv_bind E as nd w1 Hnew.
    inv_bind E as x2 w2 E2. quiet_in E2 nd.
    inv_bind E as x3 w3 E3. quiet_in E3 nd.
    inv_bind E as x4 w4 E4. quiet_in E4 nd.
    inv_bind E as x5 w5 E5. quiet_in E5 nd.
    pose proof (only_buffer_trans _ _ _ _
                  (only_buffer_trans _ _ _ _
                     (only_buffer_trans _ _ _ _ E2 E3) E4) E5) as Hq.
    inv_bind E as x6 w6 E6. quiet_in E6 (data_ u).
    destruct (footprint_moved _ _ _ _ _ _ _ Hnew Hq E6) as (Ho & Hh & ->).
    inv_bind E as x7 w7 E7. apply operator_delete_inv in E7 as ->.
    inv_bind E as x8 w8 E8. apply set_data_inv in E8 as (v & Hv & ->).
    simpl in Hv. rewrite Ho, Hu in Hv. injection Hv as <-.
    inv_bind E as x9 w9 E9. apply set_capacity_inv in E9 as (v & Hv & ->).
    simpl in Hv. rewrite lookup_insert_eq in Hv. injection Hv as <-.
    apply set_size_inv in E as (v & Hv & ->). simpl in Hv.
    rewrite lookup_insert_eq in Hv. injection Hv as <-. simpl.
    eexists. split; [by rewrite Ho, !insert_insert_eq|]. simpl.
    split; [done|]. done.
  - inv_bind E as x1 w1 E1. quiet_in E1 (data_ u).
    inv_bind E as x2 w2 E2. quiet_in E2 (data_ u).
    inv_bind E as x3 w3 E3. quiet_in E3 (data_ u).
    inv_bind E as x4 w4 E4. quiet_in E4 (data_ u).
    inv_bind E as x5 w5 E5. quiet_in E5 (data_ u).
    inv_bind E as x6 w6 E6. quiet_in E6 (data_ u).
    pose proof (only_buffer_trans _ _ _ _
                  (only_buffer_trans _ _ _ _
                     (only_buffer_trans _ _ _ _
                        (only_buffer_trans _ _ _ _
                           (only_buffer_trans _ _ _ _ E1 E2) E3) E4) E5) E6)
      as Hq.
    destruct (footprint_in_place this w u _ _ _ w0 Hu Hq E) as [Ho Hh].
    eexists. split; [exact Ho|]. simpl. split; [|done].
    rewrite Hh. by destruct Hq.
Qed.


Lemma erase_footprint this ind w it w' u :
  vector.erase this ind w = Ret it w' → objs w !! this = Some u →
  ∃ u', objs w' = <[this := u']> (objs w) ∧ data_ u' = data_ u
    ∧ free_buf (data_ u) (heap w') = free_buf (data_ u) (heap w)
    ∧ capacity_ u' = capacity_ u.
Proof.
  intros H Hu. unfold vector.erase in H.
  inv_bind H as v w0 Hv. apply get_obj_inv in Hv as [-> Hv]. rewrite Hu in Hv.
  injection Hv as <-.
  inv_bind H as i0 w0 Hi0. apply read_index_inv in Hi0 as ->.
  destruct (size_ u <=? i0); [done|].
  inv_bind H as x1 w1 E1. quiet_in E1 (data_ u).
  inv_bind H as x2 w2 E2. quiet_in E2 (data_ u).
  pose proof (only_buffer_trans _ _ _ _ E1 E2) as Hq.
  inv_bind H as x3 w3 E3.
  destruct (footprint_in_place this w u _ _ _ _ Hu Hq E3) as [Ho Hh].
  inv_bind H as v' w3' Hv'. apply get_obj_inv in Hv' as [-> _].
  inv_bind H as i1 w4 Hi1. apply read_index_inv in Hi1 as ->.
  injection H as _ <-.
  eexists. split; [exact Ho|]. split; [done|]. split; [|done].
  rewrite Hh. by destruct Hq.
Qed.

Lemma pop_back_footprint this w (a : unit) w' u :
  vector.pop_back this w = Ret a w' → objs w !! this = Some u →
  ∃ u', objs w' = <[this := u']> (objs w) ∧ data_ u' = data_ u
    ∧ free_buf (data_ u) (heap w') = free_buf (data_ u) (heap w)
    ∧ capacity_ u' = capacity_ u.
Proof.
  intros H Hu. unfold vector.pop_back in H.
  inv_bind H as v w0 Hv. apply get_obj_inv in Hv as [-> Hv]. rewrite Hu in Hv.
  injection Hv as <-. destruct (size_ u =? 0); [done|].
  inv_bind H as x1 w1 E1. quiet_in E1 (data_ u).
  destruct (footprint_in_place this w u _ _ _ _ Hu E1 H) as [Ho Hh].
  eexists. split; [exact Ho|]. split; [done|]. split; [|done].
  rewrite Hh. by destruct E1.
Qed.

Lemma clear_footprint this w (a : unit) w' u :
  vector.clear this w = Ret a w' → objs w !! this = Some u →
  ∃ u', objs w' = <[this := u']> (objs w) ∧ data_ u' = data_ u
    ∧ free_buf (data_ u) (heap w') = free_buf (data_ u) (heap w)
    ∧ capacity_ u' = capacity_ u.
Proof.
  intros H Hu. unfold vector.clear in H.
  inv_bind H as v w0 Hv. apply get_obj_inv in Hv as [-> Hv]. rewrite Hu in Hv.
  injection Hv as <-.
  inv_bind H as x1 w1 E1. quiet_in E1 (data_ u).
  destruct (footprint_in_place this w u _ _ _ _ Hu E1 H) as [Ho Hh].
  eexists. split; [exact Ho|]. split; [done|]. split; [|done].
  rewrite Hh. by destruct E1.
Qed.

Lemma write_footprint this pos (x : T) w (a : unit) w' u :
  (p <- vector.operator_index this pos ;; assign p x) w = Ret a w' →
  objs w !! this = Some u →
  objs w' = objs w
  ∧ free_buf (data_ u) (heap w') = free_buf (data_ u) (heap w).
Proof.
  intros H Hu. inv_bind H as p w0 Hp. unfold vector.operator_index in Hp.
  inv_bind Hp as v w0' Hv. apply get_obj_inv in Hv as [-> Hv].
  rewrite Hu in Hv. injection Hv as <-.
  destruct (size_ u <=? pos); [done|]. injection Hp as <- <-.
  quiet_in H (data_ u). done.
Qed.

(** A mutation that returns or throws has stayed within the container's
    own part of the store. *)
Lemma mutate_footprint this m w w' :
  outcome_world (mutate this m w) = Some w' → footprint this w w'.
Proof.
  intros H u Hu.
  destruct (mutate this m w) as [a w1|e w1|] eqn:Hrun; [| |done];
    injection H as ->.
  - destruct m as [x| |ind x|ind| |pos x]; simpl in Hrun.
    + destruct (push_back_footprint _ _ _ _ _ _ Hrun Hu) as (u' & ? & ? & _).
      eauto.
    + destruct (pop_back_footprint _ _ _ _ _ Hrun Hu) as (u' & ? & <- & ? & _).
      eauto.
    + inv_bind Hrun as it w1 Hins. injection Hrun as _ <-.
      destruct (insert_footprint _ _ _ _ _ _ _ Hins Hu) as (u' & ? & ? & _).
      eauto.
    + inv_bind Hrun as it w1 Hers. injection Hrun as _ <-.
      destruct (erase_footprint _ _ _ _ _ _ Hers Hu) as (u' & ? & <- & ? & _).
      eauto.
    + destruct (clear_footprint _ _ _ _ _ Hrun Hu) as (u' & ? & <- & ? & _).
      eauto.
    + destruct (write_footprint _ _ _ _ _ _ _ Hrun Hu) as [Ho Hh].
      exists u. split; [by rewrite Ho, insert_id|done].
  - assert (w' = w) as ->; [|by apply footprint_refl].
    destruct m as [x| |ind x|ind| |pos x]; simpl in Hrun.
    + by apply nothrow_push_back in Hrun.
    + by apply pop_back_throw in Hrun as (_ & ? & _).
    + apply bind_Throw_inv in Hrun as [Hrun|(it & w1 & _ & Hrun)]; [|done].
      by apply insert_throw_inv in Hrun as (_ & ? & _).
    + apply bind_Throw_inv in Hrun as [Hrun|(it & w1 & _ & Hrun)]; [|done].
      by apply erase_throw_inv in Hrun as (_ & ? & _).
    + by apply nothrow_clear in Hrun.
    + apply bind_Throw_inv in Hrun as [Hrun|(p & w1 & _ & Hrun)].
      * apply (index_throw vector.operator_index) in Hrun as (_ & ? & _);
          [done|]. simpl. tauto.
      * by apply nothrow_assign in Hrun.
Qed.

Lemma mutate_all_footprint this ms : ∀ w w',
  mutate_all this ms w = Some w' → footprint this w w'.
Proof.
  induction ms as [|m ms IH]; intros w w' H; simpl in H.
  - injection H as <-. apply footprint_refl.
  - destruct (outcome_world (mutate this m w)) as [w1|] eqn:Hm; [|done].
    eapply footprint_trans; [by eapply mutate_footprint|by apply IH].
Qed.

Lemma copy_from_footprint this other w (a : unit) w' u :
  vector.copy_from this other w = Ret a w' → objs w !! this = Some u →
  data_ u = Null →
  ∃ u', objs w' = <[this := u']> (objs w)
    ∧ free_buf (data_ u') (heap w') = heap w.
Proof.
  intros H Hu Hnull. unfold vector.copy_from in H.
  inv_bind H as o w0 Ho. apply get_obj_inv in Ho as [-> Ho].
  destruct (0 <? size_ o).
  - inv_bind H as nd w1 Hnew.
    apply operator_new_inv in Hnew as (bn & -> & Hbn & Ho1 & Hh1 & _).
    inv_bind H as x2 w2 E2. apply set_data_inv in E2 as (v & Hv & ->).
    rewrite Ho1, Hu in Hv. injection Hv as <-.
    inv_bind H as x3 w3 E3. apply set_capacity_inv in E3 as (v & Hv & ->).
    simpl in Hv. rewrite lookup_insert_eq in Hv. injection Hv as <-.
    inv_bind H as x4 w4 E4. quiet_in E4 (Ptr bn 0). destruct E4 as [Ho4 Hh4].
    apply set_size_inv in H as (v & Hv & ->). simpl in *.
    rewrite Ho4, lookup_insert_eq in Hv. injection Hv as <-. simpl.
    eexists. split; [by rewrite Ho4, Ho1, !insert_insert_eq|]. simpl.
    congruence.
  - injection H as _ <-. exists u. split; [by rewrite insert_id|].
    by rewrite Hnull.
Qed.

Lemma vector_default_footprint this w (a : unit) w' :
  vector.vector_default this w = Ret a w' →
  objs w' = <[this := Vec Null 0 0]> (objs w) ∧ heap w' = heap w.
Proof. intros H. by apply set_obj_inv in H as ->. Qed.

Lemma vector_copy_footprint this other w (a : unit) w' :
  vector.vector_copy this other w = Ret a w' →
  ∃ u', objs w' = <[this := u']> (objs w)
    ∧ free_buf (data_ u') (heap w') = heap w.
Proof.
  intros H. unfold vector.vector_copy in H.
  inv_bind H as x1 w1 E1. apply set_obj_inv in E1 as ->.
  destruct (copy_from_footprint _ _ _ _ _ (Vec Null 0 0) H)
    as (u' & Ho & Hh); [apply lookup_insert_eq|done|].
  exists u'. simpl in *. split; [|done]. by rewrite Ho, insert_insert_eq.
Qed.

Lemma operator_assign_footprint this other w ret w' :
  vector.operator_assign this other w = Ret ret w' → footprint this w w'.
Proof.
  intros H u Hu. unfold vector.operator_assign in H.
  case_decide as Heq.
  { injection H as _ <-. by apply footprint_refl. }
  inv_bind H as v w0 Hv. apply get_obj_inv in Hv as [-> Hv]. rewrite Hu in Hv.
  injection Hv as <-.
  inv_bind H as x1 w1 E1. quiet_in E1 (data_ u). destruct E1 as [Ho1 Hh1].
  inv_bind H as x2 w2 E2. apply operator_delete_inv in E2 as ->.
  inv_bind H as x3 w3 E3. apply set_data_inv in E3 as (v & Hv & ->).
  simpl in Hv. rewrite Ho1, Hu in Hv. injection Hv as <-.
  inv_bind H as x4 w4 E4. apply set_size_inv in E4 as (v & Hv & ->).
  simpl in Hv. rewrite lookup_insert_eq in Hv. injection Hv as <-.
  inv_bind H as x5 w5 E5. apply set_capacity_inv in E5 as (v & Hv & ->).
  simpl in Hv. rewrite lookup_insert_eq in Hv. injection Hv as <-.
  simpl in H. rewrite !insert_insert_eq in H.
  inv_bind H as x6 w6 E6. injection H as _ <-.
  destruct (copy_from_footprint _ _ _ _ _ (Vec Null 0 0) E6)
    as (u' & Ho & Hh); [apply lookup_insert_eq|done|].
  simpl in *. exists u'. split; [by rewrite Ho, insert_insert_eq, Ho1|].
  congruence.
Qed.



(** ** Index arguments that are no elements of the container *)

Lemma only_buffer_slot q p w1 w2 :
  only_buffer q w1 w2 → (∀ b o o', q = Ptr b o → p ≠ Ptr b o') →
  slot_at (heap w2) p = slot_at (heap w1) p.
Proof.
  intros [_ Hh] Hne. destruct p as [|bp op]; [done|]. simpl.
  assert (heap w2 !! bp = heap w1 !! bp) as ->; [|done].
  destruct q as [|b o]; simpl in Hh; [by rewrite Hh|].
  assert (bp ≠ b) as Hb by (intros ->; by eapply Hne).
  rewrite <- (lookup_delete_ne (heap w2) b bp), Hh by done.
  by rewrite lookup_delete_ne.
Qed.

(** Two shifting loops whose bounds read the same on every store the loop
    passes through run alike. *)
Lemma for_down_to_ext (I : world T → Prop) (lo1 lo2 : M T Z)
    (body : Z → M T unit) n :
  (∀ w, I w → ∃ z, lo1 w = Ret z w ∧ lo2 w = Ret z w) →
  (∀ i w a w', I w → body i w = Ret a w' → I w') →
  ∀ i w, I w →
    for_down_to n i lo1 body w = for_down_to n i lo2 body w.
Proof.
  intros Hlo Hbody. induction n as [|n IH]; intros i w HI; simpl;
    destruct (Hlo w HI) as (z & H1 & H2);
    rewrite (bind_Ret _ _ _ _ _ H1), (bind_Ret _ _ _ _ _ H2); [done|].
  destruct (z <? i); [|done].
  apply bind_ext_run. intros a w1 E. apply IH. by eapply Hbody.
Qed.

Lemma read_index_outside w w' this (ir : iref T) n :
  index_outside w this ir n →
  (∀ p f, ir = IElem p f → slot_at (heap w') p = slot_at (heap w) p) →
  read_index ir w' = Ret n w'.
Proof.
  intros Hout Hs. destruct ir as [m|p f]; simpl in *; [by subst|].
  destruct Hout as [(x & Hx & Hf) _].
  unfold bind, read. rewrite (Hs p f eq_refl), Hx. simpl. by rewrite Hf.
Qed.

(** The reading convention of [vector.insert] on its growing path: whatever
    the call does inside the buffer it has just allocated, the index
    argument reads afterwards as it read at the entry test. *)
Lemma index_read_once (ind : iref T) (m : M T unit) w i0 n nd w1 w2 :
  read_index ind w = Ret i0 w → operator_new n w = Ret nd w1 →
  quiet nd m → m w1 = Ret tt w2 →
  read_index ind w2 = Ret i0 w2.
Proof.
  intros Hread Hnew Hq Hm. destruct ind as [k|p f]; simpl in *.
  { by injection Hread as ->. }
  apply bind_Ret_inv in Hread as (x & w0 & Hx & Hret).
  apply read_inv in Hx as [-> Hx]. injection Hret as <-.
  apply operator_new_inv in Hnew as (bn & -> & Hbn & _ & Hh1 & _).
  apply Hq in Hm as [_ Hh2]. simpl in Hh1, Hh2.
  assert (slot_at (heap w2) p = Some (Some x)) as Hs.
  { destruct p as [|bp op]; [done|]. simpl in *.
    assert (bp ≠ bn) as Hne.
    { intros ->. rewrite Hbn in Hx. by case_decide. }
    rewrite <- (lookup_delete_ne (heap w2) bn bp), Hh2, Hh1 by done.
    done. }
  unfold bind, read. by rewrite Hs.
Qed.

Lemma erase_index_outside w this (ir : iref T) n :
  index_outside w this ir n →
  vector.erase this ir w = vector.erase this (ITemp n) w.
Proof.
  intros Hout. unfold vector.erase.
  apply bind_ext_run. intros u w0 Hget. apply get_obj_inv in Hget as [-> Hu].
  assert (∀ w', (∀ p f, ir = IElem p f →
                   slot_at (heap w') p = slot_at (heap w) p) →
                read_index ir w' = Ret n w') as Hrd
    by (intros w'; by apply (read_index_outside w w' this)).
  assert (∀ w', only_buffer (data_ u) w w' →
                ∀ p f, ir = IElem p f →
                  slot_at (heap w') p = slot_at (heap w) p) as Hin.
  { intros w' Hq p f ->. eapply only_buffer_slot; [exact Hq|].
    intros b o o' Hd. destruct Hout as [_ Hne]. by eapply Hne. }
  rewrite (bind_Ret _ _ _ _ _ (Hrd w ltac:(done))), bind_read_temp.
  destruct (size_ u <=? n); [done|].
  apply bind_ext_run. intros a1 w1 E1. quiet_in E1 (data_ u).
  apply bind_ext_run. intros a2 w2 E2. quiet_in E2 (data_ u).
  pose proof (only_buffer_trans _ _ _ _ E1 E2) as Hq.
  apply bind_ext_run. intros a3 w3 E3.
  apply set_size_inv in E3 as (v & Hv & ->).
  apply bind_ext_run. intros v' w4 E4. apply get_obj_inv in E4 as [-> _].
  rewrite bind_read_temp.
  match goal with
  | |- bind _ _ ?W = _ => by rewrite (bind_Ret _ _ _ n _ (Hrd W (Hin w2 Hq)))
  end.
Qed.

Lemma insert_index_outside w this (ir : iref T) n r :
  index_outside w this ir n →
  vector.insert this ir r w = vector.insert this (ITemp n) r w.
Proof.
  intros Hout. unfold vector.insert.
  apply bind_ext_run. intros u w0 Hget. apply get_obj_inv in Hget as [-> Hu].
  assert (∀ w', (∀ p f, ir = IElem p f →
                   slot_at (heap w') p = slot_at (heap w) p) →
                read_index ir w' = Ret n w') as Hrd
    by (intros w'; by apply (read_index_outside w w' this)).
  assert (∀ w', only_buffer (data_ u) w w' →
                ∀ p f, ir = IElem p f →
                  slot_at (heap w') p = slot_at (heap w) p) as Hin.
  { intros w' Hq p f ->. eapply only_buffer_slot; [exact Hq|].
    intros b o o' Hd. destruct Hout as [_ Hne]. by eapply Hne. }
  rewrite (bind_Ret _ _ _ _ _ (Hrd w ltac:(done))), bind_read_temp.
  destruct (size_ u <? n); [done|].
  destruct (capacity_ u <=? size_ u).
  - apply bind_ext_run. intros a w' E.
    apply bind_ext_run. intros v' w1 E'. apply get_obj_inv in E' as [-> _].
    rewrite bind_read_temp.
    assert (∀ p f, ir = IElem p f →
              slot_at (heap w') p = slot_at (heap w) p) as Hs;
      [|by rewrite (bind_Ret _ _ _ n _ (Hrd _ Hs))].
    intros p f ->. destruct Hout as [(x & Hx & _) Hne].
    set (nc := if capacity_ u =? 0 then 1 else to_size_t (capacity_ u * 2)) in *.
    inv_bind E as nd w1 Hnew.
    inv_bind E as x2 w2 E2. quiet_in E2 nd.
    inv_bind E as x3 w3 E3. quiet_in E3 nd.
    inv_bind E as x4 w4 E4. quiet_in E4 nd.
    inv_bind E as x5 w5 E5. quiet_in E5 nd.
    pose proof (only_buffer_trans _ _ _ _
                  (only_buffer_trans _ _ _ _
                     (only_buffer_trans _ _ _ _ E2 E3) E4) E5) as Hq.
    inv_bind E as x6 w6 E6. quiet_in E6 (data_ u).
    destruct (footprint_moved _ _ _ _ _ _ _ Hnew Hq E6) as (Ho & Hh & ->).
    inv_bind E as x7 w7 E7. apply operator_delete_inv in E7 as ->.
    inv_bind E as x8 w8 E8. apply set_data_inv in E8 as (v & Hv & ->).
    inv_bind E as x9 w9 E9. apply set_capacity_inv in E9 as (v9 & Hv9 & ->).
    apply set_size_inv in E as (v10 & Hv10 & ->). simpl.
    destruct p as [|bp op]; [done|]. simpl in *.
    destruct (heap w !! bp) as [l|] eqn:Hl; [|by destruct (decide (0 <= op))].
    assert (free_buf (data_ u) (heap w6) !! bp = heap w !! bp) as ->; [|by rewrite Hl].
    assert (bp ≠ fresh (dom (heap w))) as Hfr.
    { intros ->. by rewrite fresh_block_unallocated in Hl. }
    rewrite <- (lookup_delete_ne _ (fresh (dom (heap w))) bp) by done.
    rewrite Hh. destruct (data_ u) as [|b o] eqn:Hd; simpl; [done|].
    apply lookup_delete_ne. intros ->. by eapply Hne.
  - rewrite !bind_assoc.
    apply bind_ext_run. intros a1 w1 E1. quiet_in E1 (data_ u).
    rewrite !bind_assoc.
    apply bind_ext_run. intros a2 w2 E2. quiet_in E2 (data_ u).
    pose proof (only_buffer_trans _ _ _ _ E1 E2) as Hq2.
    rewrite !bind_assoc.
    etrans.
    { apply bind_cong_l.
      apply (for_down_to_ext (λ w', only_buffer (data_ u) w w')
               _ (read_index (ITemp n))).
      - intros w' Hq. exists n. split; [|done]. apply Hrd. by apply Hin.
      - intros i w' a w'' Hq E. quiet_in E (data_ u).
        by eapply only_buffer_trans.
      - done. }
    apply bind_ext_run. intros a3 w3 E3. quiet_in E3 (data_ u).
    pose proof (only_buffer_trans _ _ _ _ Hq2 E3) as Hq3.
    rewrite !bind_assoc.
    rewrite (bind_Ret _ _ _ _ _ (Hrd w3 (Hin w3 Hq3))), bind_read_temp.
    rewrite !bind_assoc.
    apply bind_ext_run. intros a5 w5 E5. quiet_in E5 (data_ u).
    rewrite !bind_assoc.
    apply bind_ext_run. intros a6 w6 E6. quiet_in E6 (data_ u).
    pose proof (only_buffer_trans _ _ _ _
                  (only_buffer_trans _ _ _ _ Hq3 E5) E6) as Hq6.
    apply bind_ext_run. intros a7 w7 E7.
    apply set_size_inv in E7 as (v & Hv & ->).
    apply bind_ext_run. intros v' w8 E8. apply get_obj_inv in E8 as [-> _].
    rewrite bind_read_temp.
    match goal with
    | |- bind _ _ ?W = _ =>
        by rewrite (bind_Ret _ _ _ n _ (Hrd W (Hin w6 Hq6)))
    end.
Qed.

(** ** What the specification states *)

(** X1. [insert(ind, value)], called with arguments that are no elements of
    the container itself, fails with [index_out_of_bound], leaving the
    store as it was, when [ind > size]. Otherwise it returns, the element
    sequence becomes [xs[0..ind) ++ value :: xs[ind..size)] (the elements
    from [ind] on moved one slot right, the others in place, one element
    more), the capacity is the grown one when the buffer was full and is
    unchanged otherwise, and the returned cursor belongs to this container
    and designates slot [ind], which holds a copy of [value]. When the
    buffer is full the doubled capacity must be a [size_t]. *)
Theorem insert_spec w this xs cap ir ind r v :
  repr w this xs cap → index_outside w this ir ind → outside w this r v →
  is_size_t ind →
  (cap <= Z.of_nat (length xs) → 2 * cap <= SIZE_MAX) →
  (Z.of_nat (length xs) < ind →
     vector.insert this ir r w = Throw index_out_of_bound w)
  ∧ (ind <= Z.of_nat (length xs) →
     ∃ w' it xs',
       vector.insert this ir r w = Ret it w'
       ∧ xs' = take (Z.to_nat ind) xs ++ v :: drop (Z.to_nat ind) xs
       ∧ repr w' this xs'
           (if cap <=? Z.of_nat (length xs) then grown cap else cap)
       ∧ length xs' = S (length xs)
       ∧ xs' !! Z.to_nat ind = Some v
       ∧ (∀ j, (j < Z.to_nat ind)%nat → xs' !! j = xs !! j)
       ∧ (∀ j, (Z.to_nat ind <= j)%nat → xs' !! S j = xs !! j)
       ∧ vec_ it = Some this
       ∧ vector.operator_index this ind w' = Ret (ptr_ it) w'
       ∧ read (ptr_ it) w' = Ret v w').
Proof.
  intros [d Hrep] Hidx Hout [Hind0 _] Hdbl.
  rewrite (insert_index_outside _ _ _ _ _ Hidx). split.
  - intros Hlt. by eapply insert_throw.
  - intros Hle.
    destruct (insert_ok w this d xs cap (Z.to_nat ind) r v Hrep
                (deref_outside_same _ _ _ _ Hout) ltac:(lia) Hdbl)
      as (w' & d' & y & Hins & Hrep' & _ & Hy).
    rewrite (Hy Hout) in Hrep'. clear y Hy.
    rewrite Z2Nat.id in Hins by lia.
    pose proof (inserted_length xs (Z.to_nat ind) v ltac:(lia)) as Hlen.
    destruct (inserted_lookup xs (Z.to_nat ind) v ltac:(lia))
      as (Hat & Hbefore & Hafter).
    eexists w', _, _. split; [exact Hins|]. split; [done|].
    split; [by exists d'|]. split; [done|]. split; [done|].
    split; [done|]. split; [done|]. split; [done|]. simpl. split.
    + rewrite (index_ok vector.operator_index _ _ _ _ _ ind
                 ltac:(done) Hrep').
      rewrite Hlen. by destruct (Z.leb_spec (Z.of_nat (S (length xs))) ind);
        [lia|].
    + rewrite <- (Z2Nat.id ind) at 1 by lia. by eapply read_elem.
Qed.

(** X29. [erase(ind)], called with an index that is no element of the
    container itself, fails with [index_out_of_bound], leaving the store as
    it was, when [ind >= size]. Otherwise it returns, the element sequence
    becomes [xs[0..ind) ++ xs(ind..size)] (the elements after [ind] moved
    one slot left, the others in place, one element fewer), the capacity is
    unchanged, and the returned cursor belongs to this container and
    designates slot [ind]: the element now there, or the end position when
    the erased element was the last one. *)
Theorem erase_spec w this xs cap ir ind :
  repr w this xs cap → index_outside w this ir ind → is_size_t ind →
  (Z.of_nat (length xs) <= ind →
     vector.erase this ir w = Throw index_out_of_bound w)
  ∧ (ind < Z.of_nat (length xs) →
     ∃ w' it xs',
       vector.erase this ir w = Ret it w'
       ∧ xs' = take (Z.to_nat ind) xs ++ drop (S (Z.to_nat ind)) xs
       ∧ repr w' this xs' cap
       ∧ length xs' = (length xs - 1)%nat
       ∧ (∀ j, (j < Z.to_nat ind)%nat → xs' !! j = xs !! j)
       ∧ (∀ j, (Z.to_nat ind <= j)%nat → xs' !! j = xs !! S j)
       ∧ vec_ it = Some this
       ∧ (ind < Z.of_nat (length xs') →
            vector.operator_index this ind w' = Ret (ptr_ it) w'
            ∧ ∃ x, xs !! S (Z.to_nat ind) = Some x
                   ∧ read (ptr_ it) w' = Ret x w')
       ∧ (ind = Z.of_nat (length xs') → vector.end_ this w' = Ret it w')).
Proof.
  intros [d Hrep] Hidx [Hind0 _].
  rewrite (erase_index_outside _ _ _ _ Hidx). split.
  - intros Hge. by eapply erase_throw.
  - intros Hlt.
    destruct (erase_ok w this d xs cap (Z.to_nat ind) Hrep ltac:(lia))
      as (w' & Hers & Hrep' & _).
    rewrite Z2Nat.id in Hers by lia.
    pose proof (erased_length xs (Z.to_nat ind) ltac:(lia)) as Hlen.
    destruct (erased_lookup xs (Z.to_nat ind) ltac:(lia))
      as (Hbefore & Hafter).
    eexists w', _, _. split; [exact Hers|]. split; [done|].
    split; [by exists d|]. split; [done|]. split; [done|].
    split; [done|]. split; [done|]. simpl. split.
    + intros Hin. split.
      * rewrite (index_ok vector.operator_index _ _ _ _ _ ind
                   ltac:(done) Hrep').
        by destruct (Z.leb_spec
          (Z.of_nat (length (take (Z.to_nat ind) xs
                             ++ drop (S (Z.to_nat ind)) xs))) ind); [lia|].
      * destruct (lookup_lt_is_Some_2 xs (S (Z.to_nat ind))) as [x Hx];
          [lia|]. exists x. split; [done|].
        rewrite <- (Z2Nat.id ind) at 1 by lia.
        eapply read_elem; [exact Hrep'|]. by rewrite Hafter.
    + intros Hend. rewrite (proj1 (end_ok _ _ _ _ _ Hrep')).
      by rewrite <- Hend.
Qed.

(** X2. Starting from the empty container, [N] calls of [push_back] (with
    [N] at most [2^63], so that no capacity computed on the way wraps) all
    return; afterwards [size()] is [N] and indexed access at [i < N], by
    [operator[]] or by [at], yields a reference to an object whose value is
    the one supplied by call number [i]. *)
Theorem push_back_sequence w this (vs : list T) :
  Z.of_nat (length vs) <= 2 ^ 63 →
  ∃ w', (vector.vector_default this ;;; push_all this vs) w = Ret tt w'
    ∧ (∃ cap', repr w' this vs cap')
    ∧ vector.size this w' = Ret (Z.of_nat (length vs)) w'
    ∧ ∀ (i : nat) x, vs !! i = Some x →
        ∃ p, vector.operator_index this (Z.of_nat i) w' = Ret p w'
             ∧ vector.at_ this (Z.of_nat i) w' = Ret p w'
             ∧ read p w' = Ret x w'.
Proof.
  intros Hlen.
  destruct (vector_default_ok w this) as (w0 & Hdef & Hrep0 & _).
  destruct (push_all_ok vs w0 this Null [] 0 Hrep0 ltac:(simpl; lia))
    as (w' & d' & cap' & Hall & Hrep' & _).
  simpl in Hrep'. exists w'. rewrite (bind_Ret _ _ _ _ _ Hdef).
  split; [done|]. split; [by exists cap', d'|].
  split; [by eapply size_ok|].
  intros i x Hx. exists (ptr_add d' (Z.of_nat i)).
  pose proof (lookup_lt_Some _ _ _ Hx) as Hi.
  rewrite (index_ok vector.operator_index _ _ _ _ _ (Z.of_nat i)
             ltac:(done) Hrep').
  rewrite (index_ok vector.at_ _ _ _ _ _ (Z.of_nat i) ltac:(done) Hrep').
  destruct (Z.leb_spec (Z.of_nat (length vs)) (Z.of_nat i)); [lia|].
  split; [done|]. split; [done|]. by eapply read_elem.
Qed.

(** X30. [insert(i, v)] followed by [erase(i)], for [0 <= i <= size], the
    index of each call being an object that is no element of the container
    when the call is made: both return and leave the element sequence,
    hence the size, exactly as it was before the pair, whatever object the
    value is, an element of the container included. *)
Theorem insert_erase_roundtrip w this xs cap ir ind r v :
  repr w this xs cap → index_outside w this ir ind → deref r w = Ret v w →
  is_size_t ind → ind <= Z.of_nat (length xs) →
  (cap <= Z.of_nat (length xs) → 2 * cap <= SIZE_MAX) →
  ∃ w1 it1,
    vector.insert this ir r w = Ret it1 w1
    ∧ ∀ ir', index_outside w1 this ir' ind →
        ∃ w2 it2, vector.erase this ir' w1 = Ret it2 w2
          ∧ (∃ cap', repr w2 this xs cap')
          ∧ vector.size this w2 = Ret (Z.of_nat (length xs)) w2.
Proof.
  intros [d Hrep] Hidx Hout [Hind0 _] Hle Hdbl.
  rewrite (insert_index_outside _ _ _ _ _ Hidx).
  destruct (insert_ok w this d xs cap (Z.to_nat ind) r v Hrep Hout
              ltac:(lia) Hdbl) as (w1 & d1 & y & Hins & Hrep1 & _).
  rewrite Z2Nat.id in Hins by lia.
  eexists w1, _. split; [exact Hins|]. intros ir' Hidx'.
  rewrite (erase_index_outside _ _ _ _ Hidx').
  destruct (erase_ok w1 this d1 _ _ (Z.to_nat ind) Hrep1)
    as (w2 & Hers & Hrep2 & _).
  { rewrite inserted_length by lia. lia. }
  rewrite Z2Nat.id in Hers by lia.
  rewrite insert_then_erase in Hrep2 by lia.
  eexists w2, _. split; [exact Hers|].
  split; [eexists; by exists d1|]. by eapply size_ok.
Qed.

(** C5. Each of the four indexed accessors ([at] and [operator[]], mutable
    and read-only) fails exactly when [pos >= size], whatever the size; the
    exception is then [index_out_of_bound] and the store is the one the call
    started from. Otherwise the accessor returns, without touching the
    store, a reference to element [pos]: reading it gives that element, and
    assigning through it replaces that element and nothing else. *)
Theorem indexed_access (f : loc → Z → M T ptr) w this xs cap pos :
  In f [vector.at_; vector.at_const;
        vector.operator_index; vector.operator_index_const] →
  repr w this xs cap → is_size_t pos →
  (f this pos w = Throw index_out_of_bound w ↔ Z.of_nat (length xs) <= pos)
  ∧ (∀ e w', f this pos w = Throw e w' →
       e = index_out_of_bound ∧ w' = w ∧ Z.of_nat (length xs) <= pos)
  ∧ (pos < Z.of_nat (length xs) →
     ∃ p x, f this pos w = Ret p w
       ∧ xs !! Z.to_nat pos = Some x
       ∧ read p w = Ret x w
       ∧ ∀ y, ∃ w2, assign p y w = Ret tt w2
                    ∧ repr w2 this (<[Z.to_nat pos := y]> xs) cap).
Proof.
  intros Hf [d Hrep] [Hpos0 _].
  assert (f this pos w
          = if Z.of_nat (length xs) <=? pos then Throw index_out_of_bound w
            else Ret (ptr_add d pos) w) as Hrun.
  { simpl in Hf. destruct Hf as [<-|[<-|[<-|[<-|[]]]]];
      by apply (index_ok _ w this d xs cap pos). }
  rewrite Hrun.
  destruct (Z.leb_spec (Z.of_nat (length xs)) pos) as [Hge|Hlt].
  - split; [done|]. split; [|lia]. intros e w' [= <- <-]. done.
  - split; [split; [done|lia]|]. split; [done|]. intros _.
    destruct (lookup_lt_is_Some_2 xs (Z.to_nat pos)) as [x Hx]; [lia|].
    exists (ptr_add d pos), x. split; [done|]. split; [done|].
    rewrite <- (Z2Nat.id pos) by lia. split; [by eapply read_elem|].
    intros y.
    destruct (write_elem w this d xs cap (Z.to_nat pos) y Hrep ltac:(lia))
      as (w2 & Hw & Hrep2 & _).
    exists w2. rewrite Nat2Z.id. split; [done|]. by exists d.
Qed.

(** C6. [front], [back] and [pop_back] fail with [container_is_empty]
    exactly when the size is 0, and the store is then the one the call
    started from. On a non-empty container [front] returns a reference to
    element 0 and [back] one to element [size - 1], without touching the
    store, and [pop_back] removes the last element: the size decreases by 1
    and the other elements, and the capacity, stay as they were. *)
Theorem empty_container_access w this xs cap :
  repr w this xs cap →
  (vector.front this w = Throw container_is_empty w ↔ length xs = 0%nat)
  ∧ (vector.back this w = Throw container_is_empty w ↔ length xs = 0%nat)
  ∧ (vector.pop_back this w = Throw container_is_empty w
     ↔ length xs = 0%nat)
  ∧ (∀ ys y, xs = ys ++ [y] →
       (∃ p x, vector.front this w = Ret p w
               ∧ xs !! 0%nat = Some x ∧ read p w = Ret x w)
       ∧ (∃ p, vector.back this w = Ret p w ∧ read p w = Ret y w)
       ∧ (∃ w', vector.pop_back this w = Ret tt w'
                ∧ repr w' this ys cap
                ∧ vector.size this w'
                  = Ret (Z.of_nat (length xs) - 1) w')).
Proof.
  intros [d Hrep].
  rewrite (front_ok _ _ _ _ _ Hrep), (back_ok _ _ _ _ _ Hrep).
  destruct (list_snoc_case xs) as [->|(ys & y & ->)].
  - rewrite (pop_back_empty _ _ _ _ Hrep). simpl.
    split; [done|]. split; [done|]. split; [done|].
    intros ys y Hxs. by destruct ys.
  - destruct (pop_back_ok w this d ys y cap Hrep) as (w' & Hpop & Hrep' & _).
    rewrite Hpop. rewrite length_app. simpl.
    destruct (Z.eqb_spec (Z.of_nat (length ys + 1)) 0) as [?|_]; [lia|].
    split; [split; [done|lia]|]. split; [split; [done|lia]|].
    split; [split; [done|lia]|].
    intros ys' y' Hxs. apply app_inj_tail in Hxs as [<- <-].
    split; [|split].
    + destruct (lookup_lt_is_Some_2 (ys ++ [y]) 0) as [x Hx];
        [rewrite length_app; simpl; lia|].
      exists (ptr_add d 0), x. split; [done|]. split; [done|].
      by eapply (read_elem _ _ _ _ _ 0%nat).
    + exists (ptr_add d (Z.of_nat (length ys + 1) - 1)). split; [done|].
      replace (Z.of_nat (length ys + 1) - 1) with (Z.of_nat (length ys))
        by lia.
      eapply read_elem; [exact Hrep|].
      by rewrite lookup_app_r, Nat.sub_diag by lia.
    + exists w'. split; [done|]. split; [by exists d|].
      rewrite (size_ok _ _ _ _ _ Hrep'). do 2 f_equal. lia.
Qed.

Lemma push_back_room w this d xs cap r v :
  repr_at w this d xs cap → deref r w = Ret v w →
  Z.of_nat (length xs) < cap →
  ∃ w', vector.push_back this r w = Ret tt w'
        ∧ repr_at w' this d (xs ++ [v]) cap.
Proof.
  intros (Hobj & Hcap & Hbuf) Hread Hroom.
  destruct d as [|b o]; simpl in Hbuf.
  { destruct Hbuf as [_ ->]. lia. }
  destruct Hbuf as [-> Hb].
  unfold vector.push_back.
  rewrite (bind_Ret _ _ _ _ _ (get_obj_Ret _ _ _ Hobj)). simpl.
  destruct (Z.leb_spec cap (Z.of_nat (length xs))) as [?|_]; [lia|].
  rewrite (bind_Ret _ _ _ tt w) by done.
  rewrite (bind_Ret _ _ _ _ _ (get_obj_Ret _ _ _ Hobj)). simpl.
  rewrite (bind_Ret _ _ _ v w) by exact Hread.
  destruct (Z.to_nat cap - length xs)%nat as [|k] eqn:Hk; [lia|].
  erewrite bind_Ret; [|eapply construct_cells; [exact Hb|lia]].
  erewrite set_size_Ret; [|exact Hobj]. simpl.
  rewrite to_size_t_small by (unfold is_size_t, SIZE_MAX in *; lia).
  eexists. split; [done|]. split; [|split]; simpl.
  - rewrite lookup_insert_eq. rewrite length_app. simpl. do 3 f_equal. lia.
  - rewrite length_app. simpl. lia.
  - split; [done|]. rewrite lookup_insert_eq. rewrite length_app. simpl.
    do 2 f_equal. lia.
Qed.

(** A call of one of the five mutating member functions that returns or
    throws, whatever its arguments, leaves the capacity as it was or, if it
    found the buffer full, at the grown capacity. *)
Lemma call_capacity this w w' u :
  objs w !! this = Some u →
  (∃ r, outcome_world (vector.push_back this r w) = Some w')
  ∨ (∃ ir r, outcome_world (vector.insert this ir r w) = Some w')
  ∨ (∃ ir, outcome_world (vector.erase this ir w) = Some w')
  ∨ outcome_world (vector.pop_back this w) = Some w'
  ∨ outcome_world (vector.clear this w) = Some w' →
  ∃ u', objs w' !! this = Some u'
    ∧ (capacity_ u' = capacity_ u
       ∨ capacity_ u <= size_ u ∧ capacity_ u' = grown (capacity_ u)).
Proof.
  intros Hu H.
  assert (∀ u', objs w' = <[this := u']> (objs w) →
                objs w' !! this = Some u') as Hlook
    by (intros u' ->; apply lookup_insert_eq).
  destruct H as [[r H]|[(ir & r & H)|[[ir H]|[H|H]]]].
  - destruct (vector.push_back this r w) as [a w1|e w1|] eqn:Hrun; [| |done];
      injection H as ->.
    + destruct (push_back_footprint _ _ _ _ _ _ Hrun Hu)
        as (u' & Ho & _ & _ & Hc).
      exists u'. split; [by apply Hlook|]. rewrite Hc.
      destruct (Z.leb_spec (capacity_ u) (size_ u)); [by right|by left].
    + by apply nothrow_push_back in Hrun.
  - destruct (vector.insert this ir r w) as [a w1|e w1|] eqn:Hrun; [| |done];
      injection H as ->.
    + destruct (insert_footprint _ _ _ _ _ _ _ Hrun Hu)
        as (u' & Ho & _ & _ & Hc).
      exists u'. split; [by apply Hlook|]. rewrite Hc.
      destruct (Z.leb_spec (capacity_ u) (size_ u)); [by right|by left].
    + apply insert_throw_inv in Hrun as (_ & -> & _). exists u. by split; [|left].
  - destruct (vector.erase this ir w) as [a w1|e w1|] eqn:Hrun; [| |done];
      injection H as ->.
    + destruct (erase_footprint _ _ _ _ _ _ Hrun Hu) as (u' & Ho & _ & _ & Hc).
      exists u'. split; [by apply Hlook|by left].
    + apply erase_throw_inv in Hrun as (_ & -> & _). exists u. by split; [|left].
  - destruct (vector.pop_back this w) as [a w1|e w1|] eqn:Hrun; [| |done];
      injection H as ->.
    + destruct (pop_back_footprint _ _ _ _ _ Hrun Hu) as (u' & Ho & _ & _ & Hc).
      exists u'. split; [by apply Hlook|by left].
    + apply pop_back_throw in Hrun as (_ & -> & _). exists u. by split; [|left].
  - destruct (vector.clear this w) as [a w1|e w1|] eqn:Hrun; [| |done];
      injection H as ->.
    + destruct (clear_footprint _ _ _ _ _ Hrun Hu) as (u' & Ho & _ & _ & Hc).
      exists u'. split; [by apply Hlook|by left].
    + by apply nothrow_clear in Hrun.
Qed.

(** C7 (amended). When [push_back], with a value that is no element of the
    container itself, or [insert], with an index that is no element of the
    container itself and any value, finds the buffer full, the capacity it
    adopts is [max(1, 2 * capacity)] (the doubled capacity being a
    [size_t]); with room left they keep the capacity. [erase], with such an
    index, [pop_back] and [clear] leave the capacity unchanged, whether they
    return or throw. Whatever their arguments, a call of one of these five
    functions that returns or throws does not lower the capacity. Copy
    assignment from another container sets the capacity to the source's
    size, whatever the capacity was. *)
Theorem capacity_policy w this xs cap :
  repr w this xs cap →
  (cap <= Z.of_nat (length xs) → 2 * cap <= SIZE_MAX →
     (∀ r v, outside w this r v →
        ∃ w', vector.push_back this r w = Ret tt w'
              ∧ repr w' this (xs ++ [v]) (Z.max 1 (2 * cap)))
     ∧ (∀ ir ind r v, index_outside w this ir ind → deref r w = Ret v w →
          0 <= ind <= Z.of_nat (length xs) →
          ∃ w' it, vector.insert this ir r w = Ret it w'
            ∧ repr w' this
                (take (Z.to_nat ind) xs ++ v :: drop (Z.to_nat ind) xs)
                (Z.max 1 (2 * cap))))
  ∧ (Z.of_nat (length xs) < cap →
     (∀ r v, deref r w = Ret v w →
        ∃ w', vector.push_back this r w = Ret tt w'
              ∧ repr w' this (xs ++ [v]) cap)
     ∧ (∀ ir ind r v, index_outside w this ir ind → deref r w = Ret v w →
          0 <= ind <= Z.of_nat (length xs) →
          ∃ w' it xs', vector.insert this ir r w = Ret it w'
                       ∧ length xs' = S (length xs)
                       ∧ repr w' this xs' cap))
  ∧ (∀ ir ind, index_outside w this ir ind → is_size_t ind →
       ∃ w' xs', outcome_world (vector.erase this ir w) = Some w'
                 ∧ repr w' this xs' cap)
  ∧ (∃ w' xs', outcome_world (vector.pop_back this w) = Some w'
               ∧ repr w' this xs' cap)
  ∧ (∃ w', vector.clear this w = Ret tt w' ∧ repr w' this [] cap)
  ∧ ((cap <= Z.of_nat (length xs) → 2 * cap <= SIZE_MAX) →
     ∀ w', (∃ r, outcome_world (vector.push_back this r w) = Some w')
           ∨ (∃ ir r, outcome_world (vector.insert this ir r w) = Some w')
           ∨ (∃ ir, outcome_world (vector.erase this ir w) = Some w')
           ∨ outcome_world (vector.pop_back this w) = Some w'
           ∨ outcome_world (vector.clear this w) = Some w' →
           ∃ u', objs w' !! this = Some u' ∧ cap <= capacity_ u')
  ∧ (∀ other ys c, wf_world w → other ≠ this → repr w other ys c →
       ∃ w', vector.operator_assign this other w = Ret this w'
             ∧ repr w' this ys (Z.of_nat (length ys))).
Proof.
  intros [d Hrep]. pose proof Hrep as (Hobj & Hcap & _).
  split; [|split; [|split; [|split; [|split; [|split]]]]].
  - intros Hfull Hdbl. split.
    + intros r v Hout.
      destruct (push_back_ok w this d xs cap r v Hrep Hout (λ _, Hdbl))
        as (w' & d' & Hrun & Hrep' & _).
      destruct (Z.leb_spec cap (Z.of_nat (length xs))); [|lia].
      rewrite grown_spec in Hrep' by lia. exists w'. split; [done|].
      by exists d'.
    + intros ir ind r v Hidx Hread Hind.
      rewrite (insert_index_outside _ _ _ _ _ Hidx).
      destruct (insert_grow w this d xs cap (Z.to_nat ind) r v Hrep Hread
                  ltac:(lia) Hfull Hdbl) as (w' & bn & _ & Hrun & Hrep' & _).
      rewrite Z2Nat.id in Hrun by lia.
      rewrite grown_spec in Hrep' by lia. eexists w', _.
      split; [done|]. by exists (Ptr bn 0).
  - intros Hroom. split.
    + intros r v Hread.
      destruct (push_back_room w this d xs cap r v Hrep Hread Hroom)
        as (w' & Hrun & Hrep').
      exists w'. split; [done|]. by exists d.
    + intros ir ind r v Hidx Hread Hind.
      rewrite (insert_index_outside _ _ _ _ _ Hidx).
      destruct (insert_in_place w this d xs cap (Z.to_nat ind) r v Hrep Hread
                  ltac:(lia) Hroom) as (w' & y & Hrun & Hrep' & _).
      rewrite Z2Nat.id in Hrun by lia.
      eexists w', _, (take (Z.to_nat ind) xs ++ y :: drop (Z.to_nat ind) xs).
      split; [done|]. split; [apply inserted_length; lia|by exists d].
  - intros ir ind Hidx [Hind0 _].
    rewrite (erase_index_outside _ _ _ _ Hidx).
    destruct (Z.lt_ge_cases ind (Z.of_nat (length xs))) as [Hlt|Hge].
    + destruct (erase_ok w this d xs cap (Z.to_nat ind) Hrep ltac:(lia))
        as (w' & Hrun & Hrep' & _).
      rewrite Z2Nat.id in Hrun by lia. rewrite Hrun.
      eexists w', _. split; [done|]. by exists d.
    + rewrite (erase_throw _ _ _ _ _ _ Hrep Hge).
      exists w, xs. split; [done|]. by exists d.
  - destruct (list_snoc_case xs) as [->|(ys & y & ->)].
    + rewrite (pop_back_empty _ _ _ _ Hrep).
      exists w, []. split; [done|]. by exists d.
    + destruct (pop_back_ok w this d ys y cap Hrep) as (w' & -> & Hrep' & _).
      exists w', ys. split; [done|]. by exists d.
  - destruct (clear_ok w this d xs cap Hrep) as (w' & Hrun & Hrep' & _).
    exists w'. split; [done|]. by exists d.
  - intros Hdbl w' Hcall.
    destruct (call_capacity this w w' _ Hobj Hcall) as (u' & Hu' & Hc).
    exists u'. split; [done|]. simpl in Hc.
    destruct Hc as [->|[Hfull ->]]; [lia|].
    apply grown_ge; [lia|]. apply Hdbl. lia.
  - intros other ys c Hwf Hne [d2 Hother].
    destruct (operator_assign_ok w this other d xs cap d2 ys c Hwf Hrep
                Hother ltac:(done)) as (w' & d' & Hrun & Hrep' & _).
    exists w'. split; [done|]. by exists d'.
Qed.

(** C8 (amended). Cursor subtraction, for the mutable and for the read-only
    cursor, fails with [invalid_iterator] exactly when the two cursors carry
    different origin containers. For two cursors of one origin into one
    buffer it returns their signed slot distance converted to [int], which
    is the distance itself whenever that lies between [INT_MIN] and
    [INT_MAX]; in particular [end() - begin()] is [size()] on every
    container of at most [INT_MAX] elements. *)
Theorem cursor_difference (a c : iterator) (ca cc : const_iterator)
    blk (oa oc : Z) (org : option loc) w this xs cap :
  repr w this xs cap → Z.of_nat (length xs) <= INT_MAX →
  (iterator_ops.sub a c = Raise invalid_iterator ↔ vec_ a ≠ vec_ c)
  ∧ (const_iterator_ops.sub ca cc = Raise invalid_iterator
     ↔ cvec_ ca ≠ cvec_ cc)
  ∧ iterator_ops.sub (Iter (Ptr blk oa) org) (Iter (Ptr blk oc) org)
    = Ok (to_int (oa - oc))
  ∧ const_iterator_ops.sub (CIter (Ptr blk oa) org) (CIter (Ptr blk oc) org)
    = Ok (to_int (oa - oc))
  ∧ (INT_MIN <= oa - oc <= INT_MAX → to_int (oa - oc) = oa - oc)
  ∧ (∃ e s, vector.end_ this w = Ret e w ∧ vector.begin_ this w = Ret s w
            ∧ iterator_ops.sub e s = Ok (Z.of_nat (length xs)))
  ∧ (∃ e s, vector.cend this w = Ret e w ∧ vector.cbegin this w = Ret s w
            ∧ const_iterator_ops.sub e s = Ok (Z.of_nat (length xs))).
Proof.
  intros [d Hrep] Hsz.
  assert (ptr_diff (ptr_add d (Z.of_nat (length xs))) d
          = Some (Z.of_nat (length xs))) as Hdiff.
  { destruct d as [|b o]; simpl.
    - destruct Hrep as (_ & _ & [-> _]). done.
    - rewrite decide_True by done. f_equal. lia. }
  assert (to_int (Z.of_nat (length xs)) = Z.of_nat (length xs)) as Hint.
  { apply to_int_small. unfold INT_MIN. lia. }
  split; [|split; [|split; [|split; [|split; [|split]]]]].
  - unfold iterator_ops.sub. case_decide as Hv; [|by split].
    split; [|intros Hne; exfalso; by apply Hne].
    destruct (ptr_diff (ptr_ a) (ptr_ c)); intros Heq; discriminate Heq.
  - unfold const_iterator_ops.sub. case_decide as Hv; [|by split].
    split; [|intros Hne; exfalso; by apply Hne].
    destruct (ptr_diff (cptr_ ca) (cptr_ cc)); intros Heq; discriminate Heq.
  - unfold iterator_ops.sub. simpl. by rewrite !decide_True by done.
  - unfold const_iterator_ops.sub. simpl. by rewrite !decide_True by done.
  - apply to_int_small.
  - eexists _, _. split; [apply (end_ok _ _ _ _ _ Hrep)|].
    split; [apply (begin_ok _ _ _ _ _ Hrep)|].
    unfold iterator_ops.sub. simpl. rewrite decide_True by done.
    by rewrite Hdiff, Hint.
  - eexists _, _. split; [apply (end_ok _ _ _ _ _ Hrep)|].
    split; [apply (begin_ok _ _ _ _ _ Hrep)|].
    unfold const_iterator_ops.sub. simpl. rewrite decide_True by done.
    by rewrite Hdiff, Hint.
Qed.


(** C10. Copy assignment of a container to itself returns at once: the
    store, and with it the element sequence, the size and the capacity of
    the container, is the one the call started from. *)
Theorem self_assignment w this :
  vector.operator_assign this this w = Ret this w.
Proof. unfold vector.operator_assign. by rewrite decide_True. Qed.

(** ** Memory *)

Lemma free_buf_lookup_Some d h b l :
  free_buf d h !! b = Some l ↔ h !! b = Some l ∧ ∀ o, d ≠ Ptr b o.
Proof.
  destruct d as [|b' o']; simpl.
  - split; [intros ?; by split|by intros [? _]].
  - rewrite lookup_delete_Some. split.
    + intros [Hne Hl]. split; [done|]. intros o [= ->]. done.
    + intros [Hl Hne]. split; [|done]. intros ->. by eapply Hne.
Qed.

Lemma ptr_block_cases d b : (∃ o, d = Ptr b o) ∨ (∀ o, d ≠ Ptr b o).
Proof.
  destruct d as [|b' o']; [by right|].
  destruct (decide (b' = b)) as [->|Hne]; [left; eauto|right].
  intros o [= ? _]. done.
Qed.

Lemma no_garbage_step this w w' u u' :
  no_garbage w → objs w !! this = Some u →
  objs w' = <[this := u']> (objs w) →
  free_buf (data_ u') (heap w') = free_buf (data_ u) (heap w) →
  no_garbage w'.
Proof.
  intros Hng Hu Ho Hh b [l Hl].
  destruct (ptr_block_cases (data_ u') b) as [[o Hd]|Hnot].
  { exists this, u', o. split; [|done]. rewrite Ho. apply lookup_insert_eq. }
  assert (free_buf (data_ u') (heap w') !! b = Some l) as Hl'.
  { by apply free_buf_lookup_Some. }
  rewrite Hh in Hl'. apply free_buf_lookup_Some in Hl' as [Hlw Hne].
  destruct (Hng b) as (o & v & off & Hv & Hd); [eauto|].
  exists o, v, off. split; [|done]. rewrite Ho.
  rewrite lookup_insert_ne; [done|]. intros <-. rewrite Hu in Hv.
  injection Hv as <-. by eapply Hne.
Qed.

Lemma no_garbage_footprint this w w' :
  no_garbage w → is_Some (objs w !! this) → footprint this w w' →
  no_garbage w'.
Proof.
  intros Hng [u Hu] Hfp. destruct (Hfp u Hu) as (u' & Ho & Hh).
  by eapply no_garbage_step.
Qed.

Lemma no_garbage_new this w w' u' :
  no_garbage w → objs w' = <[this := u']> (objs w) →
  objs w !! this = None →
  free_buf (data_ u') (heap w') = heap w →
  no_garbage w'.
Proof.
  intros Hng Ho Hnone Hh b [l Hl].
  destruct (ptr_block_cases (data_ u') b) as [[o Hd]|Hnot].
  { exists this, u', o. split; [|done]. rewrite Ho. apply lookup_insert_eq. }
  assert (free_buf (data_ u') (heap w') !! b = Some l) as Hl'.
  { by apply free_buf_lookup_Some. }
  rewrite Hh in Hl'.
  destruct (Hng b) as (o & v & off & Hv & Hd); [eauto|].
  exists o, v, off. split; [|done]. rewrite Ho.
  rewrite lookup_insert_ne; [done|]. intros <-. congruence.
Qed.

(** A sequence of mutations of a well-formed container is defined. *)
Lemma mutate_all_ok ms : ∀ w a d xs cap,
  repr_at w a d xs cap → Forall mutation_ok ms →
  2 * (Z.of_nat (length xs) + Z.of_nat (length ms)) <= SIZE_MAX →
  ∃ w' d' xs' cap', mutate_all a ms w = Some w' ∧ repr_at w' a d' xs' cap'.
Proof.
  induction ms as [|m ms IH]; intros w a d xs cap Hrep Hms Hlen; simpl.
  - by exists w, d, xs, cap.
  - apply Forall_cons in Hms as [Hm Hms]. simpl in Hlen.
    pose proof Hrep as (_ & Hcap & _).
    destruct (mutate_ok w a d xs cap m Hrep Hm)
      as (w1 & Hrun & Hfr & d1 & xs1 & cap1 & Hrep1 & Hlen1).
    { intros Hfull. lia. }
    rewrite Hrun. apply (IH w1 a d1 xs1 cap1 Hrep1 Hms). lia.
Qed.

Lemma vector_destroy_ok w this d xs cap :
  repr_at w this d xs cap →
  vector.vector_destroy this w
  = Ret tt (World (free_buf d (heap w)) (delete this (objs w))).
Proof.
  intros (Hobj & Hcap & Hbuf). unfold vector.vector_destroy.
  rewrite (bind_Ret _ _ _ _ _ (get_obj_Ret _ _ _ Hobj)). simpl.
  destruct (release_buffer w d xs cap Hbuf) as (w1 & Hloop & Hdel).
  rewrite (bind_Ret _ _ _ _ _ Hloop). by rewrite (bind_Ret _ _ _ _ _ Hdel).
Qed.


Lemma wf_world_destroyed w this d xs cap :
  wf_world w → repr_at w this d xs cap →
  wf_world (World (free_buf d (heap w)) (delete this (objs w)))
  ∧ ∀ other dy ys c, other ≠ this → repr_at w other dy ys c →
      repr_at (World (free_buf d (heap w)) (delete this (objs w))) other dy ys c.
Proof.
  intros Hwf Hrep.
  assert (∀ other dy ys c, other ≠ this → repr_at w other dy ys c →
            repr_at (World (free_buf d (heap w)) (delete this (objs w)))
              other dy ys c) as Hkeep.
  { intros other dy ys c Hne Hother.
    pose proof (wf_world_sep _ _ _ _ _ _ _ _ _ Hwf Hother Hrep Hne) as Hsep.
    destruct Hother as (Ho & Hc & Hb). split; [|split; [done|]]; simpl.
    - by rewrite lookup_delete_ne.
    - eapply buffer_frame; [exact Hb|]. intros b o l -> Hl.
      apply free_buf_lookup_Some. split; [done|]. intros o'. by eapply Hsep. }
  split; [|done]. split; simpl.
  - intros o v Hv. apply lookup_delete_Some in Hv as [Hne Hv].
    destruct (wf_world_repr _ _ _ Hwf Hv) as (ys & Hry).
    destruct (Hkeep o _ _ _ ltac:(done) Hry) as (_ & Hc & Hb).
    destruct Hry as (Hov & _ & _). rewrite Hv in Hov. injection Hov as Heq.
    exists ys. split; [by rewrite Heq|by split].
  - intros o1 o2 v1 v2 b off1 off2 Hv1 Hv2.
    apply lookup_delete_Some in Hv1 as [_ Hv1].
    apply lookup_delete_Some in Hv2 as [_ Hv2].
    destruct Hwf as [_ Hsh]. by apply Hsh.
Qed.


Lemma read_freed w d i :
  (∀ b o, d = Ptr b o → heap w !! b = None) →
  read (ptr_add d i) w = Undef.
Proof.
  intros Hfree. destruct d as [|b o]; simpl; [done|].
  unfold read. simpl. rewrite (Hfree b o eq_refl). by case_decide.
Qed.

(** Two runs from one store that leave the container in the same abstract
    state, each within the container's own part of the store, leave the
    same store. *)
Lemma same_store this w w1 w2 u d xs cap :
  objs w !! this = Some u →
  footprint this w w1 → footprint this w w2 →
  repr_at w1 this d xs cap → repr_at w2 this d xs cap →
  w1 = w2.
Proof.
  intros Hu Hf1 Hf2 (Ho1 & _ & Hb1) (Ho2 & _ & Hb2).
  destruct (Hf1 u Hu) as (u1 & Hobjs1 & Hh1).
  destruct (Hf2 u Hu) as (u2 & Hobjs2 & Hh2).
  rewrite Hobjs1, lookup_insert_eq in Ho1. injection Ho1 as ->.
  rewrite Hobjs2, lookup_insert_eq in Ho2. injection Ho2 as ->.
  simpl in *. rewrite <- Hh2 in Hh1. clear Hh2.
  destruct w1 as [h1 o1], w2 as [h2 o2]. simpl in *. subst o1 o2. f_equal.
  destruct d as [|b o]; simpl in *; [done|].
  destruct Hb1 as [_ Hb1], Hb2 as [_ Hb2]. apply map_eq. intros k.
  destruct (decide (k = b)) as [->|Hne]; [congruence|].
  apply (f_equal (λ m, m !! k)) in Hh1. by rewrite !lookup_delete_ne in Hh1.
Qed.

Lemma no_garbage_destroyed w this d xs cap :
  no_garbage w → repr_at w this d xs cap →
  no_garbage (World (free_buf d (heap w)) (delete this (objs w))).
Proof.
  intros Hng (Hobj & _) b [l Hl]. simpl in Hl.
  apply free_buf_lookup_Some in Hl as [Hl Hne].
  destruct (Hng b) as (o & v & off & Hv & Hd); [eauto|].
  exists o, v, off. split; [|done]. simpl.
  rewrite lookup_delete_ne; [done|]. intros <-.
  rewrite Hobj in Hv. injection Hv as <-. by eapply Hne.
Qed.

(** ** Lifetime, store invariant, exceptions *)

Lemma lifetime_end w w1 w2 this ms u1 d xs cap :
  objs w !! this = None → objs w1 = <[this := u1]> (objs w) →
  free_buf (data_ u1) (heap w1) = heap w →
  mutate_all this ms w1 = Some w2 → repr_at w2 this d xs cap →
  vector.vector_destroy this w2 = Ret tt w.
Proof.
  intros Hnone Ho1 Hh1 Hrun Hrep2.
  rewrite (vector_destroy_ok _ _ _ _ _ Hrep2).
  destruct (mutate_all_footprint _ _ _ _ Hrun u1)
    as (u2 & Ho2 & Hh2); [rewrite Ho1; apply lookup_insert_eq|].
  destruct Hrep2 as (Hobj2 & _ & _).
  rewrite Ho2, lookup_insert_eq in Hobj2. injection Hobj2 as ->.
  simpl in Hh2. rewrite Hh2, Hh1, Ho2, Ho1, insert_insert_eq.
  rewrite delete_insert_id by done. by rewrite world_eta.
Qed.

(** X3. A container's whole life leaves no trace: construction at an address
    that holds no object, by the default constructor or as a copy of a
    container of a well-formed store, then any sequence of mutations
    called with temporaries or variables of the caller as arguments, no
    elements of a container (each call in a [try] block of its own), then
    destruction, all are defined and the store at the end is the store at
    the start, the heap included: no buffer is leaked. The sequence is
    short enough for the doubled sizes to stay a [size_t]. *)
Theorem lifetime_restores_store w this ms :
  objs w !! this = None → Forall mutation_ok ms →
  (2 * Z.of_nat (length ms) <= SIZE_MAX →
   ∃ w1 w2, vector.vector_default this w = Ret tt w1
     ∧ mutate_all this ms w1 = Some w2
     ∧ vector.vector_destroy this w2 = Ret tt w)
  ∧ (∀ other xs cap, wf_world w → repr w other xs cap →
       2 * (Z.of_nat (length xs) + Z.of_nat (length ms)) <= SIZE_MAX →
       ∃ w1 w2, vector.vector_copy this other w = Ret tt w1
         ∧ mutate_all this ms w1 = Some w2
         ∧ vector.vector_destroy this w2 = Ret tt w).
Proof.
  intros Hnone Hms. split.
  - intros Hlen.
    destruct (vector_default_ok w this) as (w1 & Hdef & Hrep1 & _).
    destruct (mutate_all_ok ms w1 this Null [] 0 Hrep1 Hms)
      as (w2 & d2 & xs2 & cap2 & Hrun & Hrep2); [simpl; lia|].
    exists w1, w2. split; [done|]. split; [done|].
    apply vector_default_footprint in Hdef as [Ho1 Hh1].
    by eapply (lifetime_end w w1 w2 this ms (Vec Null 0 0)).
  - intros other xs cap Hwf [d Hother] Hlen.
    destruct (vector_copy_ok w this other d xs cap Hwf Hother Hnone)
      as (w1 & d1 & Hcopy & Hrep1 & _).
    destruct (mutate_all_ok ms w1 this d1 xs _ Hrep1 Hms Hlen)
      as (w2 & d2 & xs2 & cap2 & Hrun & Hrep2).
    exists w1, w2. split; [done|]. split; [done|].
    apply vector_copy_footprint in Hcopy as (u1 & Ho1 & Hh1).
    by eapply (lifetime_end w w1 w2 this ms u1).
Qed.

(** X4. [~vector()] on a container of a well-formed store returns. Afterwards
    the object is gone and its buffer is deallocated, so that reading
    through a cursor obtained before is undefined; every other container
    has the elements and the capacity it had, the store is well formed, and
    if every buffer belonged to a container before, this is still so. *)
Theorem destructor_spec w this xs cap :
  wf_world w → repr w this xs cap →
  ∃ w' s, vector.begin_ this w = Ret s w
    ∧ vector.vector_destroy this w = Ret tt w'
    ∧ objs w' !! this = None
    ∧ (∀ i, read (ptr_add (ptr_ s) i) w' = Undef)
    ∧ (∀ other ys c, other ≠ this → repr w other ys c → repr w' other ys c)
    ∧ wf_world w'
    ∧ (no_garbage w → no_garbage w').
Proof.
  intros Hwf [d Hrep].
  destruct (wf_world_destroyed w this d xs cap Hwf Hrep) as [Hwf' Hkeep].
  eexists _, _. split; [apply (begin_ok _ _ _ _ _ Hrep)|].
  split; [by eapply vector_destroy_ok|]. simpl.
  split; [apply lookup_delete_eq|]. split; [|split; [|split; [done|]]].
  - intros i. apply read_freed. intros b o ->. simpl. apply lookup_delete_eq.
  - intros other ys c Hne [dy Hother]. exists dy. by apply Hkeep.
  - intros Hng. by eapply no_garbage_destroyed.
Qed.


(** X5. In a well-formed store where every allocated buffer is the buffer of a
    live container, each of these operations is defined and leaves such a
    store: default construction and copy construction at a free address,
    copy assignment, destruction, and any sequence of mutations called
    with temporaries or variables of the caller as arguments, no elements
    of a container (the sequence short enough for the doubled sizes to
    stay a [size_t]). In such a store the heap is empty as soon as no
    container is left. *)
Theorem tidy_store_kept w :
  wf_world w → no_garbage w →
  (objs w = ∅ → heap w = ∅)
  ∧ (∀ this, objs w !! this = None →
       ∃ w', vector.vector_default this w = Ret tt w'
             ∧ wf_world w' ∧ no_garbage w')
  ∧ (∀ this other, objs w !! this = None → is_Some (objs w !! other) →
       ∃ w', vector.vector_copy this other w = Ret tt w'
             ∧ wf_world w' ∧ no_garbage w')
  ∧ (∀ this other, is_Some (objs w !! this) → is_Some (objs w !! other) →
       ∃ w', vector.operator_assign this other w = Ret this w'
             ∧ wf_world w' ∧ no_garbage w')
  ∧ (∀ this u ms, objs w !! this = Some u → Forall mutation_ok ms →
       2 * (size_ u + Z.of_nat (length ms)) <= SIZE_MAX →
       ∃ w', mutate_all this ms w = Some w'
             ∧ wf_world w' ∧ no_garbage w')
  ∧ (∀ this, is_Some (objs w !! this) →
       ∃ w', vector.vector_destroy this w = Ret tt w'
             ∧ wf_world w' ∧ no_garbage w').
Proof.
  intros Hwf Hng. split; [|split; [|split; [|split; [|split]]]].
  - intros Hempty. apply map_empty. intros b.
    destruct (heap w !! b) as [l|] eqn:Hl; [|done].
    destruct (Hng b) as (o & v & off & Hv & _); [eauto|].
    rewrite Hempty in Hv. done.
  - intros this Hnone.
    destruct (vector_default_ok w this) as (w' & Hdef & Hrep & Hfr).
    exists w'. split; [done|].
    split; [by eapply wf_world_step|].
    apply vector_default_footprint in Hdef as [Ho Hh].
    by eapply (no_garbage_new this w w' (Vec Null 0 0)).
  - intros this other Hnone [v Hv].
    destruct (wf_world_repr _ _ _ Hwf Hv) as (xs & Hother).
    destruct (vector_copy_ok w this other _ xs _ Hwf Hother Hnone)
      as (w' & d' & Hrun & _ & _ & Hwf' & _).
    exists w'. split; [done|]. split; [done|].
    apply vector_copy_footprint in Hrun as (u' & Ho & Hh).
    by eapply no_garbage_new.
  - intros this other [u Hu] [v Hv].
    destruct (decide (this = other)) as [<-|Hne].
    { exists w. unfold vector.operator_assign. by rewrite decide_True. }
    destruct (wf_world_repr _ _ _ Hwf Hu) as (ys & Hthis).
    destruct (wf_world_repr _ _ _ Hwf Hv) as (xs & Hother).
    destruct (operator_assign_ok w this other _ ys _ _ xs _ Hwf Hthis Hother
                Hne) as (w' & d' & Hrun & _ & _ & Hwf' & _).
    exists w'. split; [done|]. split; [done|].
    eapply no_garbage_footprint; [done|by exists u|].
    by eapply operator_assign_footprint.
  - intros this u ms Hu Hms Hlen.
    destruct (wf_world_repr _ _ _ Hwf Hu) as (xs & Hrep).
    pose proof Hrep as (Hobj & _ & _). rewrite Hu in Hobj.
    injection Hobj as Hsz. rewrite Hsz in Hlen. simpl in Hlen.
    destruct (mutate_all_isolated ms w this _ xs _ Hwf Hrep Hms Hlen)
      as (w' & Hrun & Hwf' & _).
    exists w'. split; [done|]. split; [done|].
    eapply no_garbage_footprint; [done|by exists u|].
    by eapply mutate_all_footprint.
  - intros this [u Hu].
    destruct (wf_world_repr _ _ _ Hwf Hu) as (xs & Hrep).
    eexists. split; [by eapply vector_destroy_ok|].
    split; [by eapply wf_world_destroyed|by eapply no_garbage_destroyed].
Qed.


(** X6. The container throws before it changes anything, and only the
    documented exception: in any store whatever, a call that ends in an
    exception leaves the store it started from; the indexed accessors,
    [insert] and [erase] (by index or by cursor) throw nothing but
    [index_out_of_bound], [front], [back] and [pop_back] nothing but
    [container_is_empty]; the constructors, the destructor, copy
    assignment, [push_back], [clear], [size], [empty] and the four
    cursor-making functions throw nothing at all. *)
Theorem exceptions_leave_store w this e w' :
  (∀ f pos,
     In f [vector.at_; vector.at_const;
           vector.operator_index; vector.operator_index_const] →
     f this pos w = Throw e w' → e = index_out_of_bound ∧ w' = w)
  ∧ (vector.front this w = Throw e w' → e = container_is_empty ∧ w' = w)
  ∧ (vector.back this w = Throw e w' → e = container_is_empty ∧ w' = w)
  ∧ (vector.pop_back this w = Throw e w' → e = container_is_empty ∧ w' = w)
  ∧ (∀ ind r, vector.insert this ind r w = Throw e w' →
       e = index_out_of_bound ∧ w' = w)
  ∧ (∀ ind, vector.erase this ind w = Throw e w' →
       e = index_out_of_bound ∧ w' = w)
  ∧ (∀ pos r, vector.insert_at this pos r w = Throw e w' →
       e = index_out_of_bound ∧ w' = w)
  ∧ (∀ pos, vector.erase_at this pos w = Throw e w' →
       e = index_out_of_bound ∧ w' = w)
  ∧ (∀ r, vector.push_back this r w ≠ Throw e w')
  ∧ vector.clear this w ≠ Throw e w'
  ∧ vector.size this w ≠ Throw e w'
  ∧ vector.empty this w ≠ Throw e w'
  ∧ vector.begin_ this w ≠ Throw e w'
  ∧ vector.end_ this w ≠ Throw e w'
  ∧ vector.cbegin this w ≠ Throw e w'
  ∧ vector.cend this w ≠ Throw e w'
  ∧ vector.vector_default this w ≠ Throw e w'
  ∧ (∀ other, vector.vector_copy this other w ≠ Throw e w')
  ∧ (∀ other, vector.operator_assign this other w ≠ Throw e w')
  ∧ vector.vector_destroy this w ≠ Throw e w'.
Proof.
  assert (∀ pos, nothrow (vector.index_of (T := T) this pos)) as Hindex.
  { intros pos. unfold vector.index_of. nothrow_tac.
    destruct (ptr_diff _ _); nothrow_tac. }
  repeat split.
  - by eapply index_throw.
  - by eapply index_throw.
  - by apply front_throw in H as (? & _).
  - by apply front_throw in H as (_ & ? & _).
  - by apply back_throw in H as (? & _).
  - by apply back_throw in H as (_ & ? & _).
  - by apply pop_back_throw in H as (? & _).
  - by apply pop_back_throw in H as (_ & ? & _).
  - by apply insert_throw_inv in H as (? & _).
  - by apply insert_throw_inv in H as (_ & ? & _).
  - by apply erase_throw_inv in H as (? & _).
  - by apply erase_throw_inv in H as (_ & ? & _).
  - unfold vector.insert_at in H.
    apply bind_Throw_inv in H as [H|(i & w1 & _ & H)];
      [by apply Hindex in H|].
    by apply insert_throw_inv in H as (? & _).
  - unfold vector.insert_at in H.
    apply bind_Throw_inv in H as [H|(i & w1 & Hi & H)];
      [by apply Hindex in H|].
    apply insert_throw_inv in H as (_ & -> & _).
    unfold vector.index_of in Hi.
    apply bind_Ret_inv in Hi as (v & w0 & Hv & Hi).
    apply get_obj_inv in Hv as [-> _].
    destruct (ptr_diff _ _); [|done]. by injection Hi as _ <-.
  - unfold vector.erase_at in H.
    apply bind_Throw_inv in H as [H|(i & w1 & _ & H)];
      [by apply Hindex in H|].
    by apply erase_throw_inv in H as (? & _).
  - unfold vector.erase_at in H.
    apply bind_Throw_inv in H as [H|(i & w1 & Hi & H)];
      [by apply Hindex in H|].
    apply erase_throw_inv in H as (_ & -> & _).
    unfold vector.index_of in Hi.
    apply bind_Ret_inv in Hi as (v & w0 & Hv & Hi).
    apply get_obj_inv in Hv as [-> _].
    destruct (ptr_diff _ _); [|done]. by injection Hi as _ <-.
  - intros r. apply nothrow_push_back.
  - apply nothrow_clear.
  - apply nothrow_size.
  - apply nothrow_empty.
  - apply nothrow_begin.
  - apply nothrow_end.
  - apply nothrow_cbegin.
  - apply nothrow_cend.
  - apply nothrow_vector_default.
  - intros other. apply nothrow_vector_copy.
  - intros other. apply nothrow_operator_assign.
  - apply nothrow_vector_destroy.
Qed.


(** ** [clear], [size] and [empty] *)

Lemma read_raw w this d xs cap i :
  repr_at w this d xs cap → ¬ (0 <= i < Z.of_nat (length xs)) →
  read (ptr_add d i) w = Undef.
Proof.
  intros (_ & Hcap & Hbuf) Hi. destruct d as [|b o]; simpl in Hbuf; [done|].
  destruct Hbuf as [-> Hb]. unfold read. simpl. case_decide as H0; [|done].
  rewrite Hb. simpl.
  destruct (cells xs (Z.to_nat cap - length xs) !! Z.to_nat (0 + i))
    as [[x|]|] eqn:Hx; [|done|done].
  exfalso. apply Hi. split; [lia|].
  destruct (decide (Z.to_nat (0 + i) < length xs)%nat) as [|Hge]; [lia|].
  destruct (decide (Z.to_nat (0 + i)
                    < length xs + (Z.to_nat cap - length xs))%nat).
  - rewrite cells_lookup_raw in Hx by lia. done.
  - rewrite lookup_ge_None_2 in Hx; [done|]. rewrite length_cells. lia.
Qed.

(** X7. [clear()] returns on every container. Afterwards the container has no
    element and the capacity and the buffer it had: [size()] is 0,
    [empty()] is true, [begin()] is the cursor it was and equals [end()];
    no slot of the buffer holds an object any more, so reading through a
    reference or cursor obtained before is undefined. In a well-formed
    store the other containers are as they were. *)
Theorem clear_spec w this xs cap :
  repr w this xs cap →
  ∃ w' s, vector.clear this w = Ret tt w'
    ∧ repr w' this [] cap
    ∧ vector.size this w' = Ret 0 w'
    ∧ vector.empty this w' = Ret true w'
    ∧ vector.begin_ this w = Ret s w
    ∧ vector.begin_ this w' = Ret s w'
    ∧ vector.end_ this w' = Ret s w'
    ∧ (∀ i, read (ptr_add (ptr_ s) i) w' = Undef)
    ∧ (wf_world w →
       wf_world w'
       ∧ ∀ other ys c, other ≠ this → repr w other ys c → repr w' other ys c).
Proof.
  intros [d Hrep].
  destruct (clear_ok w this d xs cap Hrep) as (w' & Hrun & Hrep' & Hfr).
  exists w', (Iter d (Some this)). split; [done|]. split; [by exists d|].
  split; [apply (size_ok _ _ _ _ _ Hrep')|].
  split.
  { unfold vector.empty. destruct Hrep' as (Hobj & _).
    by rewrite (bind_Ret _ _ _ _ _ (get_obj_Ret _ _ _ Hobj)). }
  split; [apply (begin_ok _ _ _ _ _ Hrep)|].
  split; [apply (begin_ok _ _ _ _ _ Hrep')|].
  split.
  { rewrite (proj1 (end_ok _ _ _ _ _ Hrep')). simpl.
    destruct d; simpl; [done|]. do 3 f_equal. lia. }
  split.
  { intros i. simpl. eapply read_raw; [exact Hrep'|]. simpl. lia. }
  intros Hwf. split; [by eapply wf_world_step|].
  intros other ys c Hne [dy Hother]. exists dy.
  by eapply repr_at_other.
Qed.

(** X8. [size()] returns the number of elements and [empty()] tells whether
    there is none; neither touches the store. The container is empty
    exactly when [begin()] and [end()] compare equal, for the mutable and
    for the read-only cursors. *)
Theorem size_and_empty w this xs cap :
  repr w this xs cap →
  vector.size this w = Ret (Z.of_nat (length xs)) w
  ∧ vector.empty this w = Ret (bool_decide (xs = [])) w
  ∧ ∃ s e cs ce,
      vector.begin_ this w = Ret s w ∧ vector.end_ this w = Ret e w
      ∧ vector.cbegin this w = Ret cs w ∧ vector.cend this w = Ret ce w
      ∧ iterator_ops.eqb s e = bool_decide (xs = [])
      ∧ iterator_ops.neqb s e = negb (bool_decide (xs = []))
      ∧ const_iterator_ops.eqb cs ce = bool_decide (xs = [])
      ∧ const_iterator_ops.neqb cs ce = negb (bool_decide (xs = [])).
Proof.
  intros [d Hrep]. split; [by eapply size_ok|].
  assert (ptr_add d (Z.of_nat (length xs)) = d ↔ xs = []) as Hiff.
  { destruct Hrep as (_ & _ & Hbuf). destruct d as [|b o]; simpl in *.
    - by destruct Hbuf as [-> _].
    - split.
      + intros [= Heq]. destruct xs; [done|]. simpl in Heq. lia.
      + intros ->. simpl. f_equal. lia. }
  assert (bool_decide (d = ptr_add d (Z.of_nat (length xs)))
          = bool_decide (xs = [])) as Hdec.
  { apply bool_decide_ext. rewrite <- Hiff. split; intros; done. }
  split.
  { unfold vector.empty. pose proof Hrep as (Hobj & _).
    rewrite (bind_Ret _ _ _ _ _ (get_obj_Ret _ _ _ Hobj)). simpl.
    unfold ret. f_equal. by destruct xs. }
  eexists _, _, _, _.
  split; [apply (begin_ok _ _ _ _ _ Hrep)|].
  split; [apply (end_ok _ _ _ _ _ Hrep)|].
  split; [apply (begin_ok _ _ _ _ _ Hrep)|].
  split; [apply (end_ok _ _ _ _ _ Hrep)|].
  unfold iterator_ops.eqb, iterator_ops.neqb, const_iterator_ops.eqb,
    const_iterator_ops.neqb. simpl. by rewrite Hdec.
Qed.


(** ** Cursors *)

Lemma index_of_begin_plus w this d xs cap (pos : iterator) i :
  repr_at w this d xs cap → 0 <= i <= Z.of_nat (length xs) →
  ptr_ pos = ptr_add d i →
  vector.index_of this pos w = Ret i w.
Proof.
  intros (Hobj & Hcap & Hbuf) Hi Hpos. unfold vector.index_of.
  rewrite (bind_Ret _ _ _ _ _ (get_obj_Ret _ _ _ Hobj)). simpl.
  rewrite Hpos.
  assert (ptr_diff (ptr_add d i) d = Some i) as ->.
  { destruct d as [|b o]; simpl in *.
    - destruct Hbuf as [-> _]. simpl in Hi. f_equal. lia.
    - rewrite decide_True by done. f_equal. lia. }
  rewrite to_size_t_small by (unfold is_size_t; lia). done.
Qed.

(** X9. The cursor overloads [insert(pos, value)] and [erase(pos)] are the
    index overloads at the index of the slot [pos] designates: for a cursor
    [i] slots after [begin()], [0 <= i <= size], whatever origin it
    carries, they do what [insert(i, value)] and [erase(i)] do, outcome and
    store. In particular [erase(end())] throws [index_out_of_bound]. *)
Theorem cursor_overloads w this xs cap i r :
  repr w this xs cap → 0 <= i <= Z.of_nat (length xs) →
  ∃ s e, vector.begin_ this w = Ret s w ∧ vector.end_ this w = Ret e w
    ∧ (∀ pos, ptr_ pos = ptr_add (ptr_ s) i →
         vector.insert_at this pos r w = vector.insert this (ITemp i) r w
         ∧ vector.erase_at this pos w = vector.erase this (ITemp i) w)
    ∧ vector.erase_at this e w = Throw index_out_of_bound w.
Proof.
  intros [d Hrep] Hi. eexists _, _.
  split; [apply (begin_ok _ _ _ _ _ Hrep)|].
  split; [apply (end_ok _ _ _ _ _ Hrep)|]. simpl. split.
  - intros pos Hpos. unfold vector.insert_at, vector.erase_at.
    by rewrite !(bind_Ret _ _ _ _ _
                   (index_of_begin_plus _ _ _ _ _ _ _ Hrep Hi Hpos)).
  - unfold vector.erase_at.
    erewrite bind_Ret;
      [|eapply (index_of_begin_plus _ _ _ _ _ _ (Z.of_nat (length xs)));
        [exact Hrep|lia|done]].
    eapply erase_throw; [exact Hrep|lia].
Qed.

Lemma iter_pre_inc (n : nat) s :
  Nat.iter n iterator_ops.pre_inc s
  = Iter (ptr_add (ptr_ s) (Z.of_nat n)) (vec_ s).
Proof.
  induction n as [|n IH].
  - simpl. destruct s as [[|b o] v]; simpl; [done|]. do 2 f_equal. lia.
  - rewrite Nat.iter_succ, IH. unfold iterator_ops.pre_inc. simpl.
    rewrite ptr_add_add. do 2 f_equal. lia.
Qed.

Lemma iter_pre_dec (n : nat) s :
  Nat.iter n iterator_ops.pre_dec s
  = Iter (ptr_add (ptr_ s) (- Z.of_nat n)) (vec_ s).
Proof.
  induction n as [|n IH].
  - simpl. destruct s as [[|b o] v]; simpl; [done|]. do 2 f_equal. lia.
  - rewrite Nat.iter_succ, IH. unfold iterator_ops.pre_dec. simpl.
    rewrite ptr_add_add. do 2 f_equal. lia.
Qed.

Lemma iter_post_inc (n : nat) cs :
  Nat.iter n (λ c, snd (const_iterator_ops.post_inc c)) cs
  = CIter (ptr_add (cptr_ cs) (Z.of_nat n)) (cvec_ cs).
Proof.
  induction n as [|n IH].
  - simpl. destruct cs as [[|b o] v]; simpl; [done|]. do 2 f_equal. lia.
  - rewrite Nat.iter_succ, IH. simpl.
    rewrite ptr_add_add. do 2 f_equal. lia.
Qed.

Lemma elem_ptr_ne_end w this d xs cap (i : nat) :
  repr_at w this d xs cap → (i < length xs)%nat →
  ptr_add d (Z.of_nat i) ≠ ptr_add d (Z.of_nat (length xs)).
Proof.
  intros (_ & _ & Hbuf) Hi. destruct d as [|b o]; simpl in *.
  - destruct Hbuf as [-> _]. simpl in Hi. lia.
  - intros [= Heq]. lia.
Qed.

Lemma step_back p : ptr_add (ptr_add p 1) (- 1) = p.
Proof. destruct p as [|b o]; simpl; [done|]. f_equal. lia. Qed.

(** X10. Walking a container forwards: [begin()] advanced [i] times by [++]
    differs from [end()] for every [i < size], carries the container as
    its origin, designates the object [operator[]] returns for [i], and
    reads as element [i]; the postfix [++] returns the cursor as it was and
    advances it as the prefix one does, and [--], prefix or postfix, leads
    back from the next position. Advanced [size] times the cursor equals
    [end()], and reading through [end()] is undefined. *)
Theorem forward_traversal w this xs cap :
  repr w this xs cap →
  ∃ s e, vector.begin_ this w = Ret s w ∧ vector.end_ this w = Ret e w
    ∧ (∀ (i : nat) x, xs !! i = Some x →
         let it := Nat.iter i iterator_ops.pre_inc s in
         let next := Nat.iter (S i) iterator_ops.pre_inc s in
         iterator_ops.neqb it e = true
         ∧ iterator_ops.eqb it e = false
         ∧ vec_ it = Some this
         ∧ vector.operator_index this (Z.of_nat i) w
           = Ret (iterator_ops.operator_star it) w
         ∧ read (iterator_ops.operator_star it) w = Ret x w
         ∧ iterator_ops.post_inc it = (it, next)
         ∧ iterator_ops.pre_dec next = it
         ∧ iterator_ops.post_dec next = (next, it))
    ∧ iterator_ops.eqb (Nat.iter (length xs) iterator_ops.pre_inc s) e = true
    ∧ read (iterator_ops.operator_star e) w = Undef.
Proof.
  intros [d Hrep]. eexists _, _.
  split; [apply (begin_ok _ _ _ _ _ Hrep)|].
  split; [apply (end_ok _ _ _ _ _ Hrep)|]. split; [|split].
  - intros i x Hx. pose proof (lookup_lt_Some _ _ _ Hx) as Hi.
    rewrite Nat.iter_succ, iter_pre_inc. simpl.
    unfold iterator_ops.neqb, iterator_ops.eqb, iterator_ops.operator_star,
      iterator_ops.post_inc, iterator_ops.post_dec, iterator_ops.pre_dec,
      iterator_ops.pre_inc.
    simpl. rewrite step_back.
    rewrite bool_decide_false by (by eapply elem_ptr_ne_end).
    split; [done|]. split; [done|]. split; [done|]. split; [|split; [|done]].
    + rewrite (index_ok vector.operator_index _ _ _ _ _ (Z.of_nat i)
                 ltac:(done) Hrep).
      by destruct (Z.leb_spec (Z.of_nat (length xs)) (Z.of_nat i)); [lia|].
    + by eapply read_elem.
  - rewrite iter_pre_inc. unfold iterator_ops.eqb. simpl.
    by rewrite bool_decide_true.
  - unfold iterator_ops.operator_star. simpl.
    eapply read_raw; [exact Hrep|]. lia.
Qed.

(** X11. Walking a container backwards: [end()] moved back [k + 1] times by
    [--], for [k < size], reads as element [size - 1 - k]; moved back
    [size] times it equals [begin()]. *)
Theorem backward_traversal w this xs cap :
  repr w this xs cap →
  ∃ s e, vector.begin_ this w = Ret s w ∧ vector.end_ this w = Ret e w
    ∧ (∀ (k : nat) x, (k < length xs)%nat →
         xs !! (length xs - 1 - k)%nat = Some x →
         let it := Nat.iter (S k) iterator_ops.pre_dec e in
         vec_ it = Some this
         ∧ read (iterator_ops.operator_star it) w = Ret x w
         ∧ iterator_ops.eqb it s = bool_decide (S k = length xs))
    ∧ iterator_ops.eqb (Nat.iter (length xs) iterator_ops.pre_dec e) s = true.
Proof.
  intros [d Hrep]. eexists _, _.
  split; [apply (begin_ok _ _ _ _ _ Hrep)|].
  split; [apply (end_ok _ _ _ _ _ Hrep)|]. split.
  - intros k x Hk Hx. rewrite iter_pre_dec. simpl.
    unfold iterator_ops.eqb, iterator_ops.operator_star. simpl.
    rewrite ptr_add_add.
    replace (Z.of_nat (length xs) + - Z.of_nat (S k))
      with (Z.of_nat (length xs - 1 - k)) by lia.
    split; [done|]. split; [by eapply read_elem|].
    apply bool_decide_ext.
    destruct Hrep as (_ & _ & Hbuf). destruct d as [|b o]; simpl in *.
    + destruct Hbuf as [-> _]. simpl in Hk. lia.
    + destruct Hbuf as [-> _]. split; [intros [= Heq]; lia|].
      intros Heq. f_equal. lia.
  - rewrite iter_pre_dec. unfold iterator_ops.eqb. simpl.
    rewrite ptr_add_add. apply bool_decide_true.
    destruct d as [|b o]; simpl; [done|]. f_equal. lia.
Qed.


(** X12. Walking a container with a read-only cursor: [cbegin()] is the
    conversion of [begin()] and [cend()] that of [end()]; [cbegin()]
    advanced [i] times by the postfix [++] (which returns the cursor as it
    was, and advances it as the prefix [++] does) differs from [cend()] for
    [i < size], equals the mutable cursor advanced as many times, in both
    mixed comparisons, and reads as element [i]; [--], prefix or postfix,
    leads back from the next position. Advanced [size] times the cursor
    equals [cend()]. *)
Theorem const_traversal w this xs cap :
  repr w this xs cap →
  ∃ s e cs ce,
    vector.begin_ this w = Ret s w ∧ vector.end_ this w = Ret e w
    ∧ vector.cbegin this w = Ret cs w ∧ vector.cend this w = Ret ce w
    ∧ cs = const_iterator_ops.of_iterator s
    ∧ ce = const_iterator_ops.of_iterator e
    ∧ (∀ (i : nat) x, xs !! i = Some x →
         let step := λ c, snd (const_iterator_ops.post_inc c) in
         let cit := Nat.iter i step cs in
         let cnext := Nat.iter (S i) step cs in
         let it := Nat.iter i iterator_ops.pre_inc s in
         fst (const_iterator_ops.post_inc cit) = cit
         ∧ const_iterator_ops.pre_inc cit = cnext
         ∧ const_iterator_ops.pre_dec cnext = cit
         ∧ const_iterator_ops.post_dec cnext = (cnext, cit)
         ∧ cit = const_iterator_ops.of_iterator it
         ∧ const_iterator_ops.neqb cit ce = true
         ∧ const_iterator_ops.eqb_iter cit it = true
         ∧ iterator_ops.eqb_const it cit = true
         ∧ const_iterator_ops.neqb_iter cit e = true
         ∧ iterator_ops.neqb_const it ce = true
         ∧ cvec_ cit = Some this
         ∧ read (const_iterator_ops.operator_star cit) w = Ret x w)
    ∧ const_iterator_ops.eqb
        (Nat.iter (length xs) (λ c, snd (const_iterator_ops.post_inc c)) cs)
        ce = true.
Proof.
  intros [d Hrep]. eexists _, _, _, _.
  split; [apply (begin_ok _ _ _ _ _ Hrep)|].
  split; [apply (end_ok _ _ _ _ _ Hrep)|].
  split; [apply (begin_ok _ _ _ _ _ Hrep)|].
  split; [apply (end_ok _ _ _ _ _ Hrep)|].
  split; [done|]. split; [done|]. split.
  - intros i x Hx. pose proof (lookup_lt_Some _ _ _ Hx) as Hi.
    cbv zeta. rewrite Nat.iter_succ, iter_post_inc, iter_pre_inc. simpl.
    unfold const_iterator_ops.neqb, const_iterator_ops.eqb_iter,
      iterator_ops.eqb_const, const_iterator_ops.neqb_iter,
      iterator_ops.neqb_const, const_iterator_ops.operator_star,
      const_iterator_ops.of_iterator, const_iterator_ops.pre_inc,
      const_iterator_ops.pre_dec, const_iterator_ops.post_dec. simpl.
    rewrite step_back.
    pose proof (elem_ptr_ne_end _ _ _ _ _ _ Hrep Hi) as Hne.
    rewrite !(bool_decide_false
                (ptr_add d (Z.of_nat i)
                 = ptr_add d (Z.of_nat (length xs)))) by done.
    rewrite !(bool_decide_true
                (ptr_add d (Z.of_nat i) = ptr_add d (Z.of_nat i))) by done.
    repeat (split; [done|]). by eapply read_elem.
  - rewrite iter_post_inc. unfold const_iterator_ops.eqb. simpl.
    by rewrite bool_decide_true.
Qed.

(** X13. Cursor arithmetic inside a container of at most [INT_MAX] elements:
    for the cursors [i] and [j] slots after [begin()], [0 <= i, j <= size],
    their difference is [j - i]; adding [j - i] to the first, by [+] or by
    [+=], gives the second, and subtracting it from the second, by [-] or
    by [-=], gives the first; the two are equal exactly when [i = j]. The
    same holds for the read-only cursors. *)
Theorem cursor_arithmetic w this xs cap (i j : Z) :
  repr w this xs cap → Z.of_nat (length xs) <= INT_MAX →
  0 <= i <= Z.of_nat (length xs) → 0 <= j <= Z.of_nat (length xs) →
  ∃ s cs, vector.begin_ this w = Ret s w ∧ vector.cbegin this w = Ret cs w
    ∧ (let a := iterator_ops.add s i in
       let c := iterator_ops.add s j in
       iterator_ops.sub c a = Ok (j - i)
       ∧ iterator_ops.add a (j - i) = c
       ∧ iterator_ops.add_assign a (j - i) = c
       ∧ iterator_ops.sub_n c (j - i) = a
       ∧ iterator_ops.sub_assign c (j - i) = a
       ∧ iterator_ops.eqb a c = bool_decide (i = j))
    ∧ (let a := const_iterator_ops.add cs i in
       let c := const_iterator_ops.add cs j in
       const_iterator_ops.sub c a = Ok (j - i)
       ∧ const_iterator_ops.add a (j - i) = c
       ∧ const_iterator_ops.add_assign a (j - i) = c
       ∧ const_iterator_ops.sub_n c (j - i) = a
       ∧ const_iterator_ops.sub_assign c (j - i) = a
       ∧ const_iterator_ops.eqb a c = bool_decide (i = j)).
Proof.
  intros [d Hrep] Hmax Hi Hj. eexists _, _.
  split; [apply (begin_ok _ _ _ _ _ Hrep)|].
  split; [apply (begin_ok _ _ _ _ _ Hrep)|].
  assert (ptr_diff (ptr_add d j) (ptr_add d i) = Some (j - i)) as Hdiff.
  { destruct Hrep as (_ & _ & Hbuf). destruct d as [|b o]; simpl in *.
    - destruct Hbuf as [-> _]. simpl in *. f_equal. lia.
    - rewrite decide_True by done. f_equal. lia. }
  assert (to_int (j - i) = j - i) as Hint.
  { apply to_int_small. unfold INT_MIN, INT_MAX in *. lia. }
  assert (ptr_add (ptr_add d i) (j - i) = ptr_add d j) as Hfwd.
  { rewrite ptr_add_add. f_equal. lia. }
  assert (ptr_add (ptr_add d j) (- (j - i)) = ptr_add d i) as Hbwd.
  { rewrite ptr_add_add. f_equal. lia. }
  assert (bool_decide (ptr_add d i = ptr_add d j) = bool_decide (i = j))
    as Heq.
  { apply bool_decide_ext. destruct Hrep as (_ & _ & Hbuf).
    destruct d as [|b o]; simpl in *.
    - destruct Hbuf as [-> _]. simpl in *. split; [lia|done].
    - split; [intros [= ?]; lia|by intros ->]. }
  unfold iterator_ops.sub, iterator_ops.add, iterator_ops.add_assign,
    iterator_ops.sub_n, iterator_ops.sub_assign, iterator_ops.eqb,
    const_iterator_ops.sub, const_iterator_ops.add,
    const_iterator_ops.add_assign, const_iterator_ops.sub_n,
    const_iterator_ops.sub_assign, const_iterator_ops.eqb. simpl.
  rewrite !decide_True by done. rewrite Hdiff, Hint, Hfwd, Hbwd, Heq. done.
Qed.

(** X14. Equality of cursors looks at the position only, subtraction at the
    origin first: the [begin()] cursors of two distinct containers that
    were default-constructed compare equal, and so do their [end()]
    cursors, while their difference throws [invalid_iterator]. *)
Theorem fresh_cursors_equal w a c :
  a ≠ c →
  ∃ w' sa sc ea,
    (vector.vector_default a ;;; vector.vector_default c) w = Ret tt w'
    ∧ vector.begin_ a w' = Ret sa w' ∧ vector.begin_ c w' = Ret sc w'
    ∧ vector.end_ a w' = Ret ea w'
    ∧ iterator_ops.eqb sa sc = true
    ∧ iterator_ops.neqb sa sc = false
    ∧ iterator_ops.eqb ea sc = true
    ∧ vec_ sa ≠ vec_ sc
    ∧ iterator_ops.sub sa sc = Raise invalid_iterator.
Proof.
  intros Hne. eexists _, _, _, _. split; [reflexivity|].
  unfold vector.begin_, vector.end_, get_obj, bind. simpl.
  rewrite lookup_insert_ne by done. rewrite !lookup_insert_eq. simpl.
  split; [reflexivity|]. split; [reflexivity|]. split; [reflexivity|].
  split; [done|]. split; [done|]. split; [done|].
  split; [simpl; congruence|].
  unfold iterator_ops.sub. simpl. rewrite decide_False; [done|congruence].
Qed.


(** ** Where the buffer is after a call *)

Lemma repr_at_data w this d xs cap u :
  repr_at w this d xs cap → objs w !! this = Some u →
  u = Vec d (Z.of_nat (length xs)) cap.
Proof. intros (Hobj & _) Hu. congruence. Qed.

Lemma push_back_run w this d xs cap r v :
  repr_at w this d xs cap → outside w this r v →
  (cap <= Z.of_nat (length xs) → 2 * cap <= SIZE_MAX) →
  ∃ w', vector.push_back this r w = Ret tt w'
    ∧ repr_at w' this
        (if cap <=? Z.of_nat (length xs)
         then Ptr (fresh (dom (heap w))) 0 else d)
        (xs ++ [v])
        (if cap <=? Z.of_nat (length xs) then grown cap else cap)
    ∧ frame w w' this ∧ footprint this w w'.
Proof.
  intros Hrep Hout Hdbl.
  destruct (push_back_ok w this d xs cap r v Hrep Hout Hdbl)
    as (w' & d' & Hrun & Hrep' & Hfr).
  pose proof Hrep as (Hobj & _).
  destruct (push_back_footprint _ _ _ _ _ _ Hrun Hobj)
    as (u' & Ho & Hh & Hd & _).
  exists w'. split; [done|]. simpl in Hd.
  assert (d' = data_ u') as ->.
  { destruct Hrep' as (Hobj' & _). rewrite Ho, lookup_insert_eq in Hobj'.
    by injection Hobj' as ->. }
  rewrite Hd in Hrep'. split; [done|]. split; [done|].
  intros u Hu. rewrite Hobj in Hu. injection Hu as <-. exists u'.
  split; [done|]. by rewrite Hh.
Qed.

Lemma insert_run w this d xs cap (i : nat) r v :
  repr_at w this d xs cap → deref r w = Ret v w →
  (i <= length xs)%nat →
  (cap <= Z.of_nat (length xs) → 2 * cap <= SIZE_MAX) →
  ∃ w' y,
    let d' := if cap <=? Z.of_nat (length xs)
              then Ptr (fresh (dom (heap w))) 0 else d in
    vector.insert this (ITemp (Z.of_nat i)) r w
    = Ret (Iter (ptr_add d' (Z.of_nat i)) (Some this)) w'
    ∧ repr_at w' this d' (take i xs ++ y :: drop i xs)
        (if cap <=? Z.of_nat (length xs) then grown cap else cap)
    ∧ frame w w' this ∧ footprint this w w'
    ∧ (outside w this r v → y = v)
    ∧ (cap <= Z.of_nat (length xs) → y = v).
Proof.
  intros Hrep Hread Hi Hdbl.
  assert (∃ w' d' y,
            vector.insert this (ITemp (Z.of_nat i)) r w
            = Ret (Iter (ptr_add d' (Z.of_nat i)) (Some this)) w'
            ∧ repr_at w' this d' (take i xs ++ y :: drop i xs)
                (if cap <=? Z.of_nat (length xs) then grown cap else cap)
            ∧ frame w w' this
            ∧ (outside w this r v → y = v)
            ∧ (cap <= Z.of_nat (length xs) → y = v))
    as (w' & d' & y & Hrun & Hrep' & Hfr & Hy & Hfull).
  { destruct (Z.leb_spec cap (Z.of_nat (length xs))) as [Hge|Hlt].
    - destruct (insert_grow w this d xs cap i r v Hrep Hread Hi Hge (Hdbl Hge))
        as (w' & bn & _ & Hins & Hrep' & Hfr).
      by exists w', (Ptr bn 0), v.
    - destruct (insert_in_place w this d xs cap i r v Hrep Hread Hi Hlt)
        as (w' & y & Hins & Hrep' & Hfr & Hy).
      exists w', d, y. repeat (split; [done|]). lia. }
  pose proof Hrep as (Hobj & _).
  destruct (insert_footprint _ _ _ _ _ _ _ Hrun Hobj)
    as (u' & Ho & Hh & Hd & _).
  simpl in Hd.
  assert (d' = data_ u') as ->.
  { destruct Hrep' as (Hobj' & _). rewrite Ho, lookup_insert_eq in Hobj'.
    by injection Hobj' as ->. }
  rewrite Hd in Hrun, Hrep'. exists w', y. simpl.
  split; [done|]. split; [done|]. split; [done|]. split; [|done].
  intros u Hu. rewrite Hobj in Hu. injection Hu as <-. exists u'.
  split; [done|]. by rewrite Hh.
Qed.

Lemma erase_run w this d xs cap (i : nat) :
  repr_at w this d xs cap → (i < length xs)%nat →
  ∃ w', vector.erase this (ITemp (Z.of_nat i)) w
        = Ret (Iter (ptr_add d (Z.of_nat i)) (Some this)) w'
    ∧ repr_at w' this d (take i xs ++ drop (S i) xs) cap
    ∧ frame w w' this ∧ footprint this w w'.
Proof.
  intros Hrep Hi.
  destruct (erase_ok w this d xs cap i Hrep Hi) as (w' & Hrun & Hrep' & Hfr).
  exists w'. split; [done|]. split; [done|]. split; [done|].
  intros u Hu. destruct (erase_footprint _ _ _ _ _ _ Hrun Hu)
    as (u' & Ho & Hd & Hh & _). exists u'. split; [done|]. by rewrite Hd.
Qed.

Lemma pop_back_run w this d ys y cap :
  repr_at w this d (ys ++ [y]) cap →
  ∃ w', vector.pop_back this w = Ret tt w' ∧ repr_at w' this d ys cap
    ∧ frame w w' this ∧ footprint this w w'.
Proof.
  intros Hrep.
  destruct (pop_back_ok w this d ys y cap Hrep) as (w' & Hrun & Hrep' & Hfr).
  exists w'. split; [done|]. split; [done|]. split; [done|].
  intros u Hu. destruct (pop_back_footprint _ _ _ _ _ Hrun Hu)
    as (u' & Ho & Hd & Hh & _). exists u'. split; [done|]. by rewrite Hd.
Qed.

(** ** Round trips and equivalent calls *)

(** X15. [push_back(value)], for a value from outside the container, then
    [back()] and [pop_back()]: all return, [back()] designates an object
    that reads as the value, and after [pop_back()] the element sequence is
    the one before the pair. When the buffer had room the whole store is
    the one before the pair; otherwise the capacity has grown. *)
Theorem push_back_pop_back w this xs cap r v :
  repr w this xs cap → outside w this r v →
  (cap <= Z.of_nat (length xs) → 2 * cap <= SIZE_MAX) →
  ∃ w1 p w2, vector.push_back this r w = Ret tt w1
    ∧ vector.back this w1 = Ret p w1 ∧ read p w1 = Ret v w1
    ∧ vector.pop_back this w1 = Ret tt w2
    ∧ repr w2 this xs
        (if cap <=? Z.of_nat (length xs) then grown cap else cap)
    ∧ (Z.of_nat (length xs) < cap → w2 = w).
Proof.
  intros [d Hrep] Hout Hdbl.
  destruct (push_back_run w this d xs cap r v Hrep Hout Hdbl)
    as (w1 & Hpush & Hrep1 & _ & Hfp1).
  destruct (pop_back_run w1 this _ xs v _ Hrep1)
    as (w2 & Hpop & Hrep2 & _ & Hfp2).
  eexists w1, _, w2. split; [done|].
  rewrite (back_ok _ _ _ _ _ Hrep1).
  rewrite length_app. simpl.
  destruct (Z.eqb_spec (Z.of_nat (length xs + 1)) 0) as [?|_]; [lia|].
  split; [done|]. split.
  { replace (Z.of_nat (length xs + 1) - 1) with (Z.of_nat (length xs))
      by lia.
    eapply read_elem; [exact Hrep1|].
    by rewrite lookup_app_r, Nat.sub_diag by lia. }
  split; [done|]. split; [eexists; exact Hrep2|].
  intros Hroom. destruct (Z.leb_spec cap (Z.of_nat (length xs))); [lia|].
  pose proof Hrep as (Hobj & _).
  eapply (same_store this w w2 w); [exact Hobj| |apply footprint_refl|done|done].
  by eapply footprint_trans.
Qed.

(** X16. [push_back(value)] is [insert(size(), value)]: for a value from outside
    the container the two calls return and leave the same store; the
    cursor [insert] returns designates the last element, the object
    [back()] returns. *)
Theorem push_back_is_insert_at_end w this xs cap r v :
  repr w this xs cap → outside w this r v →
  (cap <= Z.of_nat (length xs) → 2 * cap <= SIZE_MAX) →
  ∃ w' it, vector.push_back this r w = Ret tt w'
    ∧ vector.insert this (ITemp (Z.of_nat (length xs))) r w = Ret it w'
    ∧ repr w' this (xs ++ [v])
        (if cap <=? Z.of_nat (length xs) then grown cap else cap)
    ∧ vector.back this w' = Ret (ptr_ it) w'.
Proof.
  intros [d Hrep] Hout Hdbl.
  destruct (push_back_run w this d xs cap r v Hrep Hout Hdbl)
    as (w1 & Hpush & Hrep1 & _ & Hfp1).
  destruct (insert_run w this d xs cap (length xs) r v Hrep
              (deref_outside_same _ _ _ _ Hout) ltac:(lia) Hdbl)
    as (w2 & y & Hins & Hrep2 & _ & Hfp2 & Hy & _).
  rewrite (Hy Hout) in Hrep2. clear y Hy. simpl in Hins, Hrep2.
  rewrite firstn_all, drop_all in Hrep2.
  pose proof Hrep as (Hobj & _).
  assert (w2 = w1) as ->
    by (by eapply (same_store this w w2 w1)).
  eexists w1, _. split; [done|]. split; [exact Hins|].
  split; [eexists; exact Hrep1|].
  rewrite (back_ok _ _ _ _ _ Hrep1). rewrite length_app. simpl.
  destruct (Z.eqb_spec (Z.of_nat (length xs + 1)) 0) as [?|_]; [lia|].
  do 2 f_equal. lia.
Qed.

(** X17. [erase(size() - 1)] is [pop_back()]: on a non-empty container the two
    calls return and leave the same store, and the cursor [erase] returns
    is the new [end()]. *)
Theorem erase_last_is_pop_back w this ys y cap :
  repr w this (ys ++ [y]) cap →
  ∃ w' it, vector.pop_back this w = Ret tt w'
    ∧ vector.erase this (ITemp (Z.of_nat (length ys))) w = Ret it w'
    ∧ repr w' this ys cap
    ∧ vector.end_ this w' = Ret it w'.
Proof.
  intros [d Hrep].
  destruct (pop_back_run w this d ys y cap Hrep)
    as (w1 & Hpop & Hrep1 & _ & Hfp1).
  destruct (erase_run w this d (ys ++ [y]) cap (length ys) Hrep)
    as (w2 & Hers & Hrep2 & _ & Hfp2); [rewrite length_app; simpl; lia|].
  rewrite take_app_length in Hrep2.
  rewrite drop_ge, app_nil_r in Hrep2 by (rewrite length_app; simpl; lia).
  pose proof Hrep as (Hobj & _).
  assert (w2 = w1) as ->
    by (by eapply (same_store this w w2 w1)).
  eexists w1, _. split; [done|]. split; [exact Hers|].
  split; [eexists; exact Hrep1|].
  by rewrite (proj1 (end_ok _ _ _ _ _ Hrep1)).
Qed.

(** X18. [erase(i)] followed by [insert(i, x)], where [i] is a temporary or
    a variable of the caller and [x] a temporary holding a copy of the
    element that was erased: both return, the store at the end is the
    store at the start, and the two cursors returned are the same. *)
Theorem erase_insert_roundtrip w this xs cap (i : nat) x :
  repr w this xs cap → xs !! i = Some x →
  ∃ w1 it1 it2, vector.erase this (ITemp (Z.of_nat i)) w = Ret it1 w1
    ∧ vector.insert this (ITemp (Z.of_nat i)) (Temp x) w1 = Ret it2 w
    ∧ it2 = it1
    ∧ read (ptr_ it2) w = Ret x w.
Proof.
  intros [d Hrep] Hx. pose proof (lookup_lt_Some _ _ _ Hx) as Hi.
  destruct (erase_run w this d xs cap i Hrep Hi)
    as (w1 & Hers & Hrep1 & _ & Hfp1).
  pose proof Hrep as (Hobj & Hcap & _).
  assert (length (take i xs ++ drop (S i) xs) = (length xs - 1)%nat) as Hlen
    by (by apply erased_length).
  destruct (insert_run w1 this d _ cap i (Temp x) x Hrep1 eq_refl)
    as (w2 & y & Hins & Hrep2 & _ & Hfp2 & Hy & _); [lia|lia|].
  rewrite (Hy eq_refl) in Hrep2. clear y Hy. simpl in Hins, Hrep2.
  rewrite Hlen in Hins, Hrep2.
  destruct (Z.leb_spec cap (Z.of_nat (length xs - 1))); [lia|].
  rewrite take_app_le, drop_app_ge in Hrep2
    by (rewrite ?length_take; lia).
  rewrite take_take, Nat.min_id, length_take, Nat.min_l in Hrep2 by lia.
  rewrite Nat.sub_diag, drop_0 in Hrep2.
  rewrite <- Nat.add_1_r, <- drop_drop in Hrep2.
  assert (take i xs ++ x :: drop 1 (drop i xs) = xs) as Hxs.
  { rewrite <- (take_drop i xs) at 3. f_equal.
    rewrite (drop_S _ _ _ Hx). simpl. by rewrite drop_0. }
  rewrite Hxs in Hrep2.
  assert (w2 = w) as ->.
  { eapply (same_store this w w2 w);
      [exact Hobj| |apply footprint_refl|done|done].
    by eapply footprint_trans. }
  eexists w1, _, _. split; [exact Hers|]. split; [exact Hins|].
  split; [done|]. simpl. by eapply read_elem.
Qed.


(** ** Growth *)

Lemma push_all_capacity vs : ∀ w this d xs cap,
  repr_at w this d xs cap →
  Z.of_nat (length xs + length vs) <= 2 ^ 63 →
  (xs = [] ∧ cap = 0
   ∨ ∃ k, 0 <= k ∧ cap = 2 ^ k ∧ cap < 2 * Z.of_nat (length xs)) →
  ∃ w' d' cap', push_all this vs w = Ret tt w'
    ∧ repr_at w' this d' (xs ++ vs) cap'
    ∧ (xs ++ vs = [] ∧ cap' = 0
       ∨ ∃ k, 0 <= k ∧ cap' = 2 ^ k
              ∧ cap' < 2 * Z.of_nat (length (xs ++ vs))).
Proof.
  induction vs as [|v vs IH]; intros w this d xs cap Hrep Hlen Hinv; simpl.
  - exists w, d, cap. rewrite app_nil_r. done.
  - simpl in Hlen. pose proof Hrep as (_ & Hcap & _).
    destruct (push_back_ok w this d xs cap (Temp v) v Hrep eq_refl)
      as (w1 & d1 & Hpush & Hrep1 & _); [unfold SIZE_MAX; lia|].
    destruct (IH w1 this d1 (xs ++ [v]) _ Hrep1)
      as (w' & d' & cap' & Hall & Hrep' & Hinv').
    { rewrite length_app. simpl. lia. }
    { right. rewrite length_app. simpl.
      destruct (Z.leb_spec cap (Z.of_nat (length xs))) as [Hfull|Hroom].
      - rewrite grown_spec by (unfold SIZE_MAX; lia).
        destruct Hinv as [[-> ->]|(k & Hk & -> & Hlt)].
        + exists 0. simpl. lia.
        + exists (k + 1). rewrite Z.pow_add_r by lia.
          assert (0 < 2 ^ k) by (apply Z.pow_pos_nonneg; lia). lia.
      - destruct Hinv as [[-> ->]|(k & Hk & -> & Hlt)]; [simpl in *; lia|].
        exists k. lia. }
    exists w', d', cap'. rewrite (bind_Ret _ _ _ _ _ Hpush).
    rewrite <- app_assoc in Hrep', Hinv'. done.
Qed.

(** X19. Starting from the empty container, [N >= 1] calls of [push_back]
    (with [N] at most [2^63]) leave the capacity at the least power of two
    that is at least [N]: the buffer is never more than twice as large as
    the element sequence. *)
Theorem growth_bound w this (vs : list T) :
  vs ≠ [] → Z.of_nat (length vs) <= 2 ^ 63 →
  ∃ w' cap, (vector.vector_default this ;;; push_all this vs) w = Ret tt w'
    ∧ repr w' this vs cap
    ∧ cap = 2 ^ Z.log2_up (Z.of_nat (length vs))
    ∧ Z.of_nat (length vs) <= cap < 2 * Z.of_nat (length vs).
Proof.
  intros Hne Hlen.
  destruct (vector_default_ok w this) as (w0 & Hdef & Hrep0 & _).
  destruct (push_all_capacity vs w0 this Null [] 0 Hrep0)
    as (w' & d' & cap' & Hall & Hrep' & Hinv); [simpl; lia|by left|].
  simpl in Hrep', Hinv. exists w', cap'.
  rewrite (bind_Ret _ _ _ _ _ Hdef). split; [done|].
  split; [by exists d'|].
  destruct Hinv as [[-> _]|(k & Hk & -> & Hlt)]; [done|].
  pose proof Hrep' as (_ & Hcap & _).
  split; [|lia]. f_equal.
  destruct (decide (k = 0)) as [->|Hk0].
  - simpl in *. assert (Z.of_nat (length vs) = 1) as -> by lia. done.
  - symmetry. apply Z.log2_up_unique; [lia|]. split; [|lia].
    replace k with (k - 1 + 1) in Hlt by lia.
    rewrite Z.pow_add_r in Hlt by lia. lia.
Qed.

Lemma old_buffer_freed this w w' d xs cap u' :
  repr_at w this d xs cap →
  objs w' = <[this := u']> (objs w) →
  free_buf (data_ u') (heap w') = free_buf d (heap w) →
  data_ u' = Ptr (fresh (dom (heap w))) 0 →
  ∀ b o, d = Ptr b o → heap w' !! b = None.
Proof.
  intros (_ & _ & Hbuf) Ho Hh Hd b o ->. simpl in Hbuf.
  destruct Hbuf as [_ Hb].
  assert (fresh (dom (heap w)) ≠ b) as Hne.
  { intros <-. rewrite fresh_block_unallocated in Hb. done. }
  apply (f_equal (λ m, m !! b)) in Hh. rewrite Hd in Hh. simpl in Hh.
  by rewrite lookup_delete_ne, lookup_delete_eq in Hh.
Qed.

(** X20. Growth invalidates every cursor and reference: when [push_back] or
    [insert], called with a value from outside the container and, for
    [insert], with an index that is a temporary or a variable of the
    caller, finds the buffer full, the call returns with the elements in a
    buffer that was not allocated before, and the old buffer is
    deallocated, so that reading through a cursor obtained before the call
    is undefined. *)
Theorem growth_invalidates_cursors w this xs cap r v :
  repr w this xs cap → outside w this r v →
  cap <= Z.of_nat (length xs) → 2 * cap <= SIZE_MAX →
  ∃ s, vector.begin_ this w = Ret s w
    ∧ (∃ w' s', vector.push_back this r w = Ret tt w'
         ∧ vector.begin_ this w' = Ret s' w'
         ∧ ptr_ s' = Ptr (fresh (dom (heap w))) 0
         ∧ slot_at (heap w) (ptr_ s') = None
         ∧ ∀ i, read (ptr_add (ptr_ s) i) w' = Undef)
    ∧ (∀ ind, 0 <= ind <= Z.of_nat (length xs) →
         ∃ w' it s', vector.insert this (ITemp ind) r w = Ret it w'
           ∧ vector.begin_ this w' = Ret s' w'
           ∧ ptr_ s' = Ptr (fresh (dom (heap w))) 0
           ∧ slot_at (heap w) (ptr_ s') = None
           ∧ ∀ i, read (ptr_add (ptr_ s) i) w' = Undef).
Proof.
  intros [d Hrep] Hout Hfull Hdbl. pose proof Hrep as (Hobj & _).
  assert (slot_at (heap w) (Ptr (fresh (dom (heap w))) 0) = None) as Hfresh.
  { simpl. by rewrite fresh_block_unallocated. }
  exists (Iter d (Some this)). split; [apply (begin_ok _ _ _ _ _ Hrep)|].
  split.
  - destruct (push_back_run w this d xs cap r v Hrep Hout (λ _, Hdbl))
      as (w' & Hrun & Hrep' & _ & Hfp).
    destruct (Z.leb_spec cap (Z.of_nat (length xs))); [|lia].
    exists w', (Iter (Ptr (fresh (dom (heap w))) 0) (Some this)).
    split; [done|]. split; [apply (begin_ok _ _ _ _ _ Hrep')|].
    split; [done|]. split; [done|]. intros i. simpl.
    apply read_freed. destruct (Hfp _ Hobj) as (u' & Ho & Hh).
    eapply (old_buffer_freed this w w'); [exact Hrep|exact Ho|exact Hh|].
    destruct Hrep' as (Hobj' & _). rewrite Ho, lookup_insert_eq in Hobj'.
    by injection Hobj' as ->.
  - intros ind Hind.
    destruct (insert_run w this d xs cap (Z.to_nat ind) r v Hrep
                (deref_outside_same _ _ _ _ Hout) ltac:(lia) (λ _, Hdbl))
      as (w' & y & Hrun & Hrep' & _ & Hfp & _). simpl in Hrun, Hrep'.
    rewrite Z2Nat.id in Hrun by lia.
    destruct (Z.leb_spec cap (Z.of_nat (length xs))); [|lia].
    eexists w', _, (Iter (Ptr (fresh (dom (heap w))) 0) (Some this)).
    split; [exact Hrun|]. split; [apply (begin_ok _ _ _ _ _ Hrep')|].
    split; [done|]. split; [done|]. intros i. simpl.
    apply read_freed. destruct (Hfp _ Hobj) as (u' & Ho & Hh).
    eapply (old_buffer_freed this w w'); [exact Hrep|exact Ho|exact Hh|].
    destruct Hrep' as (Hobj' & _). rewrite Ho, lookup_insert_eq in Hobj'.
    by injection Hobj' as ->.
Qed.

(** X21. Without growth the buffer stays where it is. Called with
    temporaries or variables of the caller as arguments, no elements of a
    container, a mutation of a container whose buffer has room, and
    [pop_back], [erase], [clear] and assignment through [operator[]] on
    any container, is defined and leaves the capacity and [begin()] as
    they were; the slot [i] slots after the old [begin()] reads as element
    [i] of the new element sequence, and reading any other slot is
    undefined: a reference to a slot that [pop_back], [erase] or [clear]
    vacated dangles. *)
Theorem room_keeps_cursors w this xs cap m :
  repr w this xs cap → mutation_ok m →
  (Z.of_nat (length xs) < cap
   ∨ match m with MPush _ | MInsert _ _ => False | _ => True end) →
  ∃ w' s xs', outcome_world (mutate this m w) = Some w'
    ∧ vector.begin_ this w = Ret s w
    ∧ vector.begin_ this w' = Ret s w'
    ∧ repr w' this xs' cap
    ∧ (∀ (i : nat) x, xs' !! i = Some x →
         read (ptr_add (ptr_ s) (Z.of_nat i)) w' = Ret x w')
    ∧ (∀ i, ¬ (0 <= i < Z.of_nat (length xs')) →
         read (ptr_add (ptr_ s) i) w' = Undef).
Proof.
  intros [d Hrep] Hm Hroom.
  assert (∃ w' xs', outcome_world (mutate this m w) = Some w'
                    ∧ repr_at w' this d xs' cap) as (w' & xs' & Hrun & Hrep').
  { destruct m as [x| |ind x|ind| |pos x]; simpl in *.
    - destruct Hroom as [Hroom|[]].
      destruct (push_back_run w this d xs cap (Temp x) x Hrep eq_refl)
        as (w' & -> & Hrep' & _); [lia|].
      destruct (Z.leb_spec cap (Z.of_nat (length xs))); [lia|].
      by eexists w', _.
    - destruct (list_snoc_case xs) as [->|(ys & y & ->)].
      + rewrite (pop_back_empty _ _ _ _ Hrep). by exists w, [].
      + destruct (pop_back_ok w this d ys y cap Hrep) as (w' & -> & Hrep' & _).
        by exists w', ys.
    - destruct Hroom as [Hroom|[]].
      destruct (Z.lt_ge_cases (Z.of_nat (length xs)) ind) as [Hlt|Hge].
      + rewrite (bind_Throw _ _ _ _ _ (insert_throw _ _ _ _ _ _ _ Hrep Hlt)).
        by exists w, xs.
      + unfold is_size_t in Hm.
        destruct (insert_in_place w this d xs cap (Z.to_nat ind) (Temp x) x
                    Hrep eq_refl ltac:(lia) Hroom)
          as (w' & y & Hins & Hrep' & _).
        rewrite Z2Nat.id in Hins by lia.
        rewrite (bind_Ret _ _ _ _ _ Hins). by eexists w', _.
    - destruct (Z.lt_ge_cases ind (Z.of_nat (length xs))) as [Hlt|Hge].
      + unfold is_size_t in Hm.
        destruct (erase_ok w this d xs cap (Z.to_nat ind) Hrep ltac:(lia))
          as (w' & Hers & Hrep' & _).
        rewrite Z2Nat.id in Hers by lia.
        rewrite (bind_Ret _ _ _ _ _ Hers). by eexists w', _.
      + rewrite (bind_Throw _ _ _ _ _ (erase_throw _ _ _ _ _ _ Hrep Hge)).
        by exists w, xs.
    - destruct (clear_ok w this d xs cap Hrep) as (w' & -> & Hrep' & _).
      by exists w', [].
    - pose proof Hrep as (Hobj & _).
      unfold vector.operator_index.
      rewrite bind_assoc.
      rewrite (bind_Ret _ _ _ _ _ (get_obj_Ret _ _ _ Hobj)). simpl.
      destruct (Z.leb_spec (Z.of_nat (length xs)) pos) as [Hge|Hlt].
      + by exists w, xs.
      + unfold is_size_t in Hm.
        destruct (write_elem w this d xs cap (Z.to_nat pos) x Hrep ltac:(lia))
          as (w' & Hw & Hrep' & _).
        rewrite Z2Nat.id in Hw by lia.
        rewrite (bind_Ret _ _ _ (ptr_add d pos) w) by done.
        rewrite Hw. by eexists w', _. }
  exists w', (Iter d (Some this)), xs'. split; [done|].
  split; [apply (begin_ok _ _ _ _ _ Hrep)|].
  split; [apply (begin_ok _ _ _ _ _ Hrep')|]. split; [by exists d|].
  split.
  - intros i x Hx. simpl. by eapply read_elem.
  - intros i Hi. simpl. by eapply read_raw.
Qed.


(** ** Arguments that are elements of the container *)

Lemma insert_in_place_own w this b xs cap (i p : nat) x :
  repr_at w this (Ptr b 0) xs cap → xs !! p = Some x →
  (i <= length xs)%nat → Z.of_nat (length xs) < cap →
  ∃ w' y, vector.insert this (ITemp (Z.of_nat i)) (Elem (Ptr b (Z.of_nat p))) w
          = Ret (Iter (Ptr b (Z.of_nat i)) (Some this)) w'
          ∧ repr_at w' this (Ptr b 0) (take i xs ++ y :: drop i xs) cap
          ∧ xs !! (if decide (p <= i)%nat then p else (p - 1)%nat) = Some y.
Proof.
  intros (Hobj & Hcap & Hbuf) Hx Hi Hlt.
  pose proof (lookup_lt_Some _ _ _ Hx) as Hp.
  simpl in Hbuf. destruct Hbuf as [_ Hb].
  destruct (lookup_lt_is_Some_2 xs
              (if decide (p <= i)%nat then p else (p - 1)%nat)) as [y Hy].
  { case_decide; lia. }
  assert (shift_right (length xs - i) (length xs) (xs ++ [x]) !! p = Some y)
    as Hsh.
  { rewrite shift_right_lookup by (rewrite ?length_app; simpl; lia).
    destruct (decide (p <= i)%nat).
    - rewrite decide_False by lia. by rewrite lookup_app_l by lia.
    - rewrite decide_True by lia. by rewrite lookup_app_l by lia. }
  unfold vector.insert.
  rewrite (bind_Ret _ _ _ _ _ (get_obj_Ret _ _ _ Hobj)), bind_read_temp. simpl.
  destruct (Z.ltb_spec (Z.of_nat (length xs)) (Z.of_nat i)) as [?|_]; [lia|].
  destruct (Z.leb_spec cap (Z.of_nat (length xs))) as [?|_]; [lia|].
  destruct (Z.to_nat cap - length xs)%nat as [|k] eqn:Hk; [lia|].
  rewrite !bind_assoc.
  erewrite bind_Ret; [|eapply read_cells; [exact Hb|exact Hx|lia]].
  rewrite !bind_assoc.
  erewrite bind_Ret; [|eapply construct_cells; [exact Hb|lia]].
  rewrite Nat2Z.id.
  rewrite !bind_assoc.
  erewrite bind_Ret;
    [|rewrite for_down_to_ret by lia;
      replace (Z.to_nat (Z.of_nat (length xs) - Z.of_nat i))
        with (length xs - i)%nat by lia;
      eapply (shift_right_loop b);
      [intros; reflexivity|apply heap_upd_block_eq|lia
      |rewrite length_app; simpl; lia]].
  rewrite upd_block_twice.
  rewrite !bind_assoc, bind_ret, !bind_assoc.
  erewrite bind_Ret;
    [|eapply read_cells; [apply heap_upd_block_eq|exact Hsh|lia]].
  rewrite !bind_assoc.
  erewrite bind_Ret;
    [|eapply (assign_cells _ _ _ _ _ i);
      [apply heap_upd_block_eq
      |rewrite length_shift_right, length_app; simpl; lia|lia]].
  rewrite upd_block_twice, insert_shift by done.
  erewrite bind_Ret; [|eapply set_size_Ret; exact Hobj].
  erewrite bind_Ret; [|eapply get_obj_Ret; apply lookup_insert_eq].
  rewrite bind_ret. simpl. eexists. exists y. split; [do 3 f_equal; lia|].
  assert (Hlen : length (take i xs ++ y :: drop i xs) = S (length xs)).
  { rewrite length_app, length_take. simpl. rewrite length_drop. lia. }
  rewrite to_size_t_small by (unfold is_size_t; lia).
  split; [|done]. split; [|split].
  - simpl. rewrite lookup_insert_eq. simpl. do 3 f_equal. lia.
  - lia.
  - simpl. split; [done|]. rewrite lookup_insert_eq. do 2 f_equal. lia.
Qed.

Lemma nonempty_buffer w this d xs cap :
  repr_at w this d xs cap → xs ≠ [] → ∃ b, d = Ptr b 0.
Proof.
  intros (_ & _ & Hbuf) Hne. destruct d as [|b o]; simpl in Hbuf.
  - by destruct Hbuf as [-> _].
  - destruct Hbuf as [-> _]. eauto.
Qed.

(** X22. [insert(i, v[p])], the index being a temporary or a variable of
    the caller and the value element [p] of the container itself. When
    the buffer is full the call copies the value before it releases the
    old buffer, and inserts a copy of the value [v[p]] had. When the
    buffer has room the call works in place and reads the value again
    after the shift: it inserts a copy of [v[p]] if [p <= i], and a copy
    of [v[p - 1]] if [p > i]. *)
Theorem insert_own_element_spec w this xs cap (i p : nat) x :
  repr w this xs cap → xs !! p = Some x → (i <= length xs)%nat →
  ∃ ref, vector.operator_index this (Z.of_nat p) w = Ret ref w
    ∧ read ref w = Ret x w
    ∧ (cap <= Z.of_nat (length xs) → 2 * cap <= SIZE_MAX →
       ∃ w' it, vector.insert this (ITemp (Z.of_nat i)) (Elem ref) w = Ret it w'
                ∧ repr w' this (take i xs ++ x :: drop i xs) (grown cap)
                ∧ read (ptr_ it) w' = Ret x w')
    ∧ (Z.of_nat (length xs) < cap →
       ∃ w' it y, vector.insert this (ITemp (Z.of_nat i)) (Elem ref) w = Ret it w'
                  ∧ repr w' this (take i xs ++ y :: drop i xs) cap
                  ∧ read (ptr_ it) w' = Ret y w'
                  ∧ xs !! (if decide (p <= i)%nat then p else (p - 1)%nat)
                    = Some y).
Proof.
  intros [d Hrep] Hx Hi. pose proof (lookup_lt_Some _ _ _ Hx) as Hp.
  exists (ptr_add d (Z.of_nat p)). split.
  { rewrite (index_ok vector.operator_index _ _ _ _ _ (Z.of_nat p)
               ltac:(done) Hrep).
    by destruct (Z.leb_spec (Z.of_nat (length xs)) (Z.of_nat p)); [lia|]. }
  assert (read (ptr_add d (Z.of_nat p)) w = Ret x w) as Hread
    by (by eapply read_elem).
  split; [done|]. split.
  - intros Hfull Hdbl.
    destruct (insert_grow w this d xs cap i (Elem (ptr_add d (Z.of_nat p))) x
                Hrep Hread Hi Hfull Hdbl)
      as (w' & bn & _ & Hins & Hrep' & _).
    eexists w', _. split; [exact Hins|]. split; [by eexists|].
    apply (read_elem w' this (Ptr bn 0) _ _ i x Hrep').
    rewrite lookup_app_r by (rewrite length_take; lia).
    rewrite length_take, Nat.min_l by lia. by rewrite Nat.sub_diag.
  - intros Hroom.
    destruct (nonempty_buffer _ _ _ _ _ Hrep) as [b ->];
      [by intros ->|].
    destruct (insert_in_place_own w this b xs cap i p x Hrep Hx Hi Hroom)
      as (w' & y & Hins & Hrep' & Hy).
    simpl. rewrite Z.add_0_l.
    eexists w', _, y. split; [exact Hins|]. split; [by eexists|].
    split; [|done]. simpl ptr_.
    replace (Ptr b (Z.of_nat i)) with (ptr_add (Ptr b 0) (Z.of_nat i))
      by (simpl; f_equal; lia).
    apply (read_elem w' this (Ptr b 0) _ _ i y Hrep').
    rewrite lookup_app_r by (rewrite length_take; lia).
    rewrite length_take, Nat.min_l by lia. by rewrite Nat.sub_diag.
Qed.

(** X23. [push_back(v[p])], the argument being element [p] of the container
    itself. When the buffer has room the call appends a copy of [v[p]].
    When the buffer is full the call has undefined behaviour: [reallocate]
    destroys the elements and frees the buffer before the argument is
    read. *)
Theorem push_back_own_element_spec w this xs cap (p : nat) x :
  repr w this xs cap → xs !! p = Some x →
  ∃ ref, vector.operator_index this (Z.of_nat p) w = Ret ref w
    ∧ read ref w = Ret x w
    ∧ (Z.of_nat (length xs) < cap →
       ∃ w', vector.push_back this (Elem ref) w = Ret tt w'
             ∧ repr w' this (xs ++ [x]) cap)
    ∧ (cap <= Z.of_nat (length xs) → 2 * cap <= SIZE_MAX →
       vector.push_back this (Elem ref) w = Undef).
Proof.
  intros [d Hrep] Hx. pose proof (lookup_lt_Some _ _ _ Hx) as Hp.
  destruct (nonempty_buffer _ _ _ _ _ Hrep) as [b ->]; [by intros ->|].
  exists (ptr_add (Ptr b 0) (Z.of_nat p)). split.
  { rewrite (index_ok vector.operator_index _ _ _ _ _ (Z.of_nat p)
               ltac:(done) Hrep).
    by destruct (Z.leb_spec (Z.of_nat (length xs)) (Z.of_nat p)); [lia|]. }
  assert (read (ptr_add (Ptr b 0) (Z.of_nat p)) w = Ret x w) as Hread
    by (by eapply read_elem).
  split; [done|]. pose proof Hrep as (Hobj & Hcap & Hbuf).
  simpl in Hbuf. destruct Hbuf as [_ Hb]. split.
  - intros Hroom. unfold vector.push_back.
    rewrite (bind_Ret _ _ _ _ _ (get_obj_Ret _ _ _ Hobj)). simpl.
    destruct (Z.leb_spec cap (Z.of_nat (length xs))) as [?|_]; [lia|].
    rewrite (bind_Ret _ _ _ tt w) by done.
    rewrite (bind_Ret _ _ _ _ _ (get_obj_Ret _ _ _ Hobj)). simpl.
    rewrite (bind_Ret _ _ _ x w) by exact Hread.
    destruct (Z.to_nat cap - length xs)%nat as [|k] eqn:Hk; [lia|].
    erewrite bind_Ret; [|eapply construct_cells; [exact Hb|lia]].
    erewrite set_size_Ret; [|exact Hobj]. simpl.
    rewrite to_size_t_small by (unfold is_size_t, SIZE_MAX in *; lia).
    eexists. split; [done|]. exists (Ptr b 0). split; [|split]; simpl.
    + rewrite lookup_insert_eq. rewrite length_app. simpl. do 3 f_equal. lia.
    + rewrite length_app. simpl. lia.
    + split; [done|]. rewrite lookup_insert_eq. rewrite length_app. simpl.
      do 2 f_equal. lia.
  - intros Hfull Hdbl.
    pose proof (grown_spec cap ltac:(lia) Hdbl) as Hg.
    destruct (reallocate_ok w this (Ptr b 0) xs cap (grown cap) Hrep)
      as (w1 & bn & Hbn & Hre & Hrep1 & _); [unfold SIZE_MAX in *; lia|].
    destruct (reallocate_footprint _ _ _ _ _ _ Hre Hobj) as [Ho Hh].
    assert (heap w1 !! b = None) as Hfreed.
    { eapply (old_buffer_freed this w w1); [exact Hrep|exact Ho|exact Hh|done|done]. }
    unfold vector.push_back.
    rewrite (bind_Ret _ _ _ _ _ (get_obj_Ret _ _ _ Hobj)). simpl.
    destruct (Z.leb_spec cap (Z.of_nat (length xs))) as [_|?]; [|lia].
    change (if cap =? 0 then 1 else to_size_t (cap * 2)) with (grown cap).
    rewrite (bind_Ret _ _ _ _ _ Hre).
    destruct Hrep1 as (Hobj1 & _).
    rewrite (bind_Ret _ _ _ _ _ (get_obj_Ret _ _ _ Hobj1)). simpl.
    unfold bind, read. simpl. rewrite Hfreed. by case_decide.
Qed.

(** X24. [reallocate(c)], the private function, as [push_back] calls it:
    on a full buffer, with [c] the grown capacity [max(1, 2 * capacity)],
    a [size_t]. It returns, the elements and the size are as they were,
    the capacity is [c], the buffer is one that was not allocated before
    and the old buffer is deallocated; every other container and every
    other buffer is as it was. *)
Theorem reallocate_spec w this xs cap :
  repr w this xs cap → cap <= Z.of_nat (length xs) → 2 * cap <= SIZE_MAX →
  ∃ w' s s', vector.begin_ this w = Ret s w
    ∧ grown cap = Z.max 1 (2 * cap)
    ∧ vector.reallocate this (grown cap) w = Ret tt w'
    ∧ repr w' this xs (grown cap)
    ∧ vector.begin_ this w' = Ret s' w'
    ∧ ptr_ s' = Ptr (fresh (dom (heap w))) 0
    ∧ slot_at (heap w) (ptr_ s') = None
    ∧ (∀ i, read (ptr_add (ptr_ s) i) w' = Undef)
    ∧ footprint this w w'
    ∧ (wf_world w →
       wf_world w'
       ∧ ∀ other ys c', other ≠ this → repr w other ys c' →
           repr w' other ys c').
Proof.
  intros [d Hrep] Hfull Hdbl. pose proof Hrep as (Hobj & Hcap & _).
  pose proof (grown_spec cap ltac:(lia) Hdbl) as Hg.
  destruct (reallocate_ok w this d xs cap (grown cap) Hrep)
    as (w' & bn & Hbn & Hre & Hrep' & Hfr); [unfold SIZE_MAX in *; lia|].
  destruct (reallocate_footprint _ _ _ _ _ _ Hre Hobj) as [Ho Hh].
  assert (bn = fresh (dom (heap w))) as ->.
  { destruct Hrep' as (Hobj' & _). rewrite Ho, lookup_insert_eq in Hobj'.
    by injection Hobj'. }
  eexists w', _, _. split; [apply (begin_ok _ _ _ _ _ Hrep)|].
  split; [done|]. split; [done|]. split; [by eexists|].
  split; [apply (begin_ok _ _ _ _ _ Hrep')|]. split; [done|].
  split; [simpl; by rewrite Hbn|]. split; [|split].
  - intros i. simpl. apply read_freed.
    by eapply (old_buffer_freed this w w').
  - intros u Hu. rewrite Hobj in Hu. injection Hu as <-.
    eexists. split; [exact Ho|]. done.
  - intros Hwf. split; [by eapply wf_world_step|].
    intros other ys c' Hne [dy Hother]. exists dy.
    by eapply repr_at_other.
Qed.

(** ** Cursor round trip, capacity *)

(** X25. [insert(pos, value)] followed by [erase] at the cursor it returned,
    for a cursor [pos] that is [i] slots after [begin()],
    [0 <= i <= size], and a value from outside the container: both return,
    the element sequence is the one before the pair, and the cursor
    [erase] returns designates the slot the first one did. When the buffer
    had room the whole store is the one before the pair. *)
Theorem insert_erase_by_cursor w this xs cap i r v :
  repr w this xs cap → outside w this r v →
  0 <= i <= Z.of_nat (length xs) →
  (cap <= Z.of_nat (length xs) → 2 * cap <= SIZE_MAX) →
  ∃ s, vector.begin_ this w = Ret s w
    ∧ ∀ pos, ptr_ pos = ptr_add (ptr_ s) i →
        ∃ w1 it1 w2 it2,
          vector.insert_at this pos r w = Ret it1 w1
          ∧ read (iterator_ops.operator_star it1) w1 = Ret v w1
          ∧ vector.erase_at this it1 w1 = Ret it2 w2
          ∧ it2 = it1
          ∧ repr w2 this xs
              (if cap <=? Z.of_nat (length xs) then grown cap else cap)
          ∧ (Z.of_nat (length xs) < cap → w2 = w).
Proof.
  intros [d Hrep] Hout Hi Hdbl. pose proof Hrep as (Hobj & _).
  exists (Iter d (Some this)). split; [apply (begin_ok _ _ _ _ _ Hrep)|].
  intros pos Hpos. simpl in Hpos.
  destruct (insert_run w this d xs cap (Z.to_nat i) r v Hrep
              (deref_outside_same _ _ _ _ Hout) ltac:(lia) Hdbl)
    as (w1 & y & Hins & Hrep1 & _ & Hfp1 & Hy & _).
  rewrite (Hy Hout) in Hrep1. clear y Hy. simpl in Hins, Hrep1.
  rewrite Z2Nat.id in Hins by lia.
  assert (length (take (Z.to_nat i) xs ++ v :: drop (Z.to_nat i) xs)
          = S (length xs)) as Hlen by (apply inserted_length; lia).
  destruct (erase_run w1 this _ _ _ (Z.to_nat i) Hrep1)
    as (w2 & Hers & Hrep2 & _ & Hfp2); [lia|].
  rewrite Z2Nat.id in Hers by lia.
  rewrite insert_then_erase in Hrep2 by lia.
  eexists w1, _, w2, _.
  split.
  { unfold vector.insert_at.
    by rewrite (bind_Ret _ _ _ _ _
                  (index_of_begin_plus _ _ _ _ _ _ _ Hrep Hi Hpos)). }
  split.
  { unfold iterator_ops.operator_star. simpl.
    rewrite <- (Z2Nat.id i) by lia.
    eapply read_elem; [exact Hrep1|].
    rewrite lookup_app_r by (rewrite length_take; lia).
    rewrite length_take, Nat.min_l by lia. by rewrite Nat.sub_diag. }
  split.
  { unfold vector.erase_at.
    erewrite bind_Ret; [exact Hers|].
    eapply index_of_begin_plus; [exact Hrep1|lia|done]. }
  split; [done|]. split; [eexists; exact Hrep2|].
  intros Hroom. destruct (Z.leb_spec cap (Z.of_nat (length xs))); [lia|].
  eapply (same_store this w w2 w);
    [exact Hobj| |apply footprint_refl|done|done].
  by eapply footprint_trans.
Qed.


Lemma mutate_capacity w a d xs cap m :
  repr_at w a d xs cap → mutation_ok m →
  (cap <= Z.of_nat (length xs) → 2 * cap <= SIZE_MAX) →
  ∃ w' d' xs' cap', outcome_world (mutate a m w) = Some w'
    ∧ repr_at w' a d' xs' cap'
    ∧ (length xs' <= S (length xs))%nat
    ∧ (cap' = cap ∨ cap <= Z.of_nat (length xs) ∧ cap' = grown cap).
Proof.
  intros Hrep Hm Hdbl. pose proof Hrep as (Hobj & Hcap & _).
  destruct m as [x| |ind x|ind| |pos x]; simpl in *.
  - destruct (push_back_ok w a d xs cap (Temp x) x Hrep eq_refl Hdbl)
      as (w' & d' & -> & Hrep' & _).
    eexists w', d', _, _. split; [done|]. split; [exact Hrep'|].
    rewrite length_app. simpl. split; [lia|].
    destruct (Z.leb_spec cap (Z.of_nat (length xs))); [by right|by left].
  - destruct (list_snoc_case xs) as [->|(ys & y & ->)].
    + rewrite (pop_back_empty _ _ _ _ Hrep). exists w, d, [], cap.
      split; [done|]. split; [done|]. split; [simpl; lia|by left].
    + destruct (pop_back_ok w a d ys y cap Hrep) as (w' & -> & Hrep' & _).
      exists w', d, ys, cap. split; [done|]. split; [done|].
      rewrite length_app. split; [lia|by left].
  - destruct (Z.lt_ge_cases (Z.of_nat (length xs)) ind) as [Hlt|Hge].
    + rewrite (bind_Throw _ _ _ _ _ (insert_throw _ _ _ _ _ _ _ Hrep Hlt)).
      exists w, d, xs, cap. split; [done|]. split; [done|].
      split; [lia|by left].
    + unfold is_size_t in Hm.
      destruct (insert_ok w a d xs cap (Z.to_nat ind) (Temp x) x Hrep eq_refl
                  ltac:(lia) Hdbl) as (w' & d' & y & Hins & Hrep' & _).
      rewrite Z2Nat.id in Hins by lia.
      rewrite (bind_Ret _ _ _ _ _ Hins).
      eexists w', d', _, _. split; [done|]. split; [exact Hrep'|].
      rewrite inserted_length by lia. split; [lia|].
      destruct (Z.leb_spec cap (Z.of_nat (length xs))); [by right|by left].
  - destruct (Z.lt_ge_cases ind (Z.of_nat (length xs))) as [Hlt|Hge].
    + unfold is_size_t in Hm.
      destruct (erase_ok w a d xs cap (Z.to_nat ind) Hrep ltac:(lia))
        as (w' & Hers & Hrep' & _).
      rewrite Z2Nat.id in Hers by lia.
      rewrite (bind_Ret _ _ _ _ _ Hers).
      eexists w', d, _, cap. split; [done|]. split; [exact Hrep'|].
      rewrite erased_length by lia. split; [lia|by left].
    + rewrite (bind_Throw _ _ _ _ _ (erase_throw _ _ _ _ _ _ Hrep Hge)).
      exists w, d, xs, cap. split; [done|]. split; [done|].
      split; [lia|by left].
  - destruct (clear_ok w a d xs cap Hrep) as (w' & -> & Hrep' & _).
    exists w', d, [], cap. split; [done|]. split; [done|].
    split; [simpl; lia|by left].
  - unfold vector.operator_index. rewrite bind_assoc.
    rewrite (bind_Ret _ _ _ _ _ (get_obj_Ret _ _ _ Hobj)). simpl.
    destruct (Z.leb_spec (Z.of_nat (length xs)) pos) as [Hge|Hlt].
    + exists w, d, xs, cap. split; [done|]. split; [done|].
      split; [lia|by left].
    + unfold is_size_t in Hm.
      destruct (write_elem w a d xs cap (Z.to_nat pos) x Hrep ltac:(lia))
        as (w' & Hw & Hrep' & _).
      rewrite Z2Nat.id in Hw by lia.
      rewrite (bind_Ret _ _ _ (ptr_add d pos) w) by done.
      rewrite Hw. eexists w', d, _, cap. split; [done|].
      split; [exact Hrep'|]. rewrite length_insert. split; [lia|by left].
Qed.

(** X26. No sequence of mutations called with temporaries or variables of
    the caller as arguments, no elements of a container, lowers the
    capacity: whatever such calls of [push_back], [pop_back], [insert],
    [erase], [clear] and assignments through [operator[]] a container
    undergoes (each in a [try] block of its own, the sequence short enough
    for the doubled sizes to stay a [size_t]), all are defined, the
    capacity at the end is at least the capacity at the start, the size at
    most the capacity, and the size has grown by at most the number of
    calls. *)
Theorem capacity_never_shrinks ms : ∀ w this xs cap,
  repr w this xs cap → Forall mutation_ok ms →
  2 * (Z.of_nat (length xs) + Z.of_nat (length ms)) <= SIZE_MAX →
  ∃ w' xs' cap', mutate_all this ms w = Some w'
    ∧ repr w' this xs' cap'
    ∧ cap <= cap'
    ∧ Z.of_nat (length xs') <= cap'
    ∧ (length xs' <= length xs + length ms)%nat.
Proof.
  induction ms as [|m ms IH]; intros w this xs cap [d Hrep] Hms Hlen; simpl.
  - exists w, xs, cap. pose proof Hrep as (_ & Hcap & _).
    split; [done|]. split; [by exists d|]. lia.
  - apply Forall_cons in Hms as [Hm Hms]. simpl in Hlen.
    pose proof Hrep as (_ & Hcap & _).
    destruct (mutate_capacity w this d xs cap m Hrep Hm)
      as (w1 & d1 & xs1 & cap1 & Hrun & Hrep1 & Hlen1 & Hcap1); [lia|].
    rewrite Hrun.
    destruct (IH w1 this xs1 cap1 ltac:(by exists d1) Hms ltac:(lia))
      as (w' & xs' & cap' & Hall & Hrep' & Hle & Hsz & Hlen').
    exists w', xs', cap'. split; [done|]. split; [done|].
    split; [|lia].
    destruct Hcap1 as [->|[Hfull ->]]; [done|].
    pose proof (grown_ge cap ltac:(lia) ltac:(lia)). lia.
Qed.

(** ** The frame of a call *)



(** ** What a copy allocates *)

Lemma copy_from_empty this other w o :
  objs w !! other = Some o → size_ o = 0 →
  vector.copy_from this other w = Ret tt w.
Proof.
  intros Ho Hsz. unfold vector.copy_from.
  rewrite (bind_Ret _ _ _ _ _ (get_obj_Ret _ _ _ Ho)). by rewrite Hsz.
Qed.

Lemma one_buffer_intro w' this d xs h :
  repr_at w' this d xs (Z.of_nat (length xs)) →
  free_buf d (heap w') = h → xs ≠ [] →
  one_buffer xs h (heap w').
Proof.
  intros Hrep Hh Hne.
  destruct (nonempty_buffer _ _ _ _ _ Hrep Hne) as [bn ->].
  destruct Hrep as (_ & _ & _ & Hb). simpl in Hh.
  rewrite Nat2Z.id, Nat.sub_diag in Hb. unfold cells in Hb. simpl in Hb.
  rewrite app_nil_r in Hb.
  destruct xs as [|x xs]; [done|]. exists bn. subst h. split.
  - apply lookup_delete_eq.
  - rewrite insert_delete_eq. symmetry. by apply insert_id.
Qed.

(** X28. Copy construction and copy assignment from another container of a
    well-formed store allocate exactly what the copy needs: one buffer of
    exactly [size] slots, all of them holding an element, and no buffer at
    all when the source is empty. Copy assignment deallocates the buffer
    the target had before it allocates the new one. Nothing else in the
    heap changes. *)
Theorem copies_allocate_exactly w this other xs cap :
  wf_world w → repr w other xs cap → this ≠ other →
  (objs w !! this = None →
     ∃ w', vector.vector_copy this other w = Ret tt w'
           ∧ one_buffer xs (heap w) (heap w'))
  ∧ (∀ ys c, repr w this ys c →
       ∃ s w', vector.begin_ this w = Ret s w
         ∧ vector.operator_assign this other w = Ret this w'
         ∧ one_buffer xs (free_buf (ptr_ s) (heap w)) (heap w')).
Proof.
  intros Hwf [d Hother] Hne. split.
  - intros Hnone.
    destruct (vector_copy_ok w this other d xs cap Hwf Hother Hnone)
      as (w' & d' & Hrun & Hrep' & _).
    exists w'. split; [done|].
    destruct xs as [|x xs].
    + simpl. unfold vector.vector_copy in Hrun.
      apply bind_Ret_inv in Hrun as (a & w1 & Hset & Hrun).
      apply set_obj_inv in Hset as ->.
      rewrite (copy_from_empty this other _ (Vec d 0 cap)) in Hrun;
        [by injection Hrun as <-| |done].
      simpl. rewrite lookup_insert_ne by done. apply Hother.
    + apply vector_copy_footprint in Hrun as (u' & Ho & Hh).
      eapply one_buffer_intro; [exact Hrep'| |done].
      destruct Hrep' as (Hobj' & _). rewrite Ho, lookup_insert_eq in Hobj'.
      injection Hobj' as ->. exact Hh.
  - intros ys c [dt Hthis].
    destruct (operator_assign_ok w this other dt ys c d xs cap Hwf Hthis
                Hother Hne) as (w' & d' & Hrun & Hrep' & _).
    exists (Iter dt (Some this)), w'.
    split; [apply (begin_ok _ _ _ _ _ Hthis)|]. split; [done|]. simpl.
    pose proof Hthis as (Hobj & _).
    destruct (operator_assign_footprint _ _ _ _ _ Hrun _ Hobj)
      as (u' & Ho & Hh). simpl in Hh.
    assert (d' = data_ u') as ->.
    { destruct Hrep' as (Hobj' & _). rewrite Ho, lookup_insert_eq in Hobj'.
      by injection Hobj' as ->. }
    destruct xs as [|x xs]; [|by eapply one_buffer_intro].
    simpl. rewrite <- Hh.
    enough (data_ u' = Null) as -> by done.
    unfold vector.operator_assign in Hrun. rewrite decide_False in Hrun by done.
    apply bind_Ret_inv in Hrun as (v & w0 & Hv & Hrun).
    apply get_obj_inv in Hv as [-> Hv].
    apply bind_Ret_inv in Hrun as (x1 & w1 & E1 & Hrun).
    assert (objs w1 = objs w) as Ho1.
    { eapply (quiet_for_up (data_ v)); [|exact E1].
      intros i. apply quiet_destroy. }
    apply bind_Ret_inv in Hrun as (x2 & w2 & E2 & Hrun).
    apply operator_delete_inv in E2 as ->.
    apply bind_Ret_inv in Hrun as (x3 & w3 & E3 & Hrun).
    apply set_data_inv in E3 as (v3 & Hv3 & ->).
    apply bind_Ret_inv in Hrun as (x4 & w4 & E4 & Hrun).
    apply set_size_inv in E4 as (v4 & Hv4 & ->).
    apply bind_Ret_inv in Hrun as (x5 & w5 & E5 & Hrun).
    apply set_capacity_inv in E5 as (v5 & Hv5 & ->).
    simpl in *. rewrite lookup_insert_eq in Hv4. injection Hv4 as <-.
    rewrite lookup_insert_eq in Hv5. injection Hv5 as <-. simpl in Hrun.
    apply bind_Ret_inv in Hrun as (x6 & w6 & E6 & Hrun).
    injection Hrun as <-.
    rewrite (copy_from_empty this other _ (Vec d 0 cap)) in E6; [| |done].
    + injection E6 as _ <-. simpl in Ho.
      apply (f_equal (λ m, m !! this)) in Ho.
      rewrite !lookup_insert_eq in Ho. by injection Ho as <-.
    + simpl. rewrite !lookup_insert_ne by done. rewrite Ho1. apply Hother.
Qed.

End proofs.

(** * The claims on concrete stores *)

(** The example stores are the ones the example programs reach from the
    empty store. *)
Lemma ex_one_reached : fill_one ex_empty = Ret tt ex_one.
Proof. vm_compute. reflexivity. Qed.

Lemma ex_two_reached : fill_two ex_empty = Ret tt ex_two.
Proof. vm_compute. reflexivity. Qed.

Lemma ex_one_repr : repr ex_one 1 [10; 20; 30] 4.
Proof.
  exists (Ptr 3 0). split; [reflexivity|].
  split; [simpl; unfold SIZE_MAX; lia|]. by split.
Qed.

Lemma ex_two_repr_1 : repr ex_two 1 [10; 20; 30] 4.
Proof.
  exists (Ptr 3 0). split; [reflexivity|].
  split; [simpl; unfold SIZE_MAX; lia|]. by split.
Qed.

Lemma ex_two_repr_2 : repr ex_two 2 [7] 1.
Proof.
  exists (Ptr 4 0). split; [reflexivity|].
  split; [simpl; unfold SIZE_MAX; lia|]. by split.
Qed.

Lemma ex_two_wf : wf_world ex_two.
Proof.
  split.
  - intros o v Hv. unfold ex_two in Hv. simpl in Hv.
    apply lookup_insert_Some in Hv as [[<- <-]|[_ Hv]].
    + exists [7]. split; [done|]. split; [simpl; unfold SIZE_MAX; lia|].
      by split.
    + apply lookup_singleton_Some in Hv as [<- <-].
      exists [10; 20; 30]. split; [done|].
      split; [simpl; unfold SIZE_MAX; lia|]. by split.
  - intros o1 o2 v1 v2 b off1 off2 Hv1 Hv2 Hd1 Hd2.
    unfold ex_two in Hv1, Hv2. simpl in Hv1, Hv2.
    apply lookup_insert_Some in Hv1 as [[<- <-]|[_ Hv1]];
      apply lookup_insert_Some in Hv2 as [[<- <-]|[_ Hv2]];
      try apply lookup_singleton_Some in Hv1 as [<- <-];
      try apply lookup_singleton_Some in Hv2 as [<- <-];
      simpl in *; congruence.
Qed.

Lemma ex_pair_reached : fill_pair ex_empty = Ret tt ex_pair.
Proof. vm_compute. reflexivity. Qed.

Lemma ex_pair_repr_1 : repr ex_pair 1 [10; 20; 30] 4.
Proof.
  exists (Ptr 3 0). split; [reflexivity|].
  split; [simpl; unfold SIZE_MAX; lia|]. by split.
Qed.

Lemma ex_pair_repr_2 : repr ex_pair 2 [1] 1.
Proof.
  exists (Ptr 4 0). split; [reflexivity|].
  split; [simpl; unfold SIZE_MAX; lia|]. by split.
Qed.

Lemma ex_pair_wf : wf_world ex_pair.
Proof.
  split.
  - intros o v Hv. unfold ex_pair in Hv. simpl in Hv.
    apply lookup_insert_Some in Hv as [[<- <-]|[_ Hv]].
    + exists [1]. split; [done|]. split; [simpl; unfold SIZE_MAX; lia|].
      by split.
    + apply lookup_singleton_Some in Hv as [<- <-].
      exists [10; 20; 30]. split; [done|].
      split; [simpl; unfold SIZE_MAX; lia|]. by split.
  - intros o1 o2 v1 v2 b off1 off2 Hv1 Hv2 Hd1 Hd2.
    unfold ex_pair in Hv1, Hv2. simpl in Hv1, Hv2.
    apply lookup_insert_Some in Hv1 as [[<- <-]|[_ Hv1]];
      apply lookup_insert_Some in Hv2 as [[<- <-]|[_ Hv2]];
      try apply lookup_singleton_Some in Hv1 as [<- <-];
      try apply lookup_singleton_Some in Hv2 as [<- <-];
      simpl in *; congruence.
Qed.

(** In [ex_pair] the element of the second container is no element of the
    first one: as an index argument of a call on the first container it
    is an object from outside. *)
Lemma ex_pair_index_outside :
  index_outside ex_pair 1 (IElem (Ptr 4 0) (λ x, x)) 1.
Proof.
  split; [by exists 1|]. intros u b o o' Hu Hd.
  unfold ex_pair in Hu. simpl in Hu.
  rewrite lookup_insert_ne in Hu by done.
  apply lookup_singleton_Some in Hu as [_ <-]. simpl in Hd.
  injection Hd as <- <-. done.
Qed.

(** The scenario of the specification runs as the specification says: the
    cursor returned by [erase(0)] designates 15, the container ends up
    empty, and one more [pop_back] throws [container_is_empty]. *)
Lemma scenario_runs :
  ∃ w, scenario ex_empty = Ret 15 w
    ∧ repr w 1 [] 4
    ∧ vector.pop_back 1%positive w = Throw container_is_empty w.
Proof.
  eexists. split; [vm_compute; reflexivity|]. split; [|reflexivity].
  eexists. split; [reflexivity|].
  split; [simpl; unfold SIZE_MAX; lia|]. by split.
Qed.

(** C1. On the container [10, 20, 30] with capacity 4 (the store [ex_one],
    which three calls of [push_back] on a fresh container leave),
    [v.insert(0, v[2])] returns with the element sequence [20, 10, 20, 30]:
    slot 0 holds 20, not a copy of the value 30 that the argument had at
    the call. The insertion runs in place, and the argument, an element of
    the shifted range, is read again after the shift. *)
Theorem insert_aliased_argument :
  ∃ it w', repr ex_one 1 [10; 20; 30] 4
    ∧ vector.operator_index 1%positive 2 ex_one = Ret (Ptr 3 2) ex_one
    ∧ read (Ptr 3 2) ex_one = Ret 30 ex_one
    ∧ insert_own_element ex_one = Ret it w'
    ∧ repr w' 1 [20; 10; 20; 30] 4
    ∧ read (ptr_ it) w' = Ret 20 w'.
Proof.
  eexists _, _. split; [exact ex_one_repr|]. split; [reflexivity|].
  split; [reflexivity|]. split; [vm_compute; reflexivity|].
  split; [|reflexivity].
  eexists. split; [reflexivity|].
  split; [simpl; unfold SIZE_MAX; lia|]. by split.
Qed.

(** C3. [v.push_back(10); v.push_back(v[0]);] on a fresh container has
    undefined behaviour: the second call finds the buffer full, and
    [reallocate] destroys and frees the buffer the argument lives in before
    the argument is read. *)
Theorem push_back_aliased_argument :
  ∃ w1 p,
    (vector.vector_default 1%positive ;;;
     vector.push_back 1%positive (Temp 10)) ex_empty = Ret tt w1
    ∧ repr w1 1 [10] 1
    ∧ vector.operator_index 1%positive 0 w1 = Ret p w1
    ∧ read p w1 = Ret 10 w1
    ∧ vector.push_back 1%positive (Elem p) w1 = Undef
    ∧ push_back_own_element ex_empty = Undef.
Proof.
  eexists _, _. split; [vm_compute; reflexivity|]. split.
  { eexists. split; [reflexivity|].
    split; [simpl; unfold SIZE_MAX; lia|]. by split. }
  split; [reflexivity|]. split; [reflexivity|].
  split; vm_compute; reflexivity.
Qed.

(** Up to the second call everything is defined, and [insert] at the end
    position, which copies its argument before it releases the old buffer,
    does what [push_back] fails to do. *)
Lemma insert_at_end_aliased_argument :
  ∃ it w',
    (vector.vector_default 1%positive ;;;
     vector.push_back 1%positive (Temp 10) ;;;
     p <- vector.operator_index 1%positive 0 ;;
     vector.insert 1%positive (ITemp 1) (Elem p)) ex_empty = Ret it w'
    ∧ repr w' 1 [10; 10] 2.
Proof.
  eexists _, _. split; [vm_compute; reflexivity|].
  eexists. split; [reflexivity|].
  split; [simpl; unfold SIZE_MAX; lia|]. by split.
Qed.

Lemma ex_three_reached : fill_three ex_empty = Ret tt ex_three.
Proof. vm_compute. reflexivity. Qed.

Lemma ex_three_repr : repr ex_three 1 [7; 0; 1] 4.
Proof.
  exists (Ptr 3 0). split; [reflexivity|].
  split; [simpl; unfold SIZE_MAX; lia|]. by split.
Qed.

(** C2. On the [vector<size_t>] holding [7, 0, 1] with capacity 4 (the
    store [ex_three], which three calls of [push_back] on a fresh container
    leave), [v.erase(v[1])] is a call of [erase(0)]. It removes element 0
    and leaves [0, 1], as [erase(0)] called on a variable of the caller
    does, but the cursor it returns designates slot 1, which holds 1, not
    slot 0: the index, an element of the shifted range, is read again
    after the shift. *)
Theorem erase_aliased_index :
  ∃ it w',
    repr ex_three 1 [7; 0; 1] 4
    ∧ vector.operator_index 1%positive 1 ex_three = Ret (Ptr 3 1) ex_three
    ∧ read_index (IElem (Ptr 3 1) (λ x, x)) ex_three = Ret 0 ex_three
    ∧ erase_own_index ex_three = Ret it w'
    ∧ repr w' 1 [0; 1] 4
    ∧ ptr_ it = Ptr 3 1
    ∧ read (ptr_ it) w' = Ret 1 w'
    ∧ vector.erase 1%positive (ITemp 0) ex_three
      = Ret (Iter (Ptr 3 0) (Some 1%positive)) w'
    ∧ read (Ptr 3 0) w' = Ret 0 w'.
Proof.
  eexists _, _. split; [exact ex_three_repr|]. split; [reflexivity|].
  split; [reflexivity|]. split; [vm_compute; reflexivity|].
  split; [|by repeat split].
  eexists. split; [reflexivity|].
  split; [simpl; unfold SIZE_MAX; lia|]. by split.
Qed.

(** C4. On the same container, [v.insert(v[2], 42)] is a call of
    [insert(1, 42)] on a buffer with room. It leaves [42, 7, 0, 1], not
    [7, 42, 0, 1], and returns a cursor to slot 0: the shifting loop reads
    the index, an element of the shifted range, at every test, and [v[2]]
    has become 0 when the loop and the assignment [data_[ind] = value]
    read it. [erase(1)] then leaves [42, 0, 1], not the sequence [7, 0, 1]
    the container had before the pair. *)
Theorem insert_aliased_index :
  ∃ it1 w1 it2 w2,
    repr ex_three 1 [7; 0; 1] 4
    ∧ vector.operator_index 1%positive 2 ex_three = Ret (Ptr 3 2) ex_three
    ∧ read_index (IElem (Ptr 3 2) (λ x, x)) ex_three = Ret 1 ex_three
    ∧ insert_own_index ex_three = Ret it1 w1
    ∧ repr w1 1 [42; 7; 0; 1] 4
    ∧ ptr_ it1 = Ptr 3 0
    ∧ vector.erase 1%positive (ITemp 1) w1 = Ret it2 w2
    ∧ repr w2 1 [42; 0; 1] 4
    ∧ ∀ cap, ¬ repr w2 1 [7; 0; 1] cap.
Proof.
  eexists _, _, _, _. split; [exact ex_three_repr|]. split; [reflexivity|].
  split; [reflexivity|]. split; [vm_compute; reflexivity|].
  split.
  { eexists. split; [reflexivity|].
    split; [simpl; unfold SIZE_MAX; lia|]. by split. }
  split; [reflexivity|].
  split; [vm_compute; reflexivity|].
  assert (repr (World {[3%positive := [Some 42; Some 0; Some 1; None]]}
                      {[1%positive := Vec (Ptr 3 0) 3 4]}) 1 [42; 0; 1] 4)
    as Hrep.
  { exists (Ptr 3 0). split; [reflexivity|].
    split; [simpl; unfold SIZE_MAX; lia|]. by split. }
  split; [exact Hrep|].
  intros cap [d' Hrep']. destruct Hrep as [d Hrep].
  by destruct (repr_at_inj _ _ _ _ _ _ _ _ Hrep Hrep') as (_ & ? & _).
Qed.

(** When the buffer is full, [insert] reads the index once more after it
    has freed the buffer the index lives in: the call is undefined, as
    [push_back] is on an element of a full buffer. *)
Lemma insert_aliased_index_full : insert_own_index_full ex_empty = Undef.
Proof. vm_compute. reflexivity. Qed.

(** On [5, 6, 1] the shift of [v.insert(v[2], 42)] leaves 6 in [v[2]], and
    [data_[ind] = value] writes outside the buffer of 4 slots. *)
Lemma insert_aliased_index_beyond : insert_own_index_beyond ex_empty = Undef.
Proof. vm_compute. reflexivity. Qed.

(** [v.erase(v[2])] on [7, 0, 1] is a call of [erase(1)]; the index is the
    last element, which is destroyed before the index is read for the
    cursor. *)
Lemma erase_aliased_last_index : erase_last_own_index ex_three = Undef.
Proof. vm_compute. reflexivity. Qed.

(** [indexed_access] on [ex_one]: [at(3)] throws, [at(1)] designates
    20. *)
Lemma indexed_access_witness :
  In (@vector.at_ Z)
     [vector.at_; vector.at_const;
      vector.operator_index; vector.operator_index_const]
  ∧ repr ex_one 1 [10; 20; 30] 4 ∧ is_size_t 3 ∧ is_size_t 1
  ∧ vector.at_ 1%positive 3 ex_one = Throw index_out_of_bound ex_one
  ∧ ∃ p, vector.at_ 1%positive 1 ex_one = Ret p ex_one
         ∧ read p ex_one = Ret 20 ex_one.
Proof.
  assert (is_size_t 3) as H3 by (unfold is_size_t, SIZE_MAX; lia).
  assert (is_size_t 1) as H1 by (unfold is_size_t, SIZE_MAX; lia).
  assert (In (@vector.at_ Z)
             [vector.at_; vector.at_const;
              vector.operator_index; vector.operator_index_const]) as Hin
    by (left; reflexivity).
  split; [exact Hin|]. split; [exact ex_one_repr|].
  split; [exact H3|]. split; [exact H1|]. split.
  - apply (indexed_access vector.at_ ex_one 1%positive [10; 20; 30] 4 3
             Hin ex_one_repr H3). simpl. lia.
  - destruct (indexed_access vector.at_ ex_one 1%positive [10; 20; 30] 4 1
                Hin ex_one_repr H1) as (_ & _ & Hok).
    destruct (Hok ltac:(simpl; lia)) as (p & x & Hrun & [= <-] & Hread & _).
    exists p. split; [exact Hrun|exact Hread].
Defined.

(** [empty_container_access] on [ex_one]: [back()] designates 30 and
    [pop_back()] leaves [10, 20]. *)
Lemma empty_container_access_witness :
  repr ex_one 1 [10; 20; 30] 4
  ∧ (∃ p, vector.back 1%positive ex_one = Ret p ex_one
          ∧ read p ex_one = Ret 30 ex_one)
  ∧ ∃ w', vector.pop_back 1%positive ex_one = Ret tt w'
          ∧ repr w' 1 [10; 20] 4.
Proof.
  split; [exact ex_one_repr|].
  destruct (empty_container_access ex_one 1%positive [10; 20; 30] 4
              ex_one_repr) as (_ & _ & _ & Hne).
  destruct (Hne [10; 20] 30 eq_refl)
    as (_ & Hback & w' & Hpop & Hrep & _).
  split; [exact Hback|]. exists w'. split; [exact Hpop|exact Hrep].
Defined.

(** C7, as stated, fails: copy assignment lowers the capacity of its
    target, here from 4 to 1. *)
Lemma capacity_lowered_by_assignment :
  ∃ w', vector.operator_assign 1%positive 2%positive ex_two
        = Ret 1%positive w'
    ∧ repr ex_two 1 [10; 20; 30] 4
    ∧ repr w' 1 [7] 1
    ∧ 1 < 4.
Proof.
  eexists. split; [vm_compute; reflexivity|].
  split; [exact ex_two_repr_1|]. split; [|lia].
  eexists. split; [reflexivity|].
  split; [simpl; unfold SIZE_MAX; lia|]. by split.
Qed.

(** [capacity_policy] on [ex_pair] and on [ex_three]. The second container
    of [ex_pair], [1] in a full buffer of one slot, adopts the capacity 2
    on [push_back(9)] and on [insert(0, u[0])]. The first one, which has
    room, keeps the capacity 4 on [push_back(v[0])], on [insert(u[0], 15)],
    on [erase(u[0])], on [pop_back()] and on [clear()], and gets the
    capacity 1 when the second one is assigned to it. On [ex_three],
    [insert(v[2], 42)], whose index is an element of the container, keeps
    the capacity 4. *)
Lemma capacity_policy_witness :
  repr ex_pair 2 [1] 1 ∧ repr ex_pair 1 [10; 20; 30] 4
  ∧ repr ex_three 1 [7; 0; 1] 4
  ∧ (∃ w', vector.push_back 2%positive (Temp 9) ex_pair = Ret tt w'
           ∧ repr w' 2 [1; 9] 2)
  ∧ (∃ w' it, vector.insert 2%positive (ITemp 0) (Elem (Ptr 4 0)) ex_pair
              = Ret it w'
              ∧ repr w' 2 [1; 1] 2)
  ∧ (∃ w', vector.push_back 1%positive (Elem (Ptr 3 0)) ex_pair = Ret tt w'
           ∧ repr w' 1 [10; 20; 30; 10] 4)
  ∧ (∃ w' it xs', vector.insert 1%positive (IElem (Ptr 4 0) (λ x, x))
                    (Temp 15) ex_pair = Ret it w'
                  ∧ length xs' = 4%nat
                  ∧ repr w' 1 xs' 4)
  ∧ (∃ w' xs', outcome_world
                 (vector.erase 1%positive (IElem (Ptr 4 0) (λ x, x)) ex_pair)
               = Some w'
               ∧ repr w' 1 xs' 4)
  ∧ (∃ w' xs', outcome_world (vector.pop_back 1%positive ex_pair) = Some w'
               ∧ repr w' 1 xs' 4)
  ∧ (∃ w', vector.clear 1%positive ex_pair = Ret tt w' ∧ repr w' 1 [] 4)
  ∧ (∃ w' it u', insert_own_index ex_three = Ret it w'
                 ∧ objs w' !! 1%positive = Some u' ∧ 4 <= capacity_ u')
  ∧ (∃ w', vector.operator_assign 1%positive 2%positive ex_pair
           = Ret 1%positive w'
           ∧ repr w' 1 [1] 1).
Proof.
  assert (is_size_t 1) as Hz by (unfold is_size_t, SIZE_MAX; lia).
  split; [exact ex_pair_repr_2|]. split; [exact ex_pair_repr_1|].
  split; [exact ex_three_repr|].
  destruct (capacity_policy ex_pair 2%positive [1] 1 ex_pair_repr_2)
    as (Hfull & _).
  destruct (Hfull ltac:(simpl; lia) ltac:(unfold SIZE_MAX; lia))
    as [Hpush2 Hins2].
  destruct (capacity_policy ex_pair 1%positive [10; 20; 30] 4 ex_pair_repr_1)
    as (_ & Hroom & Herase & Hpop & Hclear & _ & Hasg).
  destruct (Hroom ltac:(simpl; lia)) as [Hpush1 Hins1].
  destruct (capacity_policy ex_three 1%positive [7; 0; 1] 4 ex_three_repr)
    as (_ & _ & _ & _ & _ & Hany & _).
  split; [exact (Hpush2 (Temp 9) 9 eq_refl)|].
  split.
  { exact (Hins2 (ITemp 0) 0 (Elem (Ptr 4 0)) 1 eq_refl eq_refl
             ltac:(simpl; lia)). }
  split; [exact (Hpush1 (Elem (Ptr 3 0)) 10 eq_refl)|].
  split.
  { exact (Hins1 (IElem (Ptr 4 0) (λ x, x)) 1 (Temp 15) 15
             ex_pair_index_outside eq_refl ltac:(simpl; lia)). }
  split; [exact (Herase (IElem (Ptr 4 0) (λ x, x)) 1 ex_pair_index_outside Hz)|].
  split; [exact Hpop|]. split; [exact Hclear|].
  split.
  { assert (∃ it w', insert_own_index ex_three = Ret it w')
      as (it & w' & Hrun) by (eexists _, _; vm_compute; reflexivity).
    destruct (Hany ltac:(unfold SIZE_MAX; simpl; lia) w') as (u' & Hu' & Hc).
    { right. left. exists (IElem (Ptr 3 2) (λ x, x)), (Temp 42).
      change (vector.insert 1%positive (IElem (Ptr 3 2) (λ x, x)) (Temp 42)
                ex_three) with (insert_own_index ex_three).
      by rewrite Hrun. }
    by exists w', it, u'. }
  exact (Hasg 2%positive [1] 1 ex_pair_wf ltac:(done) ex_pair_repr_2).
Defined.

(** C8, as stated, fails: on the container that [2^31] calls of
    [push_back] build, [end() - begin()] is [-2^31], while [size()] is
    [2^31]. *)
Lemma difference_wraps :
  ∃ w e s, fill_big ex_empty = Ret tt w
    ∧ vector.size 1%positive w = Ret 2147483648 w
    ∧ vector.end_ 1%positive w = Ret e w
    ∧ vector.begin_ 1%positive w = Ret s w
    ∧ vec_ e = vec_ s
    ∧ iterator_ops.sub e s = Ok (- 2147483648).
Proof.
  destruct (vector_default_ok ex_empty 1%positive) as (w0 & Hdef & Hrep0 & _).
  destruct (push_all_ok (replicate (Z.to_nat (2 ^ 31)) 0) w0 1%positive
              Null [] 0 Hrep0) as (w & d & cap & Hall & Hrep & _).
  { rewrite length_replicate. simpl length. lia. }
  rewrite app_nil_l in Hrep.
  destruct (end_ok _ _ _ _ _ Hrep) as [Hend _].
  destruct (begin_ok _ _ _ _ _ Hrep) as [Hbegin _].
  pose proof (size_ok _ _ _ _ _ Hrep) as Hsize.
  rewrite length_replicate, Z2Nat.id in Hend, Hsize by lia.
  eexists w, _, _. split.
  { unfold fill_big. by rewrite (bind_Ret _ _ _ _ _ Hdef). }
  split; [exact Hsize|]. split; [exact Hend|]. split; [exact Hbegin|].
  split; [reflexivity|].
  unfold iterator_ops.sub. simpl vec_. rewrite decide_True by done.
  simpl ptr_. destruct d as [|b o]; simpl.
  - destruct Hrep as (_ & _ & Hnil & _).
    apply (f_equal length) in Hnil. rewrite length_replicate in Hnil.
    simpl in Hnil. lia.
  - rewrite decide_True by done. f_equal.
    replace (o + 2 ^ 31 - o) with (2 ^ 31) by lia. by vm_compute.
Qed.

(** [cursor_difference] on [ex_one]: cursors of two containers are
    incompatible, and [end() - begin()] is 3. *)
Lemma cursor_difference_witness :
  repr ex_one 1 [10; 20; 30] 4
  ∧ Z.of_nat (length [10; 20; 30]) <= INT_MAX
  ∧ iterator_ops.sub (Iter (Ptr 3 0) (Some 1%positive))
                     (Iter (Ptr 4 0) (Some 2%positive))
    = Raise invalid_iterator
  ∧ ∃ e s, vector.end_ 1%positive ex_one = Ret e ex_one
           ∧ vector.begin_ 1%positive ex_one = Ret s ex_one
           ∧ iterator_ops.sub e s = Ok 3.
Proof.
  assert (Z.of_nat (length [10; 20; 30]) <= INT_MAX) as Hsz
    by (simpl; unfold INT_MAX; lia).
  split; [exact ex_one_repr|]. split; [exact Hsz|].
  destruct (cursor_difference
              (Iter (Ptr 3 0) (Some 1%positive))
              (Iter (Ptr 4 0) (Some 2%positive))
              (CIter (Ptr 3 0) (Some 1%positive))
              (CIter (Ptr 4 0) (Some 2%positive))
              1%positive 0 0 None ex_one 1%positive [10; 20; 30] 4
              ex_one_repr Hsz) as (Hraise & _ & _ & _ & _ & Hdist & _).
  split; [|exact Hdist]. apply Hraise. simpl. congruence.
Defined.

(** Self-assignment is no copy: after [v = v] on a container of 3 elements
    and capacity 4 the capacity is still 4, not the size 3. *)
Lemma self_assignment_keeps_capacity :
  ∃ w', vector.operator_assign 1%positive 1%positive ex_one
        = Ret 1%positive w'
    ∧ repr ex_one 1 [10; 20; 30] 4
    ∧ repr w' 1 [10; 20; 30] 4
    ∧ ¬ repr w' 1 [10; 20; 30] (Z.of_nat (length [10; 20; 30])).
Proof.
  exists ex_one. split; [reflexivity|]. split; [exact ex_one_repr|].
  split; [exact ex_one_repr|].
  intros [d' Hrep']. destruct ex_one_repr as [d Hrep].
  destruct (repr_at_inj _ _ _ _ _ _ _ _ Hrep Hrep') as (_ & _ & Hcap).
  simpl in Hcap. lia.
Qed.


(** * Further properties on concrete stores *)

Lemma ex_one_wf : wf_world ex_one.
Proof.
  split.
  - intros o v Hv. unfold ex_one in Hv. simpl in Hv.
    apply lookup_singleton_Some in Hv as [<- <-].
    exists [10; 20; 30]. split; [done|].
    split; [simpl; unfold SIZE_MAX; lia|]. by split.
  - intros o1 o2 v1 v2 b off1 off2 Hv1 Hv2 Hd1 Hd2.
    unfold ex_one in Hv1, Hv2. simpl in Hv1, Hv2.
    apply lookup_singleton_Some in Hv1 as [<- <-].
    by apply lookup_singleton_Some in Hv2 as [<- <-].
Qed.

Lemma ex_two_no_garbage : no_garbage ex_two.
Proof.
  intros b [l Hl]. unfold ex_two in Hl. simpl in Hl.
  apply lookup_insert_Some in Hl as [[<- <-]|[_ Hl]].
  - by exists 2%positive, (Vec (Ptr 4 0) 1 1), 0.
  - apply lookup_singleton_Some in Hl as [<- <-].
    by exists 1%positive, (Vec (Ptr 3 0) 3 4), 0.
Qed.

(** [insert_spec] on the first container of [ex_pair], the index being the
    element [u[0] = 1] of the second one: [v.insert(u[0], 15)] leaves
    [10, 15, 20, 30] and a cursor to 15. *)
Lemma insert_spec_witness :
  repr ex_pair 1 [10; 20; 30] 4
  ∧ index_outside ex_pair 1 (IElem (Ptr 4 0) (λ x, x)) 1
  ∧ outside ex_pair 1 (Temp 15) 15
  ∧ is_size_t 1
  ∧ ∃ w' it, vector.insert 1%positive (IElem (Ptr 4 0) (λ x, x)) (Temp 15)
               ex_pair = Ret it w'
             ∧ repr w' 1 [10; 15; 20; 30] 4
             ∧ read (ptr_ it) w' = Ret 15 w'.
Proof.
  assert (is_size_t 1) as Hz by (unfold is_size_t, SIZE_MAX; lia).
  split; [exact ex_pair_repr_1|]. split; [exact ex_pair_index_outside|].
  split; [reflexivity|]. split; [exact Hz|].
  destruct (insert_spec ex_pair 1%positive [10; 20; 30] 4
              (IElem (Ptr 4 0) (λ x, x)) 1 (Temp 15) 15
              ex_pair_repr_1 ex_pair_index_outside eq_refl Hz)
    as [_ Hok]; [simpl; lia|].
  destruct (Hok ltac:(simpl; lia))
    as (w' & it & xs' & Hrun & -> & Hrep & _ & _ & _ & _ & _ & _ & Hread).
  exists w', it. split; [exact Hrun|]. split; [exact Hrep|exact Hread].
Defined.

(** [erase_spec] on the first container of [ex_pair], the index being the
    element [u[0] = 1] of the second one: [v.erase(u[0])] leaves [10, 30]
    and a cursor to 30. *)
Lemma erase_spec_witness :
  repr ex_pair 1 [10; 20; 30] 4
  ∧ index_outside ex_pair 1 (IElem (Ptr 4 0) (λ x, x)) 1
  ∧ is_size_t 1
  ∧ ∃ w' it, vector.erase 1%positive (IElem (Ptr 4 0) (λ x, x)) ex_pair
             = Ret it w'
             ∧ repr w' 1 [10; 30] 4
             ∧ read (ptr_ it) w' = Ret 30 w'.
Proof.
  assert (is_size_t 1) as Hz by (unfold is_size_t, SIZE_MAX; lia).
  split; [exact ex_pair_repr_1|]. split; [exact ex_pair_index_outside|].
  split; [exact Hz|].
  destruct (erase_spec ex_pair 1%positive [10; 20; 30] 4
              (IElem (Ptr 4 0) (λ x, x)) 1
              ex_pair_repr_1 ex_pair_index_outside Hz) as [_ Hok].
  destruct (Hok ltac:(simpl; lia))
    as (w' & it & xs' & Hrun & -> & Hrep & _ & _ & _ & _ & Hin & _).
  destruct (Hin ltac:(simpl; lia)) as (_ & x & [= <-] & Hread).
  exists w', it. split; [exact Hrun|]. split; [exact Hrep|exact Hread].
Defined.

(** [insert_erase_roundtrip] on [ex_one], the value being the element
    [v[2]] of the container itself and the index a temporary:
    [insert(1, v[2])] then [erase(1)]. *)
Lemma insert_erase_roundtrip_witness :
  repr ex_one 1 [10; 20; 30] 4
  ∧ index_outside ex_one 1 (ITemp 1) 1
  ∧ deref (Elem (Ptr 3 2)) ex_one = Ret 30 ex_one
  ∧ is_size_t 1 ∧ 1 <= Z.of_nat (length [10; 20; 30])
  ∧ ∃ w1 it1 w2 it2,
      vector.insert 1%positive (ITemp 1) (Elem (Ptr 3 2)) ex_one = Ret it1 w1
      ∧ index_outside w1 1 (ITemp 1) 1
      ∧ vector.erase 1%positive (ITemp 1) w1 = Ret it2 w2
      ∧ (∃ cap', repr w2 1 [10; 20; 30] cap')
      ∧ vector.size 1%positive w2 = Ret 3 w2.
Proof.
  assert (is_size_t 1) as Hz by (unfold is_size_t, SIZE_MAX; lia).
  split; [exact ex_one_repr|]. split; [reflexivity|]. split; [reflexivity|].
  split; [exact Hz|]. split; [simpl; lia|].
  destruct (insert_erase_roundtrip ex_one 1%positive [10; 20; 30] 4
              (ITemp 1) 1 (Elem (Ptr 3 2)) 30 ex_one_repr eq_refl eq_refl Hz)
    as (w1 & it1 & Hins & Hers); [simpl; lia|simpl; lia|].
  destruct (Hers (ITemp 1) eq_refl) as (w2 & it2 & Hrun & Hrep & Hsize).
  exists w1, it1, w2, it2. split; [exact Hins|]. split; [reflexivity|].
  split; [exact Hrun|]. split; [exact Hrep|exact Hsize].
Defined.


(** [push_back_sequence] for the values 10, 20, 30. *)
Lemma push_back_sequence_witness :
  Z.of_nat (length [10; 20; 30]) <= 2 ^ 63
  ∧ ∃ w', (vector.vector_default 1%positive ;;;
           push_all 1%positive [10; 20; 30]) ex_empty = Ret tt w'
          ∧ vector.size 1%positive w' = Ret 3 w'
          ∧ ∃ p, vector.at_ 1%positive 2 w' = Ret p w'
                 ∧ read p w' = Ret 30 w'.
Proof.
  assert (Z.of_nat (length [10; 20; 30]) <= 2 ^ 63) as Hlen by (simpl; lia).
  split; [exact Hlen|].
  destruct (push_back_sequence ex_empty 1%positive [10; 20; 30] Hlen)
    as (w' & Hrun & _ & Hsize & Hget).
  destruct (Hget 2%nat 30 eq_refl) as (p & _ & Hat & Hread).
  exists w'. split; [exact Hrun|]. split; [exact Hsize|].
  exists p. split; [exact Hat|exact Hread].
Defined.

(** [lifetime_restores_store] on [ex_one]: a second container lives at
    address 2, by default construction and as a copy of the first. *)
Lemma lifetime_restores_store_witness :
  objs ex_one !! 2%positive = None
  ∧ Forall (mutation_ok (T := Z))
      [MPush 1; MPush 2; MInsert 0 3; MErase 7; MPop; MWrite 0 9; MClear]
  ∧ (∃ w1 w2, vector.vector_default 2%positive ex_one = Ret tt w1
       ∧ mutate_all 2%positive
           [MPush 1; MPush 2; MInsert 0 3; MErase 7; MPop; MWrite 0 9; MClear]
           w1 = Some w2
       ∧ vector.vector_destroy 2%positive w2 = Ret tt ex_one)
  ∧ (∃ w1 w2, vector.vector_copy 2%positive 1%positive ex_one = Ret tt w1
       ∧ mutate_all 2%positive
           [MPush 1; MPush 2; MInsert 0 3; MErase 7; MPop; MWrite 0 9; MClear]
           w1 = Some w2
       ∧ vector.vector_destroy 2%positive w2 = Ret tt ex_one).
Proof.
  assert (Forall (mutation_ok (T := Z))
            [MPush 1; MPush 2; MInsert 0 3; MErase 7; MPop; MWrite 0 9;
             MClear]) as Hms.
  { repeat constructor; unfold is_size_t, SIZE_MAX; lia. }
  split; [reflexivity|]. split; [exact Hms|].
  destruct (lifetime_restores_store ex_one 2%positive _ eq_refl Hms)
    as [Hdef Hcopy].
  split.
  - apply Hdef. simpl. unfold SIZE_MAX. lia.
  - apply (Hcopy 1%positive [10; 20; 30] 4 ex_one_wf ex_one_repr).
    simpl. unfold SIZE_MAX. lia.
Defined.

(** [destructor_spec] on [ex_two]: the first container is destroyed, the
    second one keeps its element. *)
Lemma destructor_spec_witness :
  wf_world ex_two ∧ repr ex_two 1 [10; 20; 30] 4
  ∧ ∃ w', vector.vector_destroy 1%positive ex_two = Ret tt w'
          ∧ objs w' !! 1%positive = None
          ∧ read (Ptr 3 1) w' = Undef
          ∧ repr w' 2 [7] 1
          ∧ no_garbage w'.
Proof.
  split; [exact ex_two_wf|]. split; [exact ex_two_repr_1|].
  destruct (destructor_spec ex_two 1%positive [10; 20; 30] 4 ex_two_wf
              ex_two_repr_1)
    as (w' & s & Hbegin & Hrun & Hgone & Hdangling & Hkeep & _ & Hng).
  injection Hbegin as <-.
  exists w'. split; [exact Hrun|]. split; [exact Hgone|].
  split; [exact (Hdangling 1)|].
  split; [apply Hkeep; [done|exact ex_two_repr_2]|].
  exact (Hng ex_two_no_garbage).
Defined.

(** [tidy_store_kept] on [ex_two]: a third container is constructed as a
    copy of the first, and the second one is destroyed. *)
Lemma tidy_store_kept_witness :
  wf_world ex_two ∧ no_garbage ex_two
  ∧ (∃ w', vector.vector_copy 3%positive 1%positive ex_two = Ret tt w'
           ∧ wf_world w' ∧ no_garbage w')
  ∧ (∃ w', vector.vector_destroy 2%positive ex_two = Ret tt w'
           ∧ wf_world w' ∧ no_garbage w').
Proof.
  split; [exact ex_two_wf|]. split; [exact ex_two_no_garbage|].
  destruct (tidy_store_kept ex_two ex_two_wf ex_two_no_garbage)
    as (_ & _ & Hcopy & _ & _ & Hdestroy).
  split.
  - apply Hcopy; [reflexivity|]. eexists. reflexivity.
  - apply Hdestroy. eexists. reflexivity.
Defined.

(** [clear_spec] on [ex_one]. *)
Lemma clear_spec_witness :
  repr ex_one 1 [10; 20; 30] 4
  ∧ ∃ w', vector.clear 1%positive ex_one = Ret tt w'
          ∧ repr w' 1 [] 4
          ∧ vector.empty 1%positive w' = Ret true w'
          ∧ read (Ptr 3 0) w' = Undef.
Proof.
  split; [exact ex_one_repr|].
  destruct (clear_spec ex_one 1%positive [10; 20; 30] 4 ex_one_repr)
    as (w' & s & Hrun & Hrep & _ & Hempty & Hbegin & _ & _ & Hraw & _).
  injection Hbegin as <-.
  exists w'. split; [exact Hrun|]. split; [exact Hrep|].
  split; [exact Hempty|exact (Hraw 0)].
Defined.

(** [size_and_empty] on [ex_one]. *)
Lemma size_and_empty_witness :
  repr ex_one 1 [10; 20; 30] 4
  ∧ vector.size 1%positive ex_one = Ret 3 ex_one
  ∧ vector.empty 1%positive ex_one = Ret false ex_one.
Proof.
  split; [exact ex_one_repr|].
  destruct (size_and_empty ex_one 1%positive [10; 20; 30] 4 ex_one_repr)
    as (Hsize & Hempty & _).
  split; [exact Hsize|exact Hempty].
Defined.

(** [cursor_overloads] on [ex_one]: [erase(begin() + 1)] is [erase(1)],
    and [erase(end())] throws. *)
Lemma cursor_overloads_witness :
  repr ex_one 1 [10; 20; 30] 4 ∧ 0 <= 1 <= Z.of_nat (length [10; 20; 30])
  ∧ vector.erase_at 1%positive (Iter (Ptr 3 1) (Some 1%positive)) ex_one
    = vector.erase 1%positive (ITemp 1) ex_one
  ∧ vector.erase_at 1%positive (Iter (Ptr 3 3) (Some 1%positive)) ex_one
    = Throw index_out_of_bound ex_one.
Proof.
  assert (0 <= 1 <= Z.of_nat (length [10; 20; 30])) as Hi by (simpl; lia).
  split; [exact ex_one_repr|]. split; [exact Hi|].
  destruct (cursor_overloads ex_one 1%positive [10; 20; 30] 4 1 (Temp 0)
              ex_one_repr Hi) as (s & e & Hbegin & Hend & Hpos & Hthrow).
  injection Hbegin as <-. injection Hend as <-.
  split; [|exact Hthrow].
  exact (proj2 (Hpos (Iter (Ptr 3 1) (Some 1%positive)) eq_refl)).
Defined.

(** [forward_traversal] on [ex_one]: two steps from [begin()] lead to
    30. *)
Lemma forward_traversal_witness :
  repr ex_one 1 [10; 20; 30] 4
  ∧ ∃ s e, vector.begin_ 1%positive ex_one = Ret s ex_one
      ∧ vector.end_ 1%positive ex_one = Ret e ex_one
      ∧ iterator_ops.neqb
          (iterator_ops.pre_inc (iterator_ops.pre_inc s)) e = true
      ∧ read (iterator_ops.operator_star
                (iterator_ops.pre_inc (iterator_ops.pre_inc s))) ex_one
        = Ret 30 ex_one.
Proof.
  split; [exact ex_one_repr|].
  destruct (forward_traversal ex_one 1%positive [10; 20; 30] 4 ex_one_repr)
    as (s & e & Hbegin & Hend & Hstep & _).
  destruct (Hstep 2%nat 30 eq_refl) as (Hne & _ & _ & _ & Hread & _).
  exists s, e. split; [exact Hbegin|]. split; [exact Hend|].
  split; [exact Hne|exact Hread].
Defined.

(** [backward_traversal] on [ex_one]: one step back from [end()] leads to
    30. *)
Lemma backward_traversal_witness :
  repr ex_one 1 [10; 20; 30] 4
  ∧ ∃ e, vector.end_ 1%positive ex_one = Ret e ex_one
      ∧ read (iterator_ops.operator_star (iterator_ops.pre_dec e)) ex_one
        = Ret 30 ex_one.
Proof.
  split; [exact ex_one_repr|].
  destruct (backward_traversal ex_one 1%positive [10; 20; 30] 4 ex_one_repr)
    as (s & e & _ & Hend & Hstep & _).
  destruct (Hstep 0%nat 30 ltac:(simpl; lia) eq_refl) as (_ & Hread & _).
  exists e. split; [exact Hend|exact Hread].
Defined.

(** [const_traversal] on [ex_one]: one step from [cbegin()] leads to
    20. *)
Lemma const_traversal_witness :
  repr ex_one 1 [10; 20; 30] 4
  ∧ ∃ cs, vector.cbegin 1%positive ex_one = Ret cs ex_one
      ∧ read (const_iterator_ops.operator_star
                (snd (const_iterator_ops.post_inc cs))) ex_one
        = Ret 20 ex_one.
Proof.
  split; [exact ex_one_repr|].
  destruct (const_traversal ex_one 1%positive [10; 20; 30] 4 ex_one_repr)
    as (s & e & cs & ce & _ & _ & Hbegin & _ & _ & _ & Hstep & _).
  destruct (Hstep 1%nat 20 eq_refl)
    as (_ & _ & _ & _ & _ & _ & _ & _ & _ & _ & _ & Hread).
  exists cs. split; [exact Hbegin|exact Hread].
Defined.

(** [cursor_arithmetic] on [ex_one]: [(begin() + 3) - (begin() + 1)] is
    2. *)
Lemma cursor_arithmetic_witness :
  repr ex_one 1 [10; 20; 30] 4
  ∧ Z.of_nat (length [10; 20; 30]) <= INT_MAX
  ∧ ∃ s, vector.begin_ 1%positive ex_one = Ret s ex_one
      ∧ iterator_ops.sub (iterator_ops.add s 3) (iterator_ops.add s 1)
        = Ok 2.
Proof.
  assert (Z.of_nat (length [10; 20; 30]) <= INT_MAX) as Hmax
    by (simpl; unfold INT_MAX; lia).
  split; [exact ex_one_repr|]. split; [exact Hmax|].
  destruct (cursor_arithmetic ex_one 1%positive [10; 20; 30] 4 1 3
              ex_one_repr Hmax ltac:(simpl; lia) ltac:(simpl; lia))
    as (s & cs & Hbegin & _ & (Hsub & _) & _).
  exists s. split; [exact Hbegin|exact Hsub].
Defined.

(** [fresh_cursors_equal] for two containers at the addresses 1 and 2. *)
Lemma fresh_cursors_equal_witness :
  (1 : positive) ≠ 2%positive
  ∧ ∃ w' sa sc,
      (vector.vector_default 1%positive ;;; vector.vector_default 2%positive)
        ex_empty = Ret tt w'
      ∧ vector.begin_ 1%positive w' = Ret sa w'
      ∧ vector.begin_ 2%positive w' = Ret sc w'
      ∧ iterator_ops.eqb sa sc = true
      ∧ iterator_ops.sub sa sc = Raise invalid_iterator.
Proof.
  assert ((1 : positive) ≠ 2%positive) as Hne by done.
  split; [exact Hne|].
  destruct (@fresh_cursors_equal Z ex_empty 1%positive 2%positive Hne)
    as (w' & sa & sc & ea & Hrun & Ha & Hc & _ & Heq & _ & _ & _ & Hsub).
  exists w', sa, sc. split; [exact Hrun|]. split; [exact Ha|].
  split; [exact Hc|]. split; [exact Heq|exact Hsub].
Defined.

(** [exceptions_leave_store] on [ex_one]: [at(3)] and [erase(5)] throw
    [index_out_of_bound] and leave the store as it was. *)
Lemma exceptions_leave_store_witness :
  ∃ e w', vector.at_ 1%positive 3 ex_one = Throw e w'
    ∧ vector.erase 1%positive (ITemp 5) ex_one = Throw e w'
    ∧ e = index_out_of_bound ∧ w' = ex_one.
Proof.
  exists index_out_of_bound, ex_one.
  split; [reflexivity|]. split; [reflexivity|].
  destruct (exceptions_leave_store ex_one 1%positive index_out_of_bound
              ex_one) as (_ & _ & _ & _ & _ & Herase & _).
  exact (Herase (ITemp 5) eq_refl).
Defined.

(** [push_back_pop_back] on [ex_one], which has room: the store is
    restored. *)
Lemma push_back_pop_back_witness :
  repr ex_one 1 [10; 20; 30] 4 ∧ outside ex_one 1 (Temp 40) 40
  ∧ ∃ w1 p, vector.push_back 1%positive (Temp 40) ex_one = Ret tt w1
      ∧ vector.back 1%positive w1 = Ret p w1 ∧ read p w1 = Ret 40 w1
      ∧ vector.pop_back 1%positive w1 = Ret tt ex_one.
Proof.
  split; [exact ex_one_repr|]. split; [reflexivity|].
  destruct (push_back_pop_back ex_one 1%positive [10; 20; 30] 4 (Temp 40) 40
              ex_one_repr eq_refl)
    as (w1 & p & w2 & Hpush & Hback & Hread & Hpop & _ & Hsame);
    [simpl; lia|].
  rewrite (Hsame ltac:(simpl; lia)) in Hpop.
  exists w1, p. split; [exact Hpush|]. split; [exact Hback|].
  split; [exact Hread|exact Hpop].
Defined.

(** [push_back_is_insert_at_end] on [ex_one]. *)
Lemma push_back_is_insert_at_end_witness :
  repr ex_one 1 [10; 20; 30] 4 ∧ outside ex_one 1 (Temp 40) 40
  ∧ ∃ w' it, vector.push_back 1%positive (Temp 40) ex_one = Ret tt w'
      ∧ vector.insert 1%positive (ITemp 3) (Temp 40) ex_one = Ret it w'
      ∧ repr w' 1 [10; 20; 30; 40] 4.
Proof.
  split; [exact ex_one_repr|]. split; [reflexivity|].
  destruct (push_back_is_insert_at_end ex_one 1%positive [10; 20; 30] 4
              (Temp 40) 40 ex_one_repr eq_refl)
    as (w' & it & Hpush & Hins & Hrep & _); [simpl; lia|].
  exists w', it. split; [exact Hpush|]. split; [exact Hins|exact Hrep].
Defined.

(** [erase_last_is_pop_back] on [ex_one]. *)
Lemma erase_last_is_pop_back_witness :
  repr ex_one 1 ([10; 20] ++ [30]) 4
  ∧ ∃ w' it, vector.pop_back 1%positive ex_one = Ret tt w'
      ∧ vector.erase 1%positive (ITemp 2) ex_one = Ret it w'
      ∧ repr w' 1 [10; 20] 4.
Proof.
  split; [exact ex_one_repr|].
  destruct (erase_last_is_pop_back ex_one 1%positive [10; 20] 30 4
              ex_one_repr) as (w' & it & Hpop & Hers & Hrep & _).
  exists w', it. split; [exact Hpop|]. split; [exact Hers|exact Hrep].
Defined.

(** [erase_insert_roundtrip] on [ex_one]: [erase(1)] then
    [insert(1, 20)]. *)
Lemma erase_insert_roundtrip_witness :
  repr ex_one 1 [10; 20; 30] 4 ∧ [10; 20; 30] !! 1%nat = Some 20
  ∧ ∃ w1 it1 it2, vector.erase 1%positive (ITemp 1) ex_one = Ret it1 w1
      ∧ vector.insert 1%positive (ITemp 1) (Temp 20) w1 = Ret it2 ex_one.
Proof.
  split; [exact ex_one_repr|]. split; [reflexivity|].
  destruct (erase_insert_roundtrip ex_one 1%positive [10; 20; 30] 4 1 20
              ex_one_repr eq_refl) as (w1 & it1 & it2 & Hers & Hins & _).
  exists w1, it1, it2. split; [exact Hers|exact Hins].
Defined.

(** [growth_bound] for three calls of [push_back]: the capacity is 4. *)
Lemma growth_bound_witness :
  [10; 20; 30] ≠ [] ∧ Z.of_nat (length [10; 20; 30]) <= 2 ^ 63
  ∧ ∃ w', (vector.vector_default 1%positive ;;;
           push_all 1%positive [10; 20; 30]) ex_empty = Ret tt w'
          ∧ repr w' 1 [10; 20; 30] 4.
Proof.
  assert ([10; 20; 30] ≠ ([] : list Z)) as Hne by done.
  assert (Z.of_nat (length [10; 20; 30]) <= 2 ^ 63) as Hlen by (simpl; lia).
  split; [exact Hne|]. split; [exact Hlen|].
  destruct (growth_bound ex_empty 1%positive [10; 20; 30] Hne Hlen)
    as (w' & cap & Hrun & Hrep & -> & _).
  exists w'. split; [exact Hrun|exact Hrep].
Defined.

(** [growth_invalidates_cursors] on the second container of [ex_two],
    which is full. *)
Lemma growth_invalidates_cursors_witness :
  repr ex_two 2 [7] 1 ∧ outside ex_two 2 (Temp 8) 8
  ∧ ∃ w', vector.push_back 2%positive (Temp 8) ex_two = Ret tt w'
          ∧ vector.begin_ 2%positive ex_two
            = Ret (Iter (Ptr 4 0) (Some 2%positive)) ex_two
          ∧ read (Ptr 4 0) ex_two = Ret 7 ex_two
          ∧ read (Ptr 4 0) w' = Undef.
Proof.
  split; [exact ex_two_repr_2|]. split; [reflexivity|].
  destruct (growth_invalidates_cursors ex_two 2%positive [7] 1 (Temp 8) 8
              ex_two_repr_2 eq_refl)
    as (s & Hbegin & (w' & s' & Hrun & _ & _ & _ & Hdangling) & _);
    [simpl; lia|unfold SIZE_MAX; lia|].
  injection Hbegin as <-.
  exists w'. split; [exact Hrun|]. split; [reflexivity|].
  split; [reflexivity|exact (Hdangling 0)].
Defined.

(** [room_keeps_cursors] on [ex_one]: after [insert(0, 5)] the old
    [begin()] designates 5. *)
Lemma room_keeps_cursors_witness :
  repr ex_one 1 [10; 20; 30] 4 ∧ mutation_ok (MInsert 0 5)
  ∧ ∃ w' s, outcome_world (mutate 1%positive (MInsert 0 5) ex_one) = Some w'
      ∧ vector.begin_ 1%positive ex_one = Ret s ex_one
      ∧ vector.begin_ 1%positive w' = Ret s w'.
Proof.
  assert (mutation_ok (MInsert 0 5)) as Hm
    by (simpl; unfold is_size_t, SIZE_MAX; lia).
  split; [exact ex_one_repr|]. split; [exact Hm|].
  destruct (room_keeps_cursors ex_one 1%positive [10; 20; 30] 4 (MInsert 0 5)
              ex_one_repr Hm)
    as (w' & s & xs' & Hrun & Hbegin & Hbegin' & _); [left; simpl; lia|].
  exists w', s. split; [exact Hrun|]. split; [exact Hbegin|exact Hbegin'].
Defined.

(** [insert_own_element_spec] on [ex_one], which has room:
    [insert(0, v[2])] inserts a copy of [v[1]]. *)
Lemma insert_own_element_spec_witness :
  repr ex_one 1 [10; 20; 30] 4 ∧ [10; 20; 30] !! 2%nat = Some 30
  ∧ ∃ ref w' it,
      vector.operator_index 1%positive 2 ex_one = Ret ref ex_one
      ∧ vector.insert 1%positive (ITemp 0) (Elem ref) ex_one = Ret it w'
      ∧ repr w' 1 [20; 10; 20; 30] 4.
Proof.
  split; [exact ex_one_repr|]. split; [reflexivity|].
  destruct (insert_own_element_spec ex_one 1%positive [10; 20; 30] 4 0 2 30
              ex_one_repr eq_refl)
    as (ref & Hidx & _ & _ & Hroom); [simpl; lia|].
  destruct (Hroom ltac:(simpl; lia)) as (w' & it & y & Hins & Hrep & _ & Hy).
  injection Hy as <-.
  exists ref, w', it. split; [exact Hidx|]. split; [exact Hins|exact Hrep].
Defined.

(** [push_back_own_element_spec] on the second container of [ex_two],
    which is full: [push_back(u[0])] is undefined. *)
Lemma push_back_own_element_spec_witness :
  repr ex_two 2 [7] 1 ∧ [7] !! 0%nat = Some 7
  ∧ ∃ ref, vector.operator_index 2%positive 0 ex_two = Ret ref ex_two
      ∧ vector.push_back 2%positive (Elem ref) ex_two = Undef.
Proof.
  split; [exact ex_two_repr_2|]. split; [reflexivity|].
  destruct (push_back_own_element_spec ex_two 2%positive [7] 1 0 7
              ex_two_repr_2 eq_refl) as (ref & Hidx & _ & _ & Hfull).
  exists ref. split; [exact Hidx|].
  apply Hfull; [simpl; lia|unfold SIZE_MAX; lia].
Defined.

(** [reallocate_spec] on the second container of [ex_pair], whose buffer
    of one slot is full: [reallocate(2)] moves the element to a new buffer
    and frees the old one. *)
Lemma reallocate_spec_witness :
  repr ex_pair 2 [1] 1
  ∧ 1 <= Z.of_nat (length [1]) ∧ 2 * 1 <= SIZE_MAX
  ∧ ∃ w', vector.reallocate 2%positive 2 ex_pair = Ret tt w'
          ∧ repr w' 2 [1] 2
          ∧ read (Ptr 4 0) w' = Undef.
Proof.
  assert (1 <= Z.of_nat (length [1])) as Hfull by (simpl; lia).
  assert (2 * 1 <= SIZE_MAX) as Hdbl by (unfold SIZE_MAX; lia).
  split; [exact ex_pair_repr_2|]. split; [exact Hfull|]. split; [exact Hdbl|].
  destruct (reallocate_spec ex_pair 2%positive [1] 1 ex_pair_repr_2 Hfull Hdbl)
    as (w' & s & s' & Hbegin & _ & Hrun & Hrep & _ & _ & _ & Hdangling & _).
  injection Hbegin as <-.
  exists w'. split; [exact Hrun|]. split; [exact Hrep|exact (Hdangling 0)].
Defined.

(** [insert_erase_by_cursor] on [ex_one]. *)
Lemma insert_erase_by_cursor_witness :
  repr ex_one 1 [10; 20; 30] 4 ∧ outside ex_one 1 (Temp 15) 15
  ∧ 0 <= 1 <= Z.of_nat (length [10; 20; 30])
  ∧ ∃ w1 it1 it2,
      vector.insert_at 1%positive (Iter (Ptr 3 1) (Some 1%positive))
        (Temp 15) ex_one = Ret it1 w1
      ∧ repr w1 1 [10; 15; 20; 30] 4
      ∧ vector.erase_at 1%positive it1 w1 = Ret it2 ex_one.
Proof.
  assert (0 <= 1 <= Z.of_nat (length [10; 20; 30])) as Hi by (simpl; lia).
  split; [exact ex_one_repr|]. split; [reflexivity|]. split; [exact Hi|].
  destruct (insert_erase_by_cursor ex_one 1%positive [10; 20; 30] 4 1
              (Temp 15) 15 ex_one_repr eq_refl Hi)
    as (s & Hbegin & Hpos); [simpl; lia|].
  injection Hbegin as <-.
  destruct (Hpos (Iter (Ptr 3 1) (Some 1%positive)) eq_refl)
    as (w1 & it1 & w2 & it2 & Hins & _ & Hers & _ & _ & Hsame).
  rewrite (Hsame ltac:(simpl; lia)) in Hers.
  exists w1, it1, it2. split; [exact Hins|]. split; [|exact Hers].
  assert (vector.insert_at 1%positive (Iter (Ptr 3 1) (Some 1%positive))
            (Temp 15) ex_one
          = Ret (Iter (Ptr 3 1) (Some 1%positive))
              (World {[3%positive := [Some 10; Some 15; Some 20; Some 30]]}
                     {[1%positive := Vec (Ptr 3 0) 4 4]})) as Hrun
    by (vm_compute; reflexivity).
  rewrite Hrun in Hins. injection Hins as _ <-.
  eexists. split; [reflexivity|].
  split; [simpl; unfold SIZE_MAX; lia|]. by split.
Defined.

(** [capacity_never_shrinks] on [ex_one]. *)
Lemma capacity_never_shrinks_witness :
  repr ex_one 1 [10; 20; 30] 4
  ∧ Forall (mutation_ok (T := Z)) [MPop; MPush 1; MPush 2; MClear; MPush 3]
  ∧ ∃ w' xs' cap',
      mutate_all 1%positive [MPop; MPush 1; MPush 2; MClear; MPush 3] ex_one
      = Some w'
      ∧ repr w' 1 xs' cap' ∧ 4 <= cap'.
Proof.
  assert (Forall (mutation_ok (T := Z))
            [MPop; MPush 1; MPush 2; MClear; MPush 3]) as Hms
    by (repeat constructor).
  split; [exact ex_one_repr|]. split; [exact Hms|].
  destruct (capacity_never_shrinks
              [MPop; MPush 1; MPush 2; MClear; MPush 3]
              ex_one 1%positive [10; 20; 30] 4 ex_one_repr Hms)
    as (w' & xs' & cap' & Hrun & Hrep & Hle & _);
    [simpl; unfold SIZE_MAX; lia|].
  exists w', xs', cap'. split; [exact Hrun|]. split; [exact Hrep|exact Hle].
Defined.


(** [copies_allocate_exactly] on [ex_two]: the first container is
    assigned the second one, and a third one is constructed as a copy of
    the first. *)
Lemma copies_allocate_exactly_witness :
  wf_world ex_two ∧ repr ex_two 2 [7] 1 ∧ repr ex_two 1 [10; 20; 30] 4
  ∧ (∃ w' bn, vector.operator_assign 1%positive 2%positive ex_two
              = Ret 1%positive w'
       ∧ heap w' = <[bn := [Some 7]]> (delete 3%positive (heap ex_two)))
  ∧ (∃ w' bn, vector.vector_copy 3%positive 1%positive ex_two = Ret tt w'
       ∧ heap ex_two !! bn = None
       ∧ heap w' = <[bn := [Some 10; Some 20; Some 30]]> (heap ex_two)).
Proof.
  split; [exact ex_two_wf|]. split; [exact ex_two_repr_2|].
  split; [exact ex_two_repr_1|]. split.
  - destruct (copies_allocate_exactly ex_two 1%positive 2%positive [7] 1
                ex_two_wf ex_two_repr_2 ltac:(done)) as [_ Hasg].
    destruct (Hasg [10; 20; 30] 4 ex_two_repr_1)
      as (s & w' & Hbegin & Hrun & bn & _ & Hheap).
    injection Hbegin as <-. exists w', bn. split; [exact Hrun|exact Hheap].
  - destruct (copies_allocate_exactly ex_two 3%positive 1%positive
                [10; 20; 30] 4 ex_two_wf ex_two_repr_1 ltac:(done))
      as [Hctor _].
    destruct (Hctor eq_refl) as (w' & Hrun & bn & Hbn & Hheap).
    exists w', bn. split; [exact Hrun|]. split; [exact Hbn|exact Hheap].
Defined.
